(** * The probe item cache (src/OVAL/probes/probe/icache.c)

    A shallow embedding of the item cache of the OVAL probe runtime: the
    ID stamping routine, the bounded ring queue shared by the producers
    and the cache worker, the worker's deduplicating insert, the barrier
    (NOP) operation and the filtered submit helper.

    Integers are modelled as [Z] with the wrap-around of their C type
    written out; pointers are addresses in [Z] with [NULL = 0]; the
    red-black tree and the heap of S-expressions are finite maps. *)

From Stdlib Require Import ZArith Lia Bool Ascii String.
From Stdlib Require Import DecimalString DecimalPos DecimalN.
From stdpp Require Import base option list gmap.

Local Open Scope Z_scope.

(** ** Machine integers and pointers *)

Definition NULL : Z := 0.

(** [uint16_t] arithmetic: queue indices, queue count, bucket count. *)
Definition wrap16 (z : Z) : Z := z mod 2 ^ 16.

(** [uint32_t] arithmetic: the [next_ID] counter. *)
Definition wrap32 (z : Z) : Z := z mod 2 ^ 32.

(** ** Formatted output: the subset of printf used by the stamp

    [SEXP_string_newf_r(&uniq_id, "1%05u%u", getpid(), local_id)] formats
    with literal characters and [%u] conversions that may carry the [0]
    flag and a minimum field width. *)

Inductive directive :=
| D_lit (c : ascii)
| D_uint (zero_flag : bool) (width : nat).

Definition digit_of_ascii (c : ascii) : option nat :=
  let n := nat_of_ascii c in
  if ((48 <=? n) && (n <=? 57))%nat then Some (n - 48)%nat else None.

(** [parse_format conv s]: [conv = None] while reading literal text,
    [conv = Some (zero, width)] while inside a conversion opened by [%]. *)
Fixpoint parse_format (conv : option (bool * nat)) (s : string)
  : option (list directive) :=
  match s with
  | EmptyString =>
      match conv with None => Some [] | Some _ => None end
  | String c rest =>
      match conv with
      | None =>
          if Ascii.eqb c "%"%char then parse_format (Some (false, 0%nat)) rest
          else option_map (cons (D_lit c)) (parse_format None rest)
      | Some (zero, width) =>
          if Ascii.eqb c "u"%char
          then option_map (cons (D_uint zero width)) (parse_format None rest)
          else match digit_of_ascii c with
               | Some d =>
                   if (Nat.eqb d 0 && Nat.eqb width 0 && negb zero)%bool
                   then parse_format (Some (true, 0%nat)) rest
                   else parse_format (Some (zero, (10 * width + d)%nat)) rest
               | None => None
               end
      end
  end.

(** Decimal digits of an unsigned value, no sign, no padding. *)
Definition decimal (n : Z) : string :=
  NilZero.string_of_uint (N.to_uint (Z.to_N n)).

Fixpoint repeat_char (c : ascii) (n : nat) : string :=
  match n with
  | O => EmptyString
  | S n' => String c (repeat_char c n')
  end.

(** Left padding up to a minimum width; longer strings are not cut. *)
Definition pad_left (c : ascii) (width : nat) (s : string) : string :=
  String.append (repeat_char c (width - String.length s)) s.

(** One [%u] conversion: the argument is taken as an [unsigned int]. *)
Definition render_uint (zero : bool) (width : nat) (arg : Z) : string :=
  pad_left (if zero then "0"%char else " "%char) width (decimal (wrap32 arg)).

Fixpoint render (ds : list directive) (args : list Z) : option string :=
  match ds with
  | [] => match args with [] => Some EmptyString | _ => None end
  | D_lit c :: ds' => option_map (String c) (render ds' args)
  | D_uint zero width :: ds' =>
      match args with
      | [] => None
      | a :: args' =>
          option_map (String.append (render_uint zero width a)) (render ds' args')
      end
  end.

Definition SEXP_string_newf (fmt : string) (args : list Z) : option string :=
  match parse_format None fmt with
  | Some ds => render ds args
  | None => None
  end.

(** The format string of [probe_icache_item_setID]. *)
Definition uniq_id_format : string := "1%05u%u".

Definition uniq_id (pid local_id : Z) : option string :=
  SEXP_string_newf uniq_id_format [pid; local_id].

(** The stamp as the specification words it: the prefix "1", the process
    identifier zero-padded to five digits, the counter in plain decimal. *)
Definition stamp_spec (pid counter : Z) : string :=
  String.append "1"
    (String.append (pad_left "0"%char 5 (decimal pid)) (decimal counter)).

(** ** Minting the local ID

    [HAVE_ATOMIC_FUNCTIONS]:   [local_id = __sync_fetch_and_add(&next_ID, 1)]
    otherwise (under a mutex): [local_id = ++next_ID]
    The result is [(local_id, next_ID')]. *)
Definition mint (atomic : bool) (next_ID : Z) : Z * Z :=
  if atomic
  then (next_ID, wrap32 (next_ID + 1))
  else (wrap32 (next_ID + 1), wrap32 (next_ID + 1)).

(** The local ID obtained by the [n]-th call (counting from 1) when the
    process starts with [next_ID = 0]. *)
Fixpoint counter_after (atomic : bool) (n : nat) : Z :=
  match n with
  | O => 0
  | S n' => snd (mint atomic (counter_after atomic n'))
  end.

Definition nth_local_id (atomic : bool) (n : nat) : Z :=
  match n with
  | O => 0
  | S n' => fst (mint atomic (counter_after atomic n'))
  end.

Global Arguments wrap16 : simpl never.
Global Arguments wrap32 : simpl never.
Global Arguments uniq_id : simpl never.
Global Arguments stamp_spec : simpl never.
Global Arguments mint : simpl never.

(** ** Collaborators and platform

    The S-expression library, the filter evaluation and the build
    configuration are not part of icache.c; they are taken as an
    interface.  An item [((foo_item :id "<int>") ...)] is kept as the
    value of its id attribute (the stamp) and the rest of its content. *)

Record sexp_item (content : Type) := mk_item {
  body : content;
  stamp : string
}.
Arguments mk_item {content} _ _.
Arguments body {content} _.
Arguments stamp {content} _.

Class Collaborators := {
  content : Type;
  (** [SEXP_ID_v]: the 64-bit identifier (fingerprint) of an item *)
  SEXP_ID_v : sexp_item content -> Z;
  (** [SEXP_deepcmp]: deep comparison of two items *)
  SEXP_deepcmp : sexp_item content -> sexp_item content -> bool;
  (** [probe_item_filtered item filters] *)
  probe_item_filtered : sexp_item content -> Z -> bool
}.

Class Platform := {
  (** whether [HAVE_ATOMIC_FUNCTIONS] is defined *)
  HAVE_ATOMIC_FUNCTIONS : bool;
  (** whether [assume_d] checks are compiled in (debug build) *)
  assume_d_enabled : bool;
  (** [PROBE_IQUEUE_CAPACITY] of icache.h *)
  PROBE_IQUEUE_CAPACITY : Z;
  (** the value returned by [getpid()] *)
  getpid : Z
}.

(** ** The queue of the cache *)

(** [probe_iqpair_t]: [cobj] and the union [p] of an item pointer and a
    condition pointer.  The constructor records which member was written;
    both members read the same storage. *)
Inductive payload :=
| P_item (item : Z)
| P_cond (cond : Z).

Definition p_item (p : payload) : Z :=
  match p with P_item a => a | P_cond a => a end.

Definition p_cond (p : payload) : Z :=
  match p with P_item a => a | P_cond a => a end.

Record iqpair := mk_pair {
  cobj : Z;
  p : payload
}.

(** The queue fields of [probe_icache_t].  A slot that was never written
    holds [None]. *)
Record iqueue := mk_queue {
  queue : list (option iqpair);
  queue_beg : Z;
  queue_end : Z;
  queue_cnt : Z;
  queue_max : Z
}.

(** Lines 248-251 of [probe_icache_new]. *)
Definition new_queue (capacity : Z) : iqueue :=
  {| queue := replicate (Z.to_nat capacity) None;
     queue_beg := 0;
     queue_end := 0;
     queue_cnt := 0;
     queue_max := capacity |}.

(** Lines 289-301: the store performed by [__probe_icache_add_nolock]
    once the check on [queue_cnt] has passed. *)
Definition queue_store (q : iqueue) (cobj item cond : Z) : iqueue :=
  let e := {| cobj := cobj;
              p := if item =? NULL then P_cond cond else P_item item |} in
  {| queue := <[Z.to_nat (queue_end q) := Some e]> (queue q);
     queue_beg := queue_beg q;
     queue_end := if queue_end q + 1 =? queue_max q then 0
                  else wrap16 (queue_end q + 1);
     queue_cnt := wrap16 (queue_cnt q + 1);
     queue_max := queue_max q |}.

(** Line 288: the test that guards the store. *)
Definition queue_has_room (q : iqueue) : bool :=
  queue_cnt q <=? queue_max q.

(** Lines 109-116: the worker takes the slot at [queue_beg]. *)
Definition queue_extract (q : iqueue) : Z * iqueue :=
  (queue_beg q,
   {| queue := queue q;
      queue_beg := if queue_end q =? queue_beg q then queue_beg q
                   else if wrap16 (queue_beg q + 1) =? queue_max q then 0
                        else wrap16 (queue_beg q + 1);
      queue_end := queue_end q;
      queue_cnt := wrap16 (queue_cnt q - 1);
      queue_max := queue_max q |}).

Definition queue_slot (q : iqueue) (i : Z) : option iqpair :=
  mjoin (queue q !! Z.to_nat i).

Definition queue_set_slot (q : iqueue) (i : Z) (e : iqpair) : iqueue :=
  {| queue := <[Z.to_nat i := Some e]> (queue q);
     queue_beg := queue_beg q;
     queue_end := queue_end q;
     queue_cnt := queue_cnt q;
     queue_max := queue_max q |}.

(** What the other threads may do to the queue while this thread does
    not hold the queue mutex: a submit or a barrier of another producer
    reaching its store, or the worker extracting an entry. *)
Inductive other :=
| Other_submit (cobj item : Z)
| Other_nop (cond : Z)
| Other_extract.

Definition interfere (q : iqueue) (o : other) : iqueue :=
  match o with
  | Other_submit cobj item =>
      if (cobj =? NULL) || (item =? NULL) then q
      else if queue_has_room q then queue_store q cobj item NULL else q
  | Other_nop cond =>
      if cond =? NULL then q
      else if queue_has_room q then queue_store q NULL NULL cond else q
  | Other_extract =>
      if 0 <? queue_cnt q then snd (queue_extract q) else q
  end.

(** ** System calls, events and the environment *)

Inductive mutex := MX_queue | MX_next_ID.

Inductive condvar := CV_notempty | CV_notfull | CV_at (addr : Z).

Inductive call :=
| pthread_mutex_lock (m : mutex)
| pthread_mutex_unlock (m : mutex)
| pthread_cond_init (addr : Z)
| pthread_cond_destroy (addr : Z)
| pthread_cond_signal (cv : condvar)
| pthread_cond_wait (cv : condvar)
| rbt_i64_add (key : Z)
| probe_cobj_add_item (cobj item : Z).

Inductive event :=
| Ev_call (c : call) (rc : Z)
| Ev_SEXP_free (item : Z)
| Ev_oscap_free_items (items : list Z)
| Ev_oscap_free_citem
| Ev_abort.

(** One answer of the environment: the return code of the call and what
    the other threads did in the meantime. *)
Record answer := mk_answer {
  rc : Z;
  others : list other
}.

Definition ok : answer := {| rc := 0; others := [] |}.
Definition failure (code : Z) : answer := {| rc := code; others := [] |}.

(** ** The state of the process *)

Section Model.
Context `{Collaborators} `{Platform}.

(** [heap]: the live S-expression items, by address.
    [tree]: the red-black tree of the cache; each key holds a
    [probe_citem_t], kept as the array [item] with [count] its length.
    [cobjs]: the collected objects, each with the items added so far.
    [next_ID]: the process-wide counter.
    [holds_queue_mutex]: whether the running thread owns [queue_mutex].
    [trace]: the calls and releases made so far, oldest first.
    [tape]: the answers the environment will give, in order.
    [sched]: what the other threads do to the queue at the points where
    the worker, no longer holding the queue mutex, goes through its
    pointer into the queue; one list per point, in order. *)
Record world := mk_world {
  iq : iqueue;
  tree : gmap Z (list Z);
  heap : gmap Z (sexp_item content);
  cobjs : gmap Z (list Z);
  next_ID : Z;
  holds_queue_mutex : bool;
  trace : list event;
  tape : list answer;
  sched : list (list other)
}.

Definition set_iq (q : iqueue) (w : world) : world :=
  mk_world q (tree w) (heap w) (cobjs w) (next_ID w)
           (holds_queue_mutex w) (trace w) (tape w) (sched w).
Definition set_tree (t : gmap Z (list Z)) (w : world) : world :=
  mk_world (iq w) t (heap w) (cobjs w) (next_ID w)
           (holds_queue_mutex w) (trace w) (tape w) (sched w).
Definition set_heap (h : gmap Z (sexp_item content)) (w : world) : world :=
  mk_world (iq w) (tree w) h (cobjs w) (next_ID w)
           (holds_queue_mutex w) (trace w) (tape w) (sched w).
Definition set_cobjs (c : gmap Z (list Z)) (w : world) : world :=
  mk_world (iq w) (tree w) (heap w) c (next_ID w)
           (holds_queue_mutex w) (trace w) (tape w) (sched w).
Definition set_next_ID (n : Z) (w : world) : world :=
  mk_world (iq w) (tree w) (heap w) (cobjs w) n
           (holds_queue_mutex w) (trace w) (tape w) (sched w).
Definition set_holds (b : bool) (w : world) : world :=
  mk_world (iq w) (tree w) (heap w) (cobjs w) (next_ID w)
           b (trace w) (tape w) (sched w).
Definition set_trace (t : list event) (w : world) : world :=
  mk_world (iq w) (tree w) (heap w) (cobjs w) (next_ID w)
           (holds_queue_mutex w) t (tape w) (sched w).
Definition set_tape (t : list answer) (w : world) : world :=
  mk_world (iq w) (tree w) (heap w) (cobjs w) (next_ID w)
           (holds_queue_mutex w) (trace w) t (sched w).
Definition set_sched (s : list (list other)) (w : world) : world :=
  mk_world (iq w) (tree w) (heap w) (cobjs w) (next_ID w)
           (holds_queue_mutex w) (trace w) (tape w) s.

Definition log (e : event) (w : world) : world :=
  set_trace (trace w ++ [e]) w.

(** The state right after [probe_icache_new] succeeded. *)
Definition new_world (items : gmap Z (sexp_item content)) (answers : list answer)
  : world :=
  {| iq := new_queue PROBE_IQUEUE_CAPACITY;
     tree := ∅;
     heap := items;
     cobjs := ∅;
     next_ID := 0;
     holds_queue_mutex := false;
     trace := [];
     tape := answers;
     sched := [] |}.

(** ** A monad for the C functions

    [Done a w]: the function went on with value [a];
    [Aborted w]: [abort()] was called;
    [Blocked w]: the thread waits on a condition nobody signals;
    [Undefined w]: the C code has no defined behaviour here (a dangling
    or uninitialised read, an overflowing bucket). *)
Inductive outcome (A : Type) :=
| Done (a : A) (w : world)
| Aborted (w : world)
| Blocked (w : world)
| Undefined (w : world).
Arguments Done {A} _ _.
Arguments Aborted {A} _.
Arguments Blocked {A} _.
Arguments Undefined {A} _.

Definition M (A : Type) : Type := world -> outcome A.

Definition ret {A} (a : A) : M A := fun w => Done a w.

Definition bind {A B} (m : M A) (k : A -> M B) : M B :=
  fun w =>
    match m w with
    | Done a w' => k a w'
    | Aborted w' => Aborted w'
    | Blocked w' => Blocked w'
    | Undefined w' => Undefined w'
    end.

Definition get : M world := fun w => Done w w.
Definition modify (f : world -> world) : M unit := fun w => Done tt (f w).
Definition emit (e : event) : M unit := modify (log e).
Definition abort {A} : M A := fun w => Aborted (log Ev_abort w).
Definition undefined {A} : M A := fun w => Undefined w.
Definition blocked {A} : M A := fun w => Blocked w.

(** The answer the next call receives; a call made when the tape is
    used up succeeds. *)
Definition next_answer (w : world) : answer := hd ok (tape w).
Definition pop_tape (w : world) : world := set_tape (tl (tape w)) w.

(** A call that returns at once. *)
Definition syscall (c : call) : M Z :=
  fun w =>
    Done (rc (next_answer w)) (log (Ev_call c (rc (next_answer w))) (pop_tape w)).

(** What the other threads did to the queue while this thread was not
    holding the queue mutex. *)
Definition yield (a : answer) (w : world) : world :=
  set_iq (foldl interfere (iq w) (others a)) w.

(** Taking the queue mutex: the other threads may have worked on the
    queue before the lock is granted. *)
Definition lock_queue_mutex : M Z :=
  fun w =>
    let a := next_answer w in
    Done (rc a)
      (log (Ev_call (pthread_mutex_lock MX_queue) (rc a))
         (set_holds (if rc a =? 0 then true else holds_queue_mutex w)
            (yield a (pop_tape w)))).

Definition unlock_queue_mutex : M Z :=
  fun w =>
    let a := next_answer w in
    Done (rc a)
      (log (Ev_call (pthread_mutex_unlock MX_queue) (rc a))
         (set_holds (if rc a =? 0 then false else holds_queue_mutex w)
            (pop_tape w))).

(** [pthread_cond_wait cv &queue_mutex]: the mutex is released while the
    thread sleeps and owned again on return.  With no answer left nobody
    wakes the thread. *)
Definition cond_wait (cv : condvar) : M Z :=
  fun w =>
    match tape w with
    | [] => Blocked w
    | a :: _ =>
        Done (rc a)
          (log (Ev_call (pthread_cond_wait cv) (rc a)) (yield a (pop_tape w)))
    end.

(** A point at which the running thread does not hold the queue mutex
    and the other threads may work on the queue before it goes on; with
    the schedule used up nobody else runs. *)
Definition preempt : M unit :=
  fun w =>
    match sched w with
    | [] => Done tt w
    | os :: rest => Done tt (set_sched rest (set_iq (foldl interfere (iq w) os) w))
    end.

End Model.

Arguments Done {_ A} _ _.
Arguments Aborted {_ A} _.
Arguments Blocked {_ A} _.
Arguments Undefined {_ A} _.

Notation "x <~ c ;; k" := (bind c (fun x => k))
  (at level 100, c at next level, right associativity, only parsing).
Notation "c ;;; k" := (bind c (fun _ => k))
  (at level 100, right associativity, only parsing).

(** ** The functions of icache.c *)

Section Functions.
Context `{Collaborators} `{Platform}.

(** Lines 59-73 of [probe_icache_item_setID]. *)
Definition mint_local_id : M Z :=
  if HAVE_ATOMIC_FUNCTIONS then
    w <~ get ;;
    modify (set_next_ID (snd (mint true (next_ID w)))) ;;;
    ret (fst (mint true (next_ID w)))
  else
    l <~ syscall (pthread_mutex_lock MX_next_ID) ;;
    if negb (l =? 0) then abort else
    w <~ get ;;
    modify (set_next_ID (snd (mint false (next_ID w)))) ;;;
    u <~ syscall (pthread_mutex_unlock MX_next_ID) ;;
    if negb (u =? 0) then abort else
    ret (fst (mint false (next_ID w))).

(** Lines 76-81: the id attribute of the item is replaced. *)
Definition SEXP_list_replace_id (item : Z) (s : string) : M unit :=
  fun w =>
    match heap w !! item with
    | None => Undefined w
    | Some it =>
        Done tt (set_heap (<[item := mk_item (body it) s]> (heap w)) w)
    end.

Definition probe_icache_item_setID (item item_ID : Z) : M unit :=
  if assume_d_enabled && (item =? NULL) then ret tt else
  local_id <~ mint_local_id ;;
  match uniq_id getpid local_id with
  | None => undefined
  | Some s => SEXP_list_replace_id item s
  end.

Definition SEXP_free (item : Z) : M unit :=
  modify (fun w => log (Ev_SEXP_free item) (set_heap (delete item (heap w)) w)).

(** Modelled from the spec: the [append(collected, item)] operation of
    the collected object ([probe_cobj_add_item] is not part of icache.c);
    it may fail, and then nothing is appended. *)
Definition cobj_add_item (dest item : Z) : M Z :=
  r <~ syscall (probe_cobj_add_item dest item) ;;
  if r =? 0 then
    modify (fun w =>
      set_cobjs (<[dest := default [] (cobjs w !! dest) ++ [item]]> (cobjs w)) w) ;;;
    ret 0
  else ret r.

(** Modelled from the spec: [insert(key, bucket) -> ok | duplicate] of
    the Dedup Index ([rbt_i64_add] is not part of icache.c); the insert
    of a fresh key fails when the environment says so. *)
Definition rbt_add (key : Z) (cached : list Z) : M Z :=
  w <~ get ;;
  match tree w !! key with
  | Some _ => ret 1
  | None =>
      r <~ syscall (rbt_i64_add key) ;;
      if r =? 0 then modify (fun w => set_tree (<[key := cached]> (tree w)) w) ;;; ret 0
      else ret r
  end.

(** Lines 169-172: the value of [i] when the loop is left; [None] when a
    stored pointer is dangling. *)
Fixpoint bucket_scan (h : gmap Z (sexp_item content)) (it : sexp_item content)
    (items : list Z) (i : Z) : option Z :=
  match items with
  | [] => Some i
  | c :: rest =>
      match h !! c with
      | None => None
      | Some stored =>
          if SEXP_deepcmp it stored then Some i
          else bucket_scan h it rest (i + 1)
      end
  end.

Inductive worker_status :=
| W_continue   (** go on with the loop *)
| W_return     (** the worker function returned [NULL] *)
| W_more.      (** the model stopped with entries left to take *)

(** Lines 135-221 on an entry that no other thread touches meanwhile:
    what the worker does with the entry it extracted.  The result
    carries the entry as it is left in its slot.  [worker_handle_at]
    below is the same code on the shared slot. *)
Definition worker_handle (entry : iqpair) : M (worker_status * iqpair) :=
  if cobj entry =? NULL then
    if assume_d_enabled && (p_cond (p entry) =? NULL) then ret (W_return, entry)
    else
      r <~ syscall (pthread_cond_signal (CV_at (p_cond (p entry)))) ;;
      if negb (r =? 0) then abort else ret (W_continue, entry)
  else
    let item := p_item (p entry) in
    w <~ get ;;
    match heap w !! item with
    | None => undefined
    | Some it =>
        let item_ID := SEXP_ID_v it in
        entry' <~
          match tree w !! item_ID with
          | Some cached =>
              match bucket_scan (heap w) it cached 0 with
              | None => undefined
              | Some i =>
                  if i =? Z.of_nat (length cached) then
                    if wrap16 (Z.of_nat (length cached) + 1) =? 0 then undefined
                    else
                      modify (fun w => set_tree (<[item_ID := cached ++ [item]]> (tree w)) w) ;;;
                      probe_icache_item_setID item item_ID ;;;
                      ret entry
                  else
                    match cached !! Z.to_nat i with
                    | None => undefined
                    | Some canonical =>
                        SEXP_free item ;;;
                        ret {| cobj := cobj entry; p := P_item canonical |}
                    end
              end
          | None =>
              probe_icache_item_setID item item_ID ;;;
              r <~ rbt_add item_ID [item] ;;
              if negb (r =? 0) then
                emit (Ev_oscap_free_items [item]) ;;;
                emit Ev_oscap_free_citem ;;;
                abort
              else ret entry
          end ;;
        r <~ cobj_add_item (cobj entry') (p_item (p entry')) ;;
        if negb (r =? 0) then ret (W_return, entry')
        else ret (W_continue, entry')
    end.

(** *** The worker and its pointer into the queue

    Line 109 takes [pair = cache->queue + cache->queue_beg], line 121
    releases the queue mutex, and lines 135-217 go on reading
    [pair->cobj] and [pair->p.item] and writing [pair->p.item] in the
    shared array until line 223 takes the mutex again.  [pair] is the
    index of the slot; before each access through it the other threads
    may have worked on the queue. *)

Definition pair_cobj (pair : Z) : M Z :=
  preempt ;;;
  w <~ get ;;
  match queue_slot (iq w) pair with
  | None => undefined
  | Some e => ret (cobj e)
  end.

Definition pair_p_item (pair : Z) : M Z :=
  preempt ;;;
  w <~ get ;;
  match queue_slot (iq w) pair with
  | None => undefined
  | Some e => ret (p_item (p e))
  end.

Definition pair_p_cond (pair : Z) : M Z :=
  preempt ;;;
  w <~ get ;;
  match queue_slot (iq w) pair with
  | None => undefined
  | Some e => ret (p_cond (p e))
  end.

(** [pair->p.item = x]: the other field of the slot stays as it is. *)
Definition set_pair_p_item (pair x : Z) : M unit :=
  preempt ;;;
  w <~ get ;;
  match queue_slot (iq w) pair with
  | None => undefined
  | Some e =>
      modify (set_iq (queue_set_slot (iq w) pair {| cobj := cobj e; p := P_item x |}))
  end.

(** Lines 169-172: [SEXP_deepcmp(pair->p.item, cached->item[i])] reads
    the slot anew in each round; the result is the value of [i] when the
    loop is left. *)
Fixpoint bucket_scan_at (pair : Z) (items : list Z) (i : Z) : M Z :=
  match items with
  | [] => ret i
  | c :: rest =>
      item <~ pair_p_item pair ;;
      w <~ get ;;
      match heap w !! item, heap w !! c with
      | Some it, Some stored =>
          if SEXP_deepcmp it stored then ret i
          else bucket_scan_at pair rest (i + 1)
      | _, _ => undefined
      end
  end.

(** Lines 135-221, as the worker runs them: every access to the entry
    goes through [pair]. *)
Definition worker_handle_at (pair : Z) : M worker_status :=
  c <~ pair_cobj pair ;;
  if c =? NULL then
    stop <~ (if assume_d_enabled
             then cond <~ pair_p_cond pair ;; ret (cond =? NULL)
             else ret false) ;;
    if (stop : bool) then ret W_return else
    cond <~ pair_p_cond pair ;;
    r <~ syscall (pthread_cond_signal (CV_at cond)) ;;
    if negb (r =? 0) then abort else ret W_continue
  else
    item <~ pair_p_item pair ;;
    w <~ get ;;
    match heap w !! item with
    | None => undefined
    | Some it =>
        let item_ID := SEXP_ID_v it in
        match tree w !! item_ID with
        | Some cached =>
            i <~ bucket_scan_at pair cached 0 ;;
            if i =? Z.of_nat (length cached) then
              if wrap16 (Z.of_nat (length cached) + 1) =? 0 then undefined
              else
                stored <~ pair_p_item pair ;;
                modify (fun w => set_tree (<[item_ID := cached ++ [stored]]> (tree w)) w) ;;;
                stamped <~ pair_p_item pair ;;
                probe_icache_item_setID stamped item_ID
            else
              match cached !! Z.to_nat i with
              | None => undefined
              | Some canonical =>
                  released <~ pair_p_item pair ;;
                  SEXP_free released ;;;
                  set_pair_p_item pair canonical
              end
        | None =>
            stored <~ pair_p_item pair ;;
            stamped <~ pair_p_item pair ;;
            probe_icache_item_setID stamped item_ID ;;;
            r <~ rbt_add item_ID [stored] ;;
            if negb (r =? 0) then
              emit (Ev_oscap_free_items [stored]) ;;;
              emit Ev_oscap_free_citem ;;;
              abort
            else ret tt
        end ;;;
        dest <~ pair_cobj pair ;;
        added <~ pair_p_item pair ;;
        r <~ cobj_add_item dest added ;;
        if negb (r =? 0) then ret W_return else ret W_continue
    end.

(** Lines 104-227: one pass from the label [next] to the re-lock. *)
Definition worker_next : M worker_status :=
  w <~ get ;;
  let pair := fst (queue_extract (iq w)) in
  modify (set_iq (snd (queue_extract (iq w)))) ;;;
  u <~ unlock_queue_mutex ;;
  if negb (u =? 0) then abort else
  s <~ syscall (pthread_cond_signal CV_notfull) ;;
  if negb (s =? 0) then abort else
  st <~ worker_handle_at pair ;;
  match st with
  | W_continue =>
      l <~ lock_queue_mutex ;;
      if negb (l =? 0) then ret W_return else ret W_continue
  | st => ret st
  end.

(** Lines 104-230: [goto next] as long as [queue_cnt > 0]. *)
Fixpoint worker_drain (fuel : nat) : M worker_status :=
  match fuel with
  | O => ret W_more
  | S fuel' =>
      st <~ worker_next ;;
      match st with
      | W_continue =>
          w <~ get ;;
          if 0 <? queue_cnt (iq w) then worker_drain fuel' else ret W_continue
      | _ => ret st
      end
  end.

(** Lines 102-233: the [while] loop on the [notempty] condition. *)
Fixpoint worker_loop (fuel : nat) : M worker_status :=
  match fuel with
  | O => ret W_more
  | S fuel' =>
      r <~ cond_wait CV_notempty ;;
      if negb (r =? 0) then ret W_return else
      w <~ get ;;
      if assume_d_enabled && negb (0 <? queue_cnt (iq w)) then ret W_return
      else
        st <~ worker_drain fuel ;;
        match st with
        | W_continue => worker_loop fuel'
        | _ => ret st
        end
  end.

Definition probe_icache_worker (fuel : nat) : M worker_status :=
  l <~ lock_queue_mutex ;;
  if negb (l =? 0) then ret W_return else worker_loop fuel.

(** Lines 287-315: the [retry] loop.  Every retry follows a wake-up,
    which takes an answer from the tape. *)
Fixpoint add_nolock_retry (fuel : nat) (dest item cond : Z) : M Z :=
  w <~ get ;;
  if queue_has_room (iq w) then
    modify (set_iq (queue_store (iq w) dest item cond)) ;;; ret 0
  else
    r <~ cond_wait CV_notfull ;;
    if r =? 0 then
      match fuel with
      | O => blocked
      | S fuel' => add_nolock_retry fuel' dest item cond
      end
    else ret (-1).

Definition __probe_icache_add_nolock (dest item cond : Z) : M Z :=
  if assume_d_enabled && negb (xorb (cond =? NULL) (item =? NULL)) then ret (-1)
  else
    w <~ get ;;
    add_nolock_retry (length (tape w)) dest item cond.

Definition probe_icache_add (cache dest item : Z) : M Z :=
  if (cache =? NULL) || (dest =? NULL) || (item =? NULL) then ret (-1) else
  l <~ lock_queue_mutex ;;
  if negb (l =? 0) then ret (-1) else
  r <~ __probe_icache_add_nolock dest item NULL ;;
  u <~ unlock_queue_mutex ;;
  if negb (u =? 0) then abort else
  if negb (r =? 0) then ret (-1) else
  s <~ syscall (pthread_cond_signal CV_notempty) ;;
  if negb (s =? 0) then ret (-1) else ret 0.

(** [cond] is the address of the local condition variable. *)
Definition probe_icache_nop (cache cond : Z) : M Z :=
  if cache =? NULL then undefined else
  l <~ lock_queue_mutex ;;
  if negb (l =? 0) then ret (-1) else
  i <~ syscall (pthread_cond_init cond) ;;
  if negb (i =? 0) then ret (-1) else
  a <~ __probe_icache_add_nolock NULL NULL cond ;;
  if negb (a =? 0) then
    u <~ unlock_queue_mutex ;;
    if negb (u =? 0) then abort else
    syscall (pthread_cond_destroy cond) ;;;
    ret (-1)
  else
    s <~ syscall (pthread_cond_signal CV_notempty) ;;
    if negb (s =? 0) then
      syscall (pthread_cond_destroy cond) ;;;
      ret (-1)
    else
      c <~ cond_wait (CV_at cond) ;;
      if negb (c =? 0) then ret (-1) else
      u <~ unlock_queue_mutex ;;
      if negb (u =? 0) then abort else
      syscall (pthread_cond_destroy cond) ;;;
      ret 0.

(** The fields of [struct probe_ctx] that [probe_item_collect] reads. *)
Record probe_ctx := mk_ctx {
  filters : Z;
  icache : Z;
  probe_out : Z
}.

Definition probe_item_collect (ctx : probe_ctx) (item : Z) : M Z :=
  rejected <~
    (if filters ctx =? NULL then ret false
     else
       w <~ get ;;
       match heap w !! item with
       | None => undefined
       | Some it => ret (probe_item_filtered it (filters ctx))
       end) ;;
  if (rejected : bool) then SEXP_free item ;;; ret 1
  else
    r <~ probe_icache_add (icache ctx) (probe_out ctx) item ;;
    if negb (r =? 0) then SEXP_free item ;;; ret (-1)
    else ret 0.

End Functions.

(** ** Reasoning about the monad

    [wp m Q E w]: running [m] from [w] either goes on with a value and a
    world that satisfy [Q], or stops (abort, blocked, undefined) in a
    world that satisfies [E]. *)

Definition final `{Collaborators} {A} (o : outcome A) : world :=
  match o with
  | Done _ w => w
  | Aborted w => w
  | Blocked w => w
  | Undefined w => w
  end.

Definition wp `{Collaborators} {A} (m : M A) (Q : A -> world -> Prop)
    (E : world -> Prop) (w : world) : Prop :=
  match m w with
  | Done a w' => Q a w'
  | Aborted w' => E w'
  | Blocked w' => E w'
  | Undefined w' => E w'
  end.

(** No call of the remaining run fails. *)
Definition calls_succeed `{Collaborators} (w : world) : Prop :=
  Forall (fun a => rc a = 0) (tape w).

(** How often [SEXP_free] was applied to [item] so far. *)
Fixpoint frees (item : Z) (t : list event) : nat :=
  match t with
  | [] => 0%nat
  | Ev_SEXP_free x :: t' => ((if (x =? item)%Z then 1 else 0) + frees item t')%nat
  | _ :: t' => frees item t'
  end.

(** ** A concrete instance

    Items whose content is a pair of a fingerprint and a payload; two
    items are deep-equal when both components agree; the filter rejects
    odd payloads. *)

Definition pair_collaborators : Collaborators :=
  {| content := Z * Z;
     SEXP_ID_v it := fst (body it);
     SEXP_deepcmp a b :=
       (fst (body a) =? fst (body b)) && (snd (body a) =? snd (body b));
     probe_item_filtered it _ := Z.odd (snd (body it)) |}.

Definition small_platform (atomic debug : bool) (capacity : Z) : Platform :=
  {| HAVE_ATOMIC_FUNCTIONS := atomic;
     assume_d_enabled := debug;
     PROBE_IQUEUE_CAPACITY := capacity;
     getpid := 42 |}.

Definition fresh_item (fingerprint payload : Z) : sexp_item (Z * Z) :=
  mk_item (fingerprint, payload) "".

(** Three live items; the first and the third are deep-equal, the second
    shares their fingerprint only. *)
Definition three_items : gmap Z (sexp_item (Z * Z)) :=
  <[101 := fresh_item 7 1]> (<[102 := fresh_item 7 2]> (<[103 := fresh_item 7 1]> ∅)).

(** [n] consecutive calls of the minting step of the stamping routine;
    the result lists the local IDs in the order they were obtained. *)
Fixpoint mint_calls `{Collaborators} `{Platform} (n : nat) : M (list Z) :=
  match n with
  | O => ret []
  | S n' =>
      ids <~ mint_calls n' ;;
      id <~ mint_local_id ;;
      ret (ids ++ [id])
  end.

(** The local ID of call number [k] (counted from 0) of a process. *)
Definition local_id_of_call (atomic : bool) (k : nat) : Z :=
  wrap32 (Z.of_nat k + (if atomic then 0 else 1)).

(** Submitting a list of items to one collected object, one call of
    [probe_icache_add] after the other; the result lists the return codes. *)
Fixpoint submit_all `{Collaborators} `{Platform} (cache dest : Z) (items : list Z)
  : M (list Z) :=
  match items with
  | [] => ret []
  | item :: rest =>
      r <~ probe_icache_add cache dest item ;;
      rs <~ submit_all cache dest rest ;;
      ret (r :: rs)
  end.

(** [k] stores in a row, as done by producers while the worker sleeps. *)
Fixpoint store_all (q : iqueue) (dest : Z) (items : list Z) : iqueue :=
  match items with
  | [] => q
  | item :: rest => store_all (queue_store q dest item NULL) dest rest
  end.

(** Five live items with one fingerprint and pairwise different payloads. *)
Definition five_items : gmap Z (sexp_item (Z * Z)) :=
  <[101 := fresh_item 7 1]> (<[102 := fresh_item 7 2]> (<[103 := fresh_item 7 3]>
  (<[104 := fresh_item 7 4]> (<[105 := fresh_item 7 5]> ∅)))).

(** The worker's data and the record of releases are as they were: what
    a producer may observe to be unchanged by the queue operations. *)
Definition store_untouched `{Collaborators} (w w' : world) : Prop :=
  heap w' = heap w /\ tree w' = tree w /\ cobjs w' = cobjs w
  /\ next_ID w' = next_ID w
  /\ forall x, frees x (trace w') = frees x (trace w).

(** [SEXP_free item] applied to a world. *)
Definition freed `{Collaborators} (item : Z) (w : world) : world :=
  log (Ev_SEXP_free item) (set_heap (delete item (heap w)) w).

(** The overfull queue of capacity 4: five submits were accepted while
    the worker slept. *)
Definition overfull_world (answers : list answer) : world :=
  let C := pair_collaborators in
  let P := small_platform true true 4 in
  set_tape answers
    (final (submit_all 1 50 [101; 102; 103; 104; 105] (new_world five_items []))).

(** From [w] to [w'] nothing changed but, possibly, the stamp of [item],
    the counter, the trace of calls and the tape. *)
Definition stamp_only `{Collaborators} (item : Z) (w w' : world) : Prop :=
  tree w' = tree w /\ cobjs w' = cobjs w /\ iq w' = iq w
  /\ (forall x, frees x (trace w') = frees x (trace w))
  /\ (forall it, heap w !! item = Some it ->
        exists s, heap w' !! item = Some (mk_item (body it) s))
  /\ (heap w !! item = None -> heap w' !! item = None)
  /\ (forall x, x <> item -> heap w' !! x = heap w !! x).

(** ** The tags of the queue entries *)

(** An entry has a null [cobj] exactly when it carries a non-null
    condition (a barrier), and a non-null [cobj] exactly when it carries
    a non-null item (an insert). *)
Definition well_tagged (e : iqpair) : Prop :=
  (cobj e = NULL <-> exists c, p e = P_cond c /\ c <> NULL)
  /\ (cobj e <> NULL <-> exists i, p e = P_item i /\ i <> NULL).

Definition queue_tagged (q : iqueue) : Prop :=
  forall (i : nat) (e : iqpair), queue q !! i = Some (Some e) -> well_tagged e.

Definition tagged `{Collaborators} (w : world) : Prop :=
  queue_tagged (iq w)
  /\ forall k b x, tree w !! k = Some b -> x ∈ b -> x <> NULL.

(** The states the producers reach from a new cache: submits, collects
    and barriers, under any answers of the environment and with other
    producers and the worker's extractions in between.  The barrier
    passes the address of a local variable, which is not null. *)
Inductive reachable `{Collaborators} `{Platform} : world -> Prop :=
| reach_new items answers :
    reachable (new_world items answers)
| reach_answers w answers :
    reachable w -> reachable (set_tape answers w)
| reach_add w cache dest item :
    reachable w -> reachable (final (probe_icache_add cache dest item w))
| reach_collect w ctx item :
    reachable w -> reachable (final (probe_item_collect ctx item w))
| reach_nop w cache cond :
    reachable w -> cond <> NULL ->
    reachable (final (probe_icache_nop cache cond w)).

(** ** Runs of the worker over a sequence of entries *)

(** The worker handles the entries in the given order; the result lists
    the entries as they are left in their slots. *)
Fixpoint worker_handle_all `{Collaborators} `{Platform} (entries : list iqpair)
  : M (list iqpair) :=
  match entries with
  | [] => ret []
  | e :: rest =>
      r <~ worker_handle e ;;
      match fst r with
      | W_continue =>
          rs <~ worker_handle_all rest ;;
          ret (snd r :: rs)
      | _ => ret [snd r]
      end
  end.

(** Insert entries for one collected object. *)
Definition inserts (dest : Z) (items : list Z) : list iqpair :=
  map (fun item => {| cobj := dest; p := P_item item |}) items.

(** What the cache expects of the S-expression library: the deep
    comparison is an equivalence, it and the identifier look at the
    content of an item and not at its id attribute, and items that
    compare equal have the same identifier. *)
Record lawful `{Collaborators} : Prop := {
  deepcmp_refl : forall a, SEXP_deepcmp a a = true;
  deepcmp_sym : forall a b, SEXP_deepcmp a b = SEXP_deepcmp b a;
  deepcmp_trans : forall a b c,
    SEXP_deepcmp a b = true -> SEXP_deepcmp b c = true -> SEXP_deepcmp a c = true;
  deepcmp_body : forall a a' b b',
    body a = body a' -> body b = body b' -> SEXP_deepcmp a b = SEXP_deepcmp a' b';
  ID_body : forall a a', body a = body a' -> SEXP_ID_v a = SEXP_ID_v a';
  ID_deepcmp : forall a b, SEXP_deepcmp a b = true -> SEXP_ID_v a = SEXP_ID_v b
}.

(** The effect of a hit on the world. *)
Definition hit_effect `{Collaborators} (dest item canonical : Z) (w w' : world) : Prop :=
  heap w' = delete item (heap w)
  /\ frees item (trace w') = S (frees item (trace w))
  /\ tree w' = tree w
  /\ next_ID w' = next_ID w
  /\ cobjs w' = <[dest := default [] (cobjs w !! dest) ++ [canonical]]> (cobjs w)
  /\ iq w' = iq w
  /\ calls_succeed w'.

(** The effect of a miss on the world: the bucket of the fingerprint
    (empty when the fingerprint is new) is extended by the item, which
    is stamped with the minted ID and appended to the destination. *)
Definition miss_effect `{Collaborators} `{Platform} (dest item : Z)
    (it : sexp_item content) (w w' : world) : Prop :=
  heap w' = <[item := mk_item (body it)
                (stamp_spec getpid (fst (mint HAVE_ATOMIC_FUNCTIONS (next_ID w))))]>
            (heap w)
  /\ (forall x, frees x (trace w') = frees x (trace w))
  /\ tree w' = <[SEXP_ID_v it := default [] (tree w !! SEXP_ID_v it) ++ [item]]> (tree w)
  /\ next_ID w' = snd (mint HAVE_ATOMIC_FUNCTIONS (next_ID w))
  /\ cobjs w' = <[dest := default [] (cobjs w !! dest) ++ [item]]> (cobjs w)
  /\ iq w' = iq w
  /\ calls_succeed w'.

(** How many of the submitted items have the fingerprint [f]. *)
Fixpoint count_fp `{Collaborators} (f : Z) (l : list (Z * sexp_item content)) : nat :=
  match l with
  | [] => 0%nat
  | pit :: l' =>
      ((if (SEXP_ID_v (snd pit) =? f)%Z then 1 else 0) + count_fp f l')%nat
  end.

(** The state of the cache after the worker handled the submitted items
    [done] (address and submitted value), [reps] being the items it
    appended for them, in order. *)
Record dedup_inv `{Collaborators} (w : world)
    (done : list (Z * sexp_item content)) (reps : list Z) : Prop := {
  inv_len : length reps = length done;
  inv_range : 0 <= next_ID w < 2 ^ 32;
  (** the stored items are live and filed under their fingerprint *)
  inv_live : forall f b c, tree w !! f = Some b -> c ∈ b ->
    exists itc, heap w !! c = Some itc /\ SEXP_ID_v itc = f;
  (** the items of one bucket are pairwise unequal *)
  inv_distinct : forall f b i j ci cj iti itj,
    tree w !! f = Some b -> b !! i = Some ci -> b !! j = Some cj ->
    heap w !! ci = Some iti -> heap w !! cj = Some itj ->
    SEXP_deepcmp iti itj = true -> i = j;
  inv_count : forall f b, tree w !! f = Some b ->
    (length b <= count_fp f done)%nat;
  (** the item appended for a submitted item is stored and equal to it *)
  inv_reps : forall k pit r, done !! k = Some pit -> reps !! k = Some r ->
    exists b itr, tree w !! SEXP_ID_v (snd pit) = Some b /\ r ∈ b
                  /\ heap w !! r = Some itr /\ SEXP_deepcmp (snd pit) itr = true;
  (** the stored items are submitted items *)
  inv_origin : forall f b c, tree w !! f = Some b -> c ∈ b -> c ∈ map fst done
}.

(** The stamps of the stored items: [canon] lists them in the order in
    which they were stamped, [n0] being the number of IDs the process
    had minted before the run. *)
Record stamp_inv `{Collaborators} `{Platform} (n0 : nat) (w : world)
    (done : list (Z * sexp_item content)) (canon : list Z) : Prop := {
  canon_next : next_ID w = Z.of_nat (n0 + length canon);
  canon_len : (length canon <= length done)%nat;
  canon_in : forall f b c, tree w !! f = Some b -> c ∈ b -> c ∈ canon;
  canon_origin : forall c, c ∈ canon -> c ∈ map fst done;
  canon_stamp : forall j c, canon !! j = Some c ->
    exists itc, heap w !! c = Some itc
                /\ stamp itc = stamp_spec getpid
                                 (local_id_of_call HAVE_ATOMIC_FUNCTIONS (n0 + j))
}.

(** ** More of the ring queue *)

(** The indices point into the array and the count is at most one above
    the capacity. *)
Definition queue_in_bounds (q : iqueue) : Prop :=
  length (queue q) = Z.to_nat (queue_max q)
  /\ 0 <= queue_beg q < queue_max q
  /\ 0 <= queue_end q < queue_max q
  /\ 0 <= queue_cnt q <= queue_max q + 1.

(** [n] extractions in a row, as done by the worker while no producer
    runs; the result lists the slots it read, in order. *)
Fixpoint extract_all (n : nat) (q : iqueue) : list (option iqpair) * iqueue :=
  match n with
  | O => ([], q)
  | S n' =>
      let r := extract_all n' (snd (queue_extract q)) in
      (queue_slot q (fst (queue_extract q)) :: fst r, snd r)
  end.

(** The queue holds the entries [live], oldest first, from the head on,
    and is not full. *)
Definition ring (q : iqueue) (live : list iqpair) : Prop :=
  length (queue q) = Z.to_nat (queue_max q)
  /\ queue_max q < 2 ^ 16
  /\ 0 <= queue_beg q < queue_max q
  /\ queue_cnt q = Z.of_nat (length live)
  /\ Z.of_nat (length live) < queue_max q
  /\ queue_end q = (queue_beg q + queue_cnt q) mod queue_max q
  /\ forall (j : nat) (e : iqpair), live !! j = Some e ->
       queue q !! Z.to_nat ((queue_beg q + Z.of_nat j) mod queue_max q)
       = Some (Some e).

(** The item at [x] is as it was and has not been released since. *)
Definition item_kept `{Collaborators} (x : Z) (w w' : world) : Prop :=
  heap w' !! x = heap w !! x /\ frees x (trace w') = frees x (trace w).

(** ** Creating and destroying the cache *)

(** The calls that set up and tear down the cache; they are recorded
    apart from the trace of the running cache. *)
Inductive lifecycle :=
| L_rbt_i64_new
| L_mutex_init
| L_cond_init (cv : condvar)
| L_pthread_create
| L_rbt_i64_free
| L_mutex_destroy
| L_cond_destroy (cv : condvar)
| L_pthread_cancel
| L_pthread_join
| L_rbt_i64_free_cb
| L_oscap_free_cache.

(** Lines 431-434 of [probe_icache_free_node]: the items of the bucket
    are released from the last to the first. *)
Fixpoint free_items_down `{Collaborators} (items : list Z) (count : nat) : M unit :=
  match count with
  | O => ret tt
  | S c =>
      match items !! c with
      | None => undefined
      | Some x => SEXP_free x ;;; free_items_down items c
      end
  end.

Definition probe_icache_free_node `{Collaborators} (items : list Z) : M unit :=
  free_items_down items (length items) ;;;
  emit (Ev_oscap_free_items items).

(** Modelled from the spec: [iterate_and_free(visitor)] of the Dedup
    Index ([rbt_i64_free_cb] is not part of icache.c): the callback is
    applied to every node, then the tree is gone.  The nodes are visited
    in the order of [map_to_list]. *)
Fixpoint visit_nodes `{Collaborators} (cb : list Z -> M unit)
    (nodes : list (Z * list Z)) : M unit :=
  match nodes with
  | [] => ret tt
  | n :: rest => cb (snd n) ;;; visit_nodes cb rest
  end.

Definition rbt_free_cb `{Collaborators} (cb : list Z -> M unit) : M unit :=
  w <~ get ;;
  visit_nodes cb (map_to_list (tree w)) ;;;
  modify (set_tree ∅).

(** Lines 440-453.  The result lists the teardown calls in order. *)
Definition probe_icache_free `{Collaborators} : M (list lifecycle) :=
  rbt_free_cb probe_icache_free_node ;;;
  ret [L_pthread_cancel; L_pthread_join; L_mutex_destroy;
       L_cond_destroy CV_notempty; L_cond_destroy CV_notfull;
       L_rbt_i64_free_cb; L_oscap_free_cache].

(** How often [x] occurs in a list of addresses. *)
Fixpoint occurs (x : Z) (l : list Z) : nat :=
  match l with
  | [] => 0%nat
  | y :: l' => ((if (y =? x)%Z then 1 else 0) + occurs x l')%nat
  end.

(** All stored items of the tree, node by node. *)
Definition stored_items `{Collaborators} (w : world) : list Z :=
  concat (map snd (map_to_list (tree w))).

(** Lines 236-282: [probe_icache_new].  [answers] are the results of
    [rbt_i64_new] (the address of the tree), [pthread_mutex_init], the two
    [pthread_cond_init] and [pthread_create], as far as they are
    reached.  The result is the queue of the new cache with the flag
    that its tree is not null, or [None] for a null return, and the
    calls made. *)
Definition probe_icache_new `{Platform} (answers : list Z)
  : option (iqueue * bool) * list lifecycle :=
  let answer n := nth n answers 0 in
  let has_tree := negb (answer 0%nat =? NULL) in
  let fail (made : list lifecycle) :=
    (None,
     made ++ (if has_tree then [L_rbt_i64_free] else [])
          ++ [L_mutex_destroy; L_cond_destroy CV_notempty; L_oscap_free_cache]) in
  if negb (answer 1%nat =? 0) then fail [L_rbt_i64_new; L_mutex_init]
  else if negb (answer 2%nat =? 0) then
    fail [L_rbt_i64_new; L_mutex_init; L_cond_init CV_notempty]
  else if negb (answer 3%nat =? 0) then
    fail [L_rbt_i64_new; L_mutex_init; L_cond_init CV_notempty;
          L_cond_init CV_notfull]
  else if negb (answer 4%nat =? 0) then
    fail [L_rbt_i64_new; L_mutex_init; L_cond_init CV_notempty;
          L_cond_init CV_notfull; L_pthread_create]
  else
    (Some (new_queue PROBE_IQUEUE_CAPACITY, has_tree),
     [L_rbt_i64_new; L_mutex_init; L_cond_init CV_notempty;
      L_cond_init CV_notfull; L_pthread_create]).

(** From [w] to [w'] exactly the items of [l] were released, each as
    often as it occurs in [l]; the tree is as it was. *)
Definition released `{Collaborators} (l : list Z) (w w' : world) : Prop :=
  (forall x, frees x (trace w') = (frees x (trace w) + occurs x l)%nat)
  /\ (forall x, x ∈ l -> heap w' !! x = None)
  /\ (forall x, x ∉ l -> heap w' !! x = heap w !! x)
  /\ tree w' = tree w.

(** Some bucket of the tree stores [x]. *)
Definition stored `{Collaborators} (x : Z) (w : world) : Prop :=
  exists f b, tree w !! f = Some b /\ x ∈ b.

(** Since [w0] the cache has released none of the items it stores, has
    released once each handled item of [done] that it does not store,
    and has released no other item. *)
Record release_inv `{Collaborators} (w0 w : world) (done : list Z) : Prop := {
  rel_done : forall x, x ∈ done ->
    (stored x w /\ frees x (trace w) = frees x (trace w0))
    \/ (~ stored x w /\ heap w !! x = None
        /\ frees x (trace w) = S (frees x (trace w0)));
  rel_other : forall x, x ∉ done -> frees x (trace w) = frees x (trace w0)
}.

(** ** Reading a stamp back *)

(** The value of a field of exactly five decimal digits. *)
Definition pid_field (s : string) : option Z :=
  match s with
  | String a (String b (String c (String d (String e EmptyString)))) =>
      match digit_of_ascii a, digit_of_ascii b, digit_of_ascii c,
            digit_of_ascii d, digit_of_ascii e with
      | Some a, Some b, Some c, Some d, Some e =>
          Some (10000 * Z.of_nat a + 1000 * Z.of_nat b + 100 * Z.of_nat c
                + 10 * Z.of_nat d + Z.of_nat e)
      | _, _, _, _, _ => None
      end
  | _ => None
  end.

(** The process field of the stamp of [pid] reads back as [pid]. *)
Definition pid_field_ok (pid : Z) : bool :=
  match pid_field (pad_left "0"%char 5 (decimal pid)) with
  | Some v => v =? pid
  | None => false
  end.

(** The same for the [n] identifiers from [pid] on. *)
Fixpoint pid_fields_ok (n : nat) (pid : Z) : bool :=
  match n with
  | O => true
  | S n' => pid_field_ok pid && pid_fields_ok n' (pid + 1)
  end.

(** ** The worker when no other thread runs *)

(** The queue and the schedule are as they were. *)
Definition same_queue `{Collaborators} (w w' : world) : Prop :=
  iq w' = iq w /\ sched w' = sched w.

(** One pass of the worker, from the label [next] to the re-lock, on an
    entry that no other thread touches: the entry is the one in the slot
    at the head, [worker_handle] handles it, and the entry it leaves is
    the content of the slot afterwards. *)
Definition worker_next_alone `{Collaborators} `{Platform} : M worker_status :=
  w <~ get ;;
  modify (set_iq (snd (queue_extract (iq w)))) ;;;
  u <~ unlock_queue_mutex ;;
  if negb (u =? 0) then abort else
  s <~ syscall (pthread_cond_signal CV_notfull) ;;
  if negb (s =? 0) then abort else
  match queue_slot (iq w) (fst (queue_extract (iq w))) with
  | None => undefined
  | Some entry =>
      r <~ worker_handle entry ;;
      modify (fun w' => set_iq (queue_set_slot (iq w') (fst (queue_extract (iq w))) (snd r)) w') ;;;
      match fst r with
      | W_continue =>
          l <~ lock_queue_mutex ;;
          if negb (l =? 0) then ret W_return else ret W_continue
      | st => ret st
      end
  end.

(** * Properties *)

(** ** Rules for [wp] *)

Section WpRules.
Context `{Collaborators}.
Context {A B : Type}.
Implicit Types (Q : A -> world -> Prop) (E : world -> Prop) (w : world).

Lemma wp_ret (a : A) Q E w : Q a w -> wp (ret a) Q E w.
Proof. intros HQ. exact HQ. Qed.

Lemma wp_bind (m : M B) (k : B -> M A) Q E w :
  wp m (fun b w' => wp (k b) Q E w') E w -> wp (bind m k) Q E w.
Proof.
  unfold wp, bind. destruct (m w); auto.
Qed.

Lemma wp_mono (m : M A) Q Q' E E' w :
  wp m Q E w ->
  (forall a w', Q a w' -> Q' a w') -> (forall w', E w' -> E' w') ->
  wp m Q' E' w.
Proof.
  unfold wp. intros Hwp HQ HE. destruct (m w); auto.
Qed.

Lemma wp_abort Q E w : E (log Ev_abort w) -> wp abort Q E w.
Proof. intros HE. exact HE. Qed.

Lemma wp_undefined Q E w : E w -> wp undefined Q E w.
Proof. intros HE. exact HE. Qed.

Lemma wp_blocked Q E w : E w -> wp blocked Q E w.
Proof. intros HE. exact HE. Qed.

Lemma wp_trivial (m : M A) w : wp m (fun _ _ => True) (fun _ => True) w.
Proof. unfold wp. now destruct (m w). Qed.

Lemma wp_done (m : M A) Q w :
  wp m Q (fun _ => False) w -> exists a w', m w = Done a w' /\ Q a w'.
Proof. unfold wp. destruct (m w) as [a w'| | |]; [eauto | contradiction ..]. Qed.

Lemma wp_final (m : M A) (R : world -> Prop) w :
  wp m (fun _ w' => R w') R w <-> R (final (m w)).
Proof. unfold wp, final. destruct (m w); tauto. Qed.

End WpRules.

Section WpPrimitives.
Context `{Collaborators}.
Implicit Types (E : world -> Prop) (w : world).

Lemma wp_get (Q : world -> world -> Prop) E w : Q w w -> wp get Q E w.
Proof. intros HQ. exact HQ. Qed.

Lemma wp_modify f (Q : unit -> world -> Prop) E w :
  Q tt (f w) -> wp (modify f) Q E w.
Proof. intros HQ. exact HQ. Qed.

Lemma wp_emit e (Q : unit -> world -> Prop) E w :
  Q tt (log e w) -> wp (emit e) Q E w.
Proof. intros HQ. exact HQ. Qed.

Lemma wp_syscall c (Q : Z -> world -> Prop) E w :
  Q (rc (next_answer w)) (log (Ev_call c (rc (next_answer w))) (pop_tape w)) ->
  wp (syscall c) Q E w.
Proof. intros HQ. exact HQ. Qed.

Lemma wp_lock (Q : Z -> world -> Prop) E w :
  (let a := next_answer w in
   Q (rc a)
     (log (Ev_call (pthread_mutex_lock MX_queue) (rc a))
        (set_holds (if rc a =? 0 then true else holds_queue_mutex w)
           (yield a (pop_tape w))))) ->
  wp lock_queue_mutex Q E w.
Proof. intros HQ. exact HQ. Qed.

Lemma wp_unlock (Q : Z -> world -> Prop) E w :
  (let a := next_answer w in
   Q (rc a)
     (log (Ev_call (pthread_mutex_unlock MX_queue) (rc a))
        (set_holds (if rc a =? 0 then false else holds_queue_mutex w)
           (pop_tape w)))) ->
  wp unlock_queue_mutex Q E w.
Proof. intros HQ. exact HQ. Qed.

Lemma wp_cond_wait cv (Q : Z -> world -> Prop) E w :
  (tape w = [] -> E w) ->
  (forall a t, tape w = a :: t ->
     Q (rc a) (log (Ev_call (pthread_cond_wait cv) (rc a)) (yield a (pop_tape w)))) ->
  wp (cond_wait cv) Q E w.
Proof.
  intros HE HQ. unfold wp, cond_wait.
  destruct (tape w) as [|a t] eqn:Ht; [now apply HE | now apply (HQ a t)].
Qed.

End WpPrimitives.

(** Reading a field through the setters. *)
Ltac world_simpl :=
  unfold next_answer, pop_tape, yield, log in *;
  cbn [iq tree heap cobjs next_ID holds_queue_mutex trace tape
       set_iq set_tree set_heap set_cobjs set_next_ID set_holds set_trace
       set_tape log pop_tape yield next_answer hd tl rc others ok failure] in *.

(** One step of a run whose branch is known. *)
Ltac wp_run :=
  lazymatch goal with
  | |- wp (bind _ _) _ _ _ => apply wp_bind
  | |- wp (ret _) _ _ _ => apply wp_ret
  | |- wp get _ _ _ => apply wp_get
  | |- wp (modify _) _ _ _ => apply wp_modify
  | |- wp (emit _) _ _ _ => apply wp_emit
  | |- wp (syscall _) _ _ _ => apply wp_syscall
  | |- wp lock_queue_mutex _ _ _ => apply wp_lock; cbv zeta
  | |- wp unlock_queue_mutex _ _ _ => apply wp_unlock; cbv zeta
  | |- wp abort _ _ _ => apply wp_abort
  | |- wp undefined _ _ _ => apply wp_undefined
  | |- wp blocked _ _ _ => apply wp_blocked
  end; cbv beta; world_simpl.

Lemma frees_app (x : Z) (t1 t2 : list event) :
  frees x (t1 ++ t2) = (frees x t1 + frees x t2)%nat.
Proof.
  induction t1 as [|e t1 IH]; [reflexivity|].
  destruct e; cbn [app frees]; rewrite ?IH; lia.
Qed.

(** ** The stamp *)

Lemma parse_uniq_id_format :
  parse_format None uniq_id_format
  = Some [D_lit "1"%char; D_uint true 5; D_uint false 0].
Proof. reflexivity. Qed.

Lemma append_empty_r (s : string) : String.append s EmptyString = s.
Proof.
  induction s as [|c s IH]; [reflexivity|].
  change (String c (String.append s EmptyString) = String c s).
  now rewrite IH.
Qed.

Lemma uniq_id_spec (pid local_id : Z) :
  uniq_id pid local_id = Some (stamp_spec (wrap32 pid) (wrap32 local_id)).
Proof.
  unfold uniq_id, SEXP_string_newf. rewrite parse_uniq_id_format.
  unfold stamp_spec, render, render_uint, option_map.
  unfold pad_left at 2. rewrite Nat.sub_0_l. simpl repeat_char.
  rewrite append_empty_r. reflexivity.
Qed.

Lemma wrap32_small (z : Z) : 0 <= z < 2 ^ 32 -> wrap32 z = z.
Proof. intros Hz. unfold wrap32. now apply Z.mod_small. Qed.

Lemma wrap32_range (z : Z) : 0 <= wrap32 z < 2 ^ 32.
Proof. unfold wrap32. apply Z.mod_pos_bound. lia. Qed.

Lemma mint_local_range (atomic : bool) (n : Z) :
  0 <= n < 2 ^ 32 -> 0 <= fst (mint atomic n) < 2 ^ 32.
Proof.
  intros Hn. unfold mint. destruct atomic; simpl; [exact Hn | apply wrap32_range].
Qed.

Lemma mint_next_range (atomic : bool) (n : Z) :
  0 <= snd (mint atomic n) < 2 ^ 32.
Proof. unfold mint. destruct atomic; simpl; apply wrap32_range. Qed.

Section Stamping.
Context `{Collaborators} `{Platform}.

Lemma calls_succeed_next (w : world) : calls_succeed w -> rc (next_answer w) = 0.
Proof.
  unfold calls_succeed, next_answer. destruct (tape w) as [|a t]; [reflexivity|].
  intros Hall. simpl. now inversion Hall.
Qed.

Lemma calls_succeed_tl (w : world) :
  calls_succeed w -> Forall (fun a => rc a = 0) (tl (tape w)).
Proof.
  unfold calls_succeed. destruct (tape w) as [|a t]; simpl; [auto|].
  intros Hall. now inversion Hall.
Qed.

(** What the stamping routine does to the world: the item gets the
    formatted stamp and the counter advances; it stops only by [abort()]
    after a failed mutex call, and then no item was touched. *)
Lemma setID_wp (w : world) (item item_ID : Z) (it : sexp_item content) :
  item <> NULL ->
  heap w !! item = Some it ->
  0 <= next_ID w < 2 ^ 32 ->
  0 <= getpid < 2 ^ 32 ->
  wp (probe_icache_item_setID item item_ID)
     (fun _ w' =>
        heap w' = <[item := mk_item (body it)
                     (stamp_spec getpid (fst (mint HAVE_ATOMIC_FUNCTIONS (next_ID w))))]>
                  (heap w)
        /\ next_ID w' = snd (mint HAVE_ATOMIC_FUNCTIONS (next_ID w))
        /\ tree w' = tree w /\ cobjs w' = cobjs w /\ iq w' = iq w
        /\ (calls_succeed w -> calls_succeed w')
        /\ (forall x, frees x (trace w') = frees x (trace w)))
     (fun w' => ~ calls_succeed w /\ heap w' = heap w)
     w.
Proof.
  intros Hnn Hit Hid Hpid.
  unfold probe_icache_item_setID.
  replace (item =? NULL) with false by (symmetry; apply Z.eqb_neq; exact Hnn).
  rewrite andb_false_r.
  assert (Hfmt : forall v, uniq_id getpid (fst (mint v (next_ID w)))
                 = Some (stamp_spec getpid (fst (mint v (next_ID w))))).
  { intros v. rewrite uniq_id_spec.
    rewrite (wrap32_small getpid) by exact Hpid.
    rewrite wrap32_small by (apply mint_local_range; exact Hid). reflexivity. }
  apply wp_bind. unfold mint_local_id.
  destruct HAVE_ATOMIC_FUNCTIONS.
  - apply wp_bind, wp_get, wp_bind, wp_modify, wp_ret.
    cbv beta. rewrite Hfmt. unfold wp, SEXP_list_replace_id. simpl. rewrite Hit.
    simpl. repeat split; auto.
  - apply wp_bind, wp_syscall.
    destruct (rc (next_answer w) =? 0) eqn:Hl; cbn [negb].
    + apply wp_bind, wp_get, wp_bind, wp_modify, wp_bind, wp_syscall.
      match goal with |- context [negb (?c =? 0)] => destruct (c =? 0) eqn:Hu end; cbn [negb].
      * apply wp_ret. cbn [next_ID log pop_tape set_trace set_tape set_next_ID].
        rewrite Hfmt.
        unfold wp, SEXP_list_replace_id. simpl. rewrite Hit. simpl.
        repeat split; auto.
        -- intros Hok. unfold calls_succeed. simpl.
           apply calls_succeed_tl in Hok. simpl in Hok.
           destruct (tl (tape w)); simpl; [constructor | now inversion Hok].
        -- intros x. rewrite !frees_app. simpl. lia.
      * apply wp_abort. simpl. split; [|reflexivity].
        intros Hok. apply calls_succeed_tl in Hok.
        apply Z.eqb_neq in Hu. apply Hu.
        unfold next_answer, pop_tape. simpl.
        destruct (tl (tape w)); simpl; [reflexivity | now inversion Hok].
    + apply wp_abort. simpl. split; [|reflexivity].
      intros Hok. apply calls_succeed_next in Hok. apply Z.eqb_neq in Hl. auto.
Qed.

(** C4.  Every stamp the stamping routine writes into an item is the
    prefix "1", followed by the process identifier zero-padded to five
    digits, followed by the minted counter value in plain decimal; and
    the routine does write it whenever no mutex call fails. *)
Theorem setID_stamp_format (w : world) (item item_ID : Z) (it : sexp_item content) :
  item <> NULL ->
  heap w !! item = Some it ->
  0 <= next_ID w < 2 ^ 32 ->
  0 <= getpid < 2 ^ 32 ->
  (forall w', probe_icache_item_setID item item_ID w = Done tt w' ->
     heap w' !! item
     = Some (mk_item (body it)
               (String.append "1"
                  (String.append (pad_left "0"%char 5 (decimal getpid))
                     (decimal (fst (mint HAVE_ATOMIC_FUNCTIONS (next_ID w))))))))
  /\ (calls_succeed w ->
      exists w', probe_icache_item_setID item item_ID w = Done tt w').
Proof.
  intros Hnn Hit Hid Hpid.
  pose proof (setID_wp w item item_ID it Hnn Hit Hid Hpid) as Hwp.
  unfold wp in Hwp. split.
  - intros w' Hrun. rewrite Hrun in Hwp. destruct Hwp as (Hheap & _).
    rewrite Hheap, lookup_insert_eq. reflexivity.
  - intros Hok. destruct (probe_icache_item_setID item item_ID w) as [[] w'| | |];
      [now exists w' | destruct Hwp as [Hno _]; contradiction ..].
Qed.

Lemma mint_local_id_ok (w : world) :
  calls_succeed w ->
  exists w', mint_local_id w = Done (fst (mint HAVE_ATOMIC_FUNCTIONS (next_ID w))) w'
             /\ next_ID w' = snd (mint HAVE_ATOMIC_FUNCTIONS (next_ID w))
             /\ calls_succeed w'.
Proof.
  intros Hok. unfold mint_local_id.
  destruct HAVE_ATOMIC_FUNCTIONS.
  - eexists. split; [reflexivity|]. split; [reflexivity | exact Hok].
  - unfold bind, syscall, get, modify, ret.
    rewrite (calls_succeed_next w Hok). cbn [Z.eqb negb].
    assert (Hok' : Forall (fun a => rc a = 0) (tl (tl (tape w)))).
    { apply calls_succeed_tl in Hok. destruct (tl (tape w)); simpl; [constructor|].
      now inversion Hok. }
    assert (Hrc : rc (hd ok (tl (tape w))) = 0).
    { apply calls_succeed_tl in Hok. destruct (tl (tape w)); simpl; [reflexivity|].
      now inversion Hok. }
    unfold next_answer, pop_tape. cbn [tape log set_trace set_tape set_next_ID].
    rewrite Hrc. cbn [Z.eqb negb].
    eexists. split; [reflexivity|]. split; [reflexivity | exact Hok'].
Qed.

Lemma mint_calls_ok (n : nat) (w : world) :
  next_ID w = 0 ->
  calls_succeed w ->
  exists w',
    mint_calls n w
    = Done (map (local_id_of_call HAVE_ATOMIC_FUNCTIONS) (seq 0 n)) w'
    /\ next_ID w' = wrap32 (Z.of_nat n)
    /\ calls_succeed w'.
Proof.
  intros Hz Hok. induction n as [|n IH].
  - exists w. split; [reflexivity|]. split; [|exact Hok].
    rewrite Hz. reflexivity.
  - destruct IH as (w1 & Hrun & Hnext & Hok1).
    destruct (mint_local_id_ok w1 Hok1) as (w2 & Hmint & Hnext2 & Hok2).
    exists w2. split; [|split; [|exact Hok2]].
    + cbn [mint_calls]. unfold bind. rewrite Hrun, Hmint. unfold ret.
      f_equal. rewrite seq_S, map_app. cbn [map]. f_equal. f_equal.
      rewrite Hnext. unfold local_id_of_call, mint.
      destruct HAVE_ATOMIC_FUNCTIONS; cbn [fst].
      * now rewrite Z.add_0_r.
      * unfold wrap32. now rewrite Zplus_mod_idemp_l.
    + rewrite Hnext2, Hnext. unfold mint.
      replace (Z.of_nat (S n)) with (Z.of_nat n + 1) by lia.
      destruct HAVE_ATOMIC_FUNCTIONS; cbn [snd];
        unfold wrap32; now rewrite Zplus_mod_idemp_l.
Qed.

(** C5 (as amended).  The two variants of the minting step are not
    interchangeable: call number [k] (counted from 0) of a process
    obtains [k mod 2^32] on the fetch-and-add path and [(k+1) mod 2^32]
    on the mutex path, so the mutex path runs one ahead of the atomic
    path; on either path the value grows by one per call while it stays
    below [2^32]. *)
Theorem mint_variants_offset (n : nat) (w : world) :
  next_ID w = 0 ->
  calls_succeed w ->
  (exists w',
     mint_calls n w
     = Done (map (fun k => wrap32 (Z.of_nat k + (if HAVE_ATOMIC_FUNCTIONS then 0 else 1)))
               (seq 0 n)) w')
  /\ (forall k, Z.of_nat k + 2 < 2 ^ 32 ->
        local_id_of_call false k = local_id_of_call true (S k)
        /\ local_id_of_call HAVE_ATOMIC_FUNCTIONS (S k)
           = local_id_of_call HAVE_ATOMIC_FUNCTIONS k + 1).
Proof.
  intros Hz Hok. split.
  - destruct (mint_calls_ok n w Hz Hok) as (w' & Hrun & _).
    exists w'. exact Hrun.
  - intros k Hk. unfold local_id_of_call. split.
    + f_equal. lia.
    + destruct HAVE_ATOMIC_FUNCTIONS; rewrite !wrap32_small; lia.
Qed.

End Stamping.

(** C4, at a concrete item: process 42 stamps its first item "1000420"
    on the fetch-and-add path. *)
Lemma setID_stamp_format_witness :
  let C := pair_collaborators in
  let P := small_platform true true 4 in
  let w := new_world three_items [] in
  (101 <> NULL /\ heap w !! 101 = Some (fresh_item 7 1)
   /\ 0 <= next_ID w < 2 ^ 32 /\ 0 <= getpid < 2 ^ 32)
  /\ (forall w', probe_icache_item_setID 101 7 w = Done tt w' ->
        heap w' !! 101 = Some (mk_item (7, 1) "1000420"))
  /\ (calls_succeed w ->
        exists w', probe_icache_item_setID 101 7 w = Done tt w').
Proof.
  intros C P w.
  assert (H1 : 101 <> NULL) by (unfold NULL; lia).
  assert (H2 : heap w !! 101 = Some (fresh_item 7 1)) by reflexivity.
  assert (H3 : 0 <= next_ID w < 2 ^ 32) by (simpl; lia).
  assert (H4 : 0 <= getpid < 2 ^ 32) by (simpl; lia).
  split; [auto|].
  exact (@setID_stamp_format C P w 101 7 (fresh_item 7 1) H1 H2 H3 H4).
Defined.

(** C5: the first call already tells the two variants apart. *)
Lemma mint_variants_first_call_differs :
  let C := pair_collaborators in
  let atomic := small_platform true true 4 in
  let locked := small_platform false true 4 in
  (exists w', @mint_calls C atomic 1 (@new_world C atomic ∅ []) = Done [0] w')
  /\ (exists w', @mint_calls C locked 1 (@new_world C locked ∅ []) = Done [1] w').
Proof. split; eexists; reflexivity. Qed.

Lemma mint_variants_offset_witness :
  let C := pair_collaborators in
  let P := small_platform false true 4 in
  let w := new_world ∅ [] in
  (next_ID w = 0 /\ calls_succeed w)
  /\ (exists w', mint_calls 3 w = Done [1; 2; 3] w')
  /\ (forall k, Z.of_nat k + 2 < 2 ^ 32 ->
        local_id_of_call false k = local_id_of_call true (S k)
        /\ local_id_of_call HAVE_ATOMIC_FUNCTIONS (S k)
           = local_id_of_call HAVE_ATOMIC_FUNCTIONS k + 1).
Proof.
  intros C P w.
  assert (H1 : next_ID w = 0) by reflexivity.
  assert (H2 : calls_succeed w) by constructor.
  split; [auto|].
  exact (@mint_variants_offset C P 3 w H1 H2).
Defined.

(** ** The ring queue *)

Lemma wrap16_small (z : Z) : 0 <= z < 2 ^ 16 -> wrap16 z = z.
Proof. intros Hz. unfold wrap16. now apply Z.mod_small. Qed.

Lemma wrap16_range (z : Z) : 0 <= wrap16 z < 2 ^ 16.
Proof. unfold wrap16. apply Z.mod_pos_bound. lia. Qed.

(** The test of line 288 lets a store through when the queue already
    holds [queue_max] entries. *)
Lemma queue_has_room_when_full (q : iqueue) :
  queue_cnt q = queue_max q -> queue_has_room q = true.
Proof. intros Hfull. unfold queue_has_room. apply Z.leb_le. lia. Qed.

Lemma queue_store_when_full (q : iqueue) (dest item cond : Z) :
  queue_cnt q = queue_max q -> 0 <= queue_max q < 2 ^ 16 - 1 ->
  queue_cnt (queue_store q dest item cond) = queue_max q + 1.
Proof.
  intros Hfull Hmax. unfold queue_store; simpl. rewrite Hfull.
  apply wrap16_small. lia.
Qed.

(** Filling a new queue: after [k <= capacity] stores the count is [k],
    the head is still 0 and the tail is [k] modulo the capacity. *)
Lemma store_all_new_queue (capacity dest : Z) (items : list Z) :
  1 <= capacity < 2 ^ 16 ->
  Z.of_nat (length items) <= capacity ->
  let q := store_all (new_queue capacity) dest items in
  queue_cnt q = Z.of_nat (length items)
  /\ queue_beg q = 0
  /\ queue_end q = Z.of_nat (length items) mod capacity
  /\ queue_max q = capacity.
Proof.
  intros Hcap.
  assert (Hgen : forall items q,
    queue_max q = capacity -> queue_beg q = 0 ->
    0 <= queue_cnt q -> queue_cnt q + Z.of_nat (length items) <= capacity ->
    queue_end q = queue_cnt q mod capacity ->
    let q' := store_all q dest items in
    queue_cnt q' = queue_cnt q + Z.of_nat (length items)
    /\ queue_beg q' = 0
    /\ queue_end q' = (queue_cnt q + Z.of_nat (length items)) mod capacity
    /\ queue_max q' = capacity).
  { clear items. induction items as [|i rest IH]; intros q Hmax Hbeg Hcnt Hlen Hend.
    - simpl. rewrite Z.add_0_r. auto.
    - cbn [store_all]. cbn [length] in Hlen |- *.
      assert (Hlt : queue_cnt q < capacity) by lia.
      assert (Hend' : queue_end q = queue_cnt q)
        by (rewrite Hend; apply Z.mod_small; lia).
      specialize (IH (queue_store q dest i NULL)).
      cbn [queue_store queue_max queue_beg queue_cnt queue_end] in IH.
      rewrite (wrap16_small (queue_cnt q + 1)) in IH by lia.
      replace (queue_cnt q + Z.of_nat (S (length rest)))
        with (queue_cnt q + 1 + Z.of_nat (length rest)) by lia.
      apply IH; try assumption; try lia.
      rewrite Hend', Hmax.
      destruct (queue_cnt q + 1 =? capacity) eqn:Hwrap.
      + apply Z.eqb_eq in Hwrap. rewrite Hwrap. now rewrite Z_mod_same_full.
      + apply Z.eqb_neq in Hwrap.
        rewrite wrap16_small by lia. symmetry. apply Z.mod_small. lia. }
  intros Hlen q.
  assert (Hend0 : queue_end (new_queue capacity)
                  = queue_cnt (new_queue capacity) mod capacity)
    by (cbn [new_queue queue_end queue_cnt]; rewrite Z.mod_0_l; lia).
  destruct (Hgen items (new_queue capacity) eq_refl eq_refl) as (H1 & H2 & H3 & H4);
    [cbn [new_queue queue_cnt]; lia .. | exact Hend0 |].
  cbn [new_queue queue_cnt] in H1, H3. rewrite Z.add_0_l in H1, H3. auto.
Qed.

(** With as many stores as the capacity the queue is full, head and
    tail coincide, and one more store is still accepted. *)
Lemma full_queue_accepts_store (capacity dest : Z) (items : list Z) (extra : Z) :
  1 <= capacity < 2 ^ 16 - 1 ->
  Z.of_nat (length items) = capacity ->
  let q := store_all (new_queue capacity) dest items in
  queue_end q = queue_beg q
  /\ queue_has_room q = true
  /\ queue_cnt (queue_store q dest extra NULL) = capacity + 1.
Proof.
  intros Hcap Hlen q.
  destruct (store_all_new_queue capacity dest items) as (Hc & Hb & He & Hm);
    [lia | lia |].
  fold q in Hc, Hb, He, Hm. rewrite Hlen in Hc, He.
  rewrite Z_mod_same_full in He.
  split; [congruence|]. split.
  - apply queue_has_room_when_full. congruence.
  - rewrite queue_store_when_full; [congruence | congruence | lia].
Qed.

(** The extraction of lines 109-116 leaves the head where it is when
    head and tail coincide, which is the case for a full queue. *)
Lemma queue_extract_head_kept (q : iqueue) :
  queue_end q = queue_beg q ->
  queue_beg (snd (queue_extract q)) = queue_beg q
  /\ fst (queue_extract (snd (queue_extract q))) = fst (queue_extract q).
Proof.
  intros Heq. unfold queue_extract; simpl.
  rewrite Heq, Z.eqb_refl. auto.
Qed.

(** Away from that case the extraction is the one of a ring buffer. *)
Lemma queue_extract_advances (q : iqueue) :
  queue_end q <> queue_beg q ->
  0 <= queue_beg q < queue_max q -> queue_max q < 2 ^ 16 ->
  1 <= queue_cnt q < 2 ^ 16 ->
  fst (queue_extract q) = queue_beg q
  /\ queue_cnt (snd (queue_extract q)) = queue_cnt q - 1
  /\ queue_beg (snd (queue_extract q)) = (queue_beg q + 1) mod queue_max q.
Proof.
  intros Hne Hbeg Hmax Hcnt. unfold queue_extract; simpl.
  split; [reflexivity|]. split; [apply wrap16_small; lia|].
  destruct (queue_end q =? queue_beg q) eqn:He; [apply Z.eqb_eq in He; contradiction|].
  rewrite (wrap16_small (queue_beg q + 1)) by lia.
  destruct (queue_beg q + 1 =? queue_max q) eqn:Hw.
  - apply Z.eqb_eq in Hw. rewrite Hw. now rewrite Z_mod_same_full.
  - apply Z.eqb_neq in Hw. symmetry. apply Z.mod_small. lia.
Qed.

(** C2.  The count of the queue does not stay within the capacity: on a
    cache of capacity 4, four submits made while the worker sleeps fill
    the queue, and the fifth submit is stored at once instead of
    waiting; the count becomes 5 and the entry at the head, not yet
    taken by the worker, is overwritten. *)
Theorem submit_overfills_queue :
  let C := pair_collaborators in
  let P := small_platform true true 4 in
  let w4 := final (submit_all 1 50 [101; 102; 103; 104] (new_world five_items [])) in
  let w5 := final (probe_icache_add 1 50 105 w4) in
  submit_all 1 50 [101; 102; 103; 104] (new_world five_items []) = Done [0; 0; 0; 0] w4
  /\ queue_cnt (iq w4) = 4 /\ queue_max (iq w4) = 4
  /\ queue_slot (iq w4) (queue_beg (iq w4)) = Some {| cobj := 50; p := P_item 101 |}
  /\ probe_icache_add 1 50 105 w4 = Done 0 w5
  /\ queue_cnt (iq w5) = 5 /\ queue_max (iq w5) = 4
  /\ queue_slot (iq w5) (queue_beg (iq w5)) = Some {| cobj := 50; p := P_item 105 |}.
Proof. vm_compute. repeat split; reflexivity. Qed.

(** C6.  The extraction does not always advance the head: on a cache of
    capacity 2 that holds two entries, the worker's pass takes the entry
    at slot 0 and leaves the head at slot 0; the next pass takes the
    same entry again (and releases the item it had just made canonical),
    and the second entry is never taken although the count reaches 0. *)
Theorem worker_rereads_head_of_full_queue :
  let C := pair_collaborators in
  let P := small_platform true true 2 in
  let w2 := final (submit_all 1 50 [101; 102] (new_world five_items [])) in
  let w3 := final (worker_next w2) in
  let w4 := final (worker_next w3) in
  (queue_cnt (iq w2) = 2 /\ queue_beg (iq w2) = 0 /\ queue_end (iq w2) = 0)
  /\ worker_next w2 = Done W_continue w3
  /\ (queue_cnt (iq w3) = 1 /\ queue_beg (iq w3) = 0)
  /\ cobjs w3 !! 50 = Some [101]
  /\ worker_next w3 = Done W_continue w4
  /\ (queue_cnt (iq w4) = 0 /\ queue_beg (iq w4) = 0)
  /\ cobjs w4 !! 50 = Some [101; 101]
  /\ heap w4 !! 101 = None
  /\ heap w4 !! 102 = Some (fresh_item 7 2).
Proof. vm_compute. repeat split; reflexivity. Qed.

(** ** The producer side: submit, barrier, collect *)

Ltac wp_step :=
  lazymatch goal with
  | |- wp (bind _ _) _ _ _ => apply wp_bind
  | |- wp (ret _) _ _ _ => apply wp_ret
  | |- wp get _ _ _ => apply wp_get
  | |- wp (modify _) _ _ _ => apply wp_modify
  | |- wp (emit _) _ _ _ => apply wp_emit
  | |- wp (syscall _) _ _ _ => apply wp_syscall
  | |- wp lock_queue_mutex _ _ _ => apply wp_lock; cbv zeta
  | |- wp unlock_queue_mutex _ _ _ => apply wp_unlock; cbv zeta
  | |- wp abort _ _ _ => apply wp_abort
  | |- wp undefined _ _ _ => apply wp_undefined
  | |- wp blocked _ _ _ => apply wp_blocked
  | |- wp (cond_wait _) _ _ _ => apply wp_cond_wait; [intros ? | intros ? ? ?]
  | |- wp (if ?c then _ else _) _ _ _ => destruct c eqn:?
  end; cbv beta.

Ltac wp_go := repeat wp_step.

Section Producers.
Context `{Collaborators} `{Platform}.

Lemma store_untouched_refl (w : world) : store_untouched w w.
Proof. repeat split. Qed.

Lemma store_untouched_trans (w1 w2 w3 : world) :
  store_untouched w1 w2 -> store_untouched w2 w3 -> store_untouched w1 w3.
Proof.
  intros (Ha & Hb & Hc & Hd & He) (Ha' & Hb' & Hc' & Hd' & He').
  repeat split; try congruence.
  all: intros x; now rewrite He', He.
Qed.

Lemma store_untouched_call (w0 w : world) (c : call) (r : Z) :
  store_untouched w0 w -> store_untouched w0 (log (Ev_call c r) w).
Proof.
  intros (Ha & Hb & Hc & Hd & He). repeat split; try assumption.
  intros x. cbn [log trace set_trace]. rewrite frees_app, He. simpl. lia.
Qed.

Lemma store_untouched_abort (w0 w : world) :
  store_untouched w0 w -> store_untouched w0 (log Ev_abort w).
Proof.
  intros (Ha & Hb & Hc & Hd & He). repeat split; try assumption.
  intros x. cbn [log trace set_trace]. rewrite frees_app, He. simpl. lia.
Qed.

Lemma store_untouched_iq (w0 w : world) (q : iqueue) :
  store_untouched w0 w -> store_untouched w0 (set_iq q w).
Proof. intros Hs. exact Hs. Qed.

Lemma store_untouched_holds (w0 w : world) (b : bool) :
  store_untouched w0 w -> store_untouched w0 (set_holds b w).
Proof. intros Hs. exact Hs. Qed.

Lemma store_untouched_pop (w0 w : world) :
  store_untouched w0 w -> store_untouched w0 (pop_tape w).
Proof. intros Hs. exact Hs. Qed.

Lemma store_untouched_yield (w0 w : world) (a : answer) :
  store_untouched w0 w -> store_untouched w0 (yield a w).
Proof. intros Hs. exact Hs. Qed.

Create HintDb untouched.
Hint Resolve store_untouched_call store_untouched_abort store_untouched_iq
  store_untouched_holds store_untouched_pop store_untouched_yield : untouched.

Lemma add_nolock_retry_untouched (fuel : nat) (dest item cond : Z) (w0 w : world) :
  store_untouched w0 w ->
  wp (add_nolock_retry fuel dest item cond)
     (fun _ w' => store_untouched w0 w') (store_untouched w0) w.
Proof.
  revert w. induction fuel as [|fuel IH]; intros w Hs; cbn [add_nolock_retry];
    wp_go; unfold yield; auto with untouched.
Qed.

Lemma add_nolock_untouched (dest item cond : Z) (w0 w : world) :
  store_untouched w0 w ->
  wp (__probe_icache_add_nolock dest item cond)
     (fun _ w' => store_untouched w0 w') (store_untouched w0) w.
Proof.
  intros Hs. unfold __probe_icache_add_nolock. wp_go; auto.
  now apply add_nolock_retry_untouched.
Qed.

(** A submit leaves the items, the tree, the collected objects and the
    counter alone and releases nothing, whatever its outcome. *)
Lemma probe_icache_add_untouched (cache dest item : Z) (w0 w : world) :
  store_untouched w0 w ->
  wp (probe_icache_add cache dest item)
     (fun _ w' => store_untouched w0 w') (store_untouched w0) w.
Proof.
  intros Hs. unfold probe_icache_add. wp_go; auto with untouched.
  eapply wp_mono;
    [apply (add_nolock_untouched _ _ _ w0); auto with untouched | | auto].
  intros r w1 Hs1. cbv beta. wp_go; auto with untouched.
Qed.

Lemma probe_icache_add_returns (cache dest item : Z) (w w' : world) (r : Z) :
  probe_icache_add cache dest item w = Done r w' -> r = 0 \/ r = -1.
Proof.
  intros Hrun.
  assert (Hwp : wp (probe_icache_add cache dest item)
                  (fun r _ => r = 0 \/ r = -1) (fun _ => True) w).
  { unfold probe_icache_add. wp_go; auto.
    eapply wp_mono; [apply wp_trivial | | auto].
    intros a w1 _. cbv beta. wp_go; auto. }
  unfold wp in Hwp. now rewrite Hrun in Hwp.
Qed.

Lemma frees_freed (item : Z) (w : world) :
  frees item (trace (freed item w)) = S (frees item (trace w))
  /\ heap (freed item w) !! item = None.
Proof.
  unfold freed. cbn [log trace set_trace set_heap heap]. split.
  - rewrite frees_app. cbn [frees]. rewrite Z.eqb_refl. lia.
  - apply lookup_delete_eq.
Qed.

(** C8.  [probe_item_collect]: when the filters reject the item it is
    released and 1 is returned; when the submit fails it is released and
    -1 is returned; when the submit succeeds 0 is returned and the item
    is not released.  The item is released on the two non-ok paths and
    on no other. *)
Theorem collect_releases_item_on_failure_only (ctx : probe_ctx) (item : Z) (w : world) :
  (forall it,
     filters ctx <> NULL -> heap w !! item = Some it ->
     probe_item_filtered it (filters ctx) = true ->
     probe_item_collect ctx item w = Done 1 (freed item w)
     /\ frees item (trace (freed item w)) = S (frees item (trace w)))
  /\ (forall r w1,
        (filters ctx = NULL
         \/ exists it, heap w !! item = Some it
                      /\ probe_item_filtered it (filters ctx) = false) ->
        probe_icache_add (icache ctx) (probe_out ctx) item w = Done r w1 ->
        (r <> 0 ->
         probe_item_collect ctx item w = Done (-1) (freed item w1)
         /\ frees item (trace (freed item w1)) = S (frees item (trace w)))
        /\ (r = 0 ->
            probe_item_collect ctx item w = Done 0 w1
            /\ frees item (trace w1) = frees item (trace w)
            /\ heap w1 = heap w)).
Proof.
  split.
  - intros it Hf Hit Hrej. split; [|apply frees_freed].
    unfold probe_item_collect, bind, get.
    replace (filters ctx =? NULL) with false by (symmetry; now apply Z.eqb_neq).
    rewrite Hit. unfold ret. rewrite Hrej. reflexivity.
  - intros r w1 Hpass Hadd.
    pose proof (probe_icache_add_untouched (icache ctx) (probe_out ctx) item w w
                  (store_untouched_refl w)) as Hkeep.
    unfold wp in Hkeep. rewrite Hadd in Hkeep.
    destruct Hkeep as (Hheap & _ & _ & _ & Hfrees).
    assert (Hrun : probe_item_collect ctx item w
                   = if negb (r =? 0) then Done (-1) (freed item w1) else Done 0 w1).
    { unfold probe_item_collect, bind, get.
      destruct Hpass as [Hnull | (it & Hit & Hacc)].
      - rewrite Hnull. cbn [NULL Z.eqb]. unfold ret. rewrite Hadd.
        now destruct (negb (r =? 0)).
      - destruct (filters ctx =? NULL); unfold ret; [|rewrite Hit, Hacc];
          rewrite Hadd; now destruct (negb (r =? 0)). }
    split.
    + intros Hr. apply Z.eqb_neq in Hr. rewrite Hr in Hrun. split; [exact Hrun|].
      destruct (frees_freed item w1) as [Hf _]. now rewrite Hf, Hfrees.
    + intros Hr. subst r. cbn [Z.eqb negb] in Hrun. auto.
Qed.

End Producers.

(** C8, at concrete items: the filter rejects the odd payload of item
    101; item 102 passes and is submitted. *)
Lemma collect_releases_item_on_failure_only_witness :
  let C := pair_collaborators in
  let P := small_platform true true 4 in
  let ctx := {| filters := 9; icache := 1; probe_out := 50 |} in
  let w := new_world three_items [] in
  (filters ctx <> NULL /\ heap w !! 101 = Some (fresh_item 7 1)
   /\ probe_item_filtered (fresh_item 7 1) (filters ctx) = true)
  /\ probe_item_collect ctx 101 w = Done 1 (freed 101 w)
  /\ probe_item_collect ctx 102 w
     = Done 0 (final (probe_icache_add (icache ctx) (probe_out ctx) 102 w)).
Proof.
  intros C P ctx w.
  assert (H1 : filters ctx <> NULL) by (unfold NULL; simpl; lia).
  assert (H2 : heap w !! 101 = Some (fresh_item 7 1)) by reflexivity.
  assert (H3 : probe_item_filtered (fresh_item 7 1) (filters ctx) = true)
    by reflexivity.
  split; [auto|]. split.
  - exact (proj1 (proj1 (@collect_releases_item_on_failure_only C P ctx 101 w)
                    (fresh_item 7 1) H1 H2 H3)).
  - refine (proj1 (proj2 (proj2 (@collect_releases_item_on_failure_only C P ctx 102 w)
                            0 _ _ _) eq_refl)).
    + right. exists (fresh_item 7 2). split; reflexivity.
    + reflexivity.
Defined.

Section Barrier.
Context `{Collaborators} `{Platform}.

(** C10.  When the initialisation of the local condition variable fails
    in [probe_icache_nop], the function returns -1 and the calling
    thread still owns the queue mutex it had just taken: no unlock was
    made.  The path on which the enqueue fails does unlock before it
    returns -1. *)
Theorem nop_cond_init_failure_keeps_mutex (cache cond : Z) (w : world) :
  cache <> NULL ->
  holds_queue_mutex w = false ->
  (forall a1 a2 rest,
     tape w = a1 :: a2 :: rest -> rc a1 = 0 -> rc a2 <> 0 ->
     exists w',
       probe_icache_nop cache cond w = Done (-1) w'
       /\ holds_queue_mutex w' = true
       /\ trace w' = trace w ++ [Ev_call (pthread_mutex_lock MX_queue) 0;
                                 Ev_call (pthread_cond_init cond) (rc a2)])
  /\ (forall a1 a2 a3 a4 rest,
        cond <> NULL ->
        tape w = a1 :: a2 :: a3 :: a4 :: rest ->
        rc a1 = 0 -> rc a2 = 0 ->
        queue_has_room (foldl interfere (iq w) (others a1)) = false ->
        rc a3 <> 0 -> rc a4 = 0 ->
        exists w',
          probe_icache_nop cache cond w = Done (-1) w'
          /\ holds_queue_mutex w' = false
          /\ trace w' = trace w ++ [Ev_call (pthread_mutex_lock MX_queue) 0;
                                    Ev_call (pthread_cond_init cond) 0;
                                    Ev_call (pthread_cond_wait CV_notfull) (rc a3);
                                    Ev_call (pthread_mutex_unlock MX_queue) 0;
                                    Ev_call (pthread_cond_destroy cond)
                                      (rc (hd ok rest))]).
Proof.
  intros Hcache Hfree.
  assert (Hc : (cache =? NULL) = false) by now apply Z.eqb_neq.
  split.
  - intros a1 a2 rest Htape H1 H2.
    apply Z.eqb_neq in H2.
    assert (Hwp : wp (probe_icache_nop cache cond)
              (fun r w' => r = -1 /\ holds_queue_mutex w' = true
                 /\ trace w' = trace w ++ [Ev_call (pthread_mutex_lock MX_queue) 0;
                                           Ev_call (pthread_cond_init cond) (rc a2)])
              (fun _ => False) w).
    { unfold probe_icache_nop. rewrite Hc.
      wp_run. wp_run. rewrite Htape. world_simpl. rewrite H1. cbn [Z.eqb negb].
      wp_run. wp_run. rewrite H2. cbn [negb]. wp_run.
      repeat split. now rewrite <- app_assoc. }
    apply wp_done in Hwp. destruct Hwp as (r & w' & Hrun & -> & Hheld & Htrace).
    eauto.
  - intros a1 a2 a3 a4 rest Hcond Htape H1 H2 Hroom H3 H4.
    apply Z.eqb_neq in H3. apply Z.eqb_neq in Hcond.
    assert (Hwp : wp (probe_icache_nop cache cond)
              (fun r w' => r = -1 /\ holds_queue_mutex w' = false
                 /\ trace w' = trace w ++ [Ev_call (pthread_mutex_lock MX_queue) 0;
                                    Ev_call (pthread_cond_init cond) 0;
                                    Ev_call (pthread_cond_wait CV_notfull) (rc a3);
                                    Ev_call (pthread_mutex_unlock MX_queue) 0;
                                    Ev_call (pthread_cond_destroy cond)
                                      (rc (hd ok rest))])
              (fun _ => False) w).
    { unfold probe_icache_nop. rewrite Hc.
      wp_run. wp_run. rewrite Htape. world_simpl. rewrite H1. cbn [Z.eqb negb].
      wp_run. wp_run. rewrite H2. cbn [Z.eqb negb].
      wp_run. unfold __probe_icache_add_nolock. rewrite Hcond.
      cbn [NULL Z.eqb xorb negb]. rewrite andb_false_r.
      wp_run. wp_run. cbn [length add_nolock_retry].
      wp_run. wp_run. rewrite Hroom.
      wp_run. apply wp_cond_wait; world_simpl; [discriminate|].
      intros a t [= <- <-]. rewrite H3. wp_run. cbn [Z.eqb negb].
      wp_run. wp_run. rewrite H4. cbn [Z.eqb negb].
      wp_run. wp_run. wp_run.
      repeat split. now rewrite <- !app_assoc. }
    apply wp_done in Hwp. destruct Hwp as (r & w' & Hrun & -> & Hheld & Htrace).
    eauto.
Qed.

End Barrier.

(** C10, at a concrete state: a cache in use whose barrier finds the
    condition variable impossible to initialise (error 12), and the
    overfull queue on which the wait for room fails (error 22). *)
Lemma nop_cond_init_failure_keeps_mutex_witness :
  let C := pair_collaborators in
  let P := small_platform true true 4 in
  let w := overfull_world [ok; failure 12] in
  let w2 := overfull_world [ok; ok; failure 22; ok] in
  (1 <> NULL /\ holds_queue_mutex w = false)
  /\ (exists w',
        probe_icache_nop 1 900 w = Done (-1) w'
        /\ holds_queue_mutex w' = true
        /\ trace w' = trace w ++ [Ev_call (pthread_mutex_lock MX_queue) 0;
                                  Ev_call (pthread_cond_init 900) 12])
  /\ (exists w',
        probe_icache_nop 1 900 w2 = Done (-1) w'
        /\ holds_queue_mutex w' = false).
Proof.
  intros C P w w2.
  assert (H1 : 1 <> NULL) by (unfold NULL; lia).
  assert (H2 : holds_queue_mutex w = false) by reflexivity.
  assert (H2' : holds_queue_mutex w2 = false) by reflexivity.
  split; [auto|]. split.
  - refine (proj1 (@nop_cond_init_failure_keeps_mutex C P 1 900 w H1 H2)
              ok (failure 12) [] eq_refl eq_refl _).
    simpl. lia.
  - destruct (proj2 (@nop_cond_init_failure_keeps_mutex C P 1 900 w2 H1 H2')
                ok ok (failure 22) ok []) as (w' & Hrun & Hheld & _);
      try reflexivity; try (unfold NULL; simpl; lia).
    exists w'. auto.
Defined.

(** ** The worker *)

Section Worker.
Context `{Collaborators} `{Platform}.

Lemma wp_replace_id (item : Z) (s : string) (Q : unit -> world -> Prop)
    (E : world -> Prop) (w : world) :
  (heap w !! item = None -> E w) ->
  (forall it, heap w !! item = Some it ->
     Q tt (set_heap (<[item := mk_item (body it) s]> (heap w)) w)) ->
  wp (SEXP_list_replace_id item s) Q E w.
Proof.
  intros HE HQ. unfold wp, SEXP_list_replace_id.
  destruct (heap w !! item) as [it|]; auto.
Qed.

Lemma stamp_only_refl (item : Z) (w : world) : stamp_only item w w.
Proof.
  repeat split; auto. intros [b s] Hit. now exists s.
Qed.

Lemma stamp_only_call (item : Z) (w w1 : world) (c : call) (r : Z) :
  stamp_only item w w1 -> stamp_only item w (log (Ev_call c r) w1).
Proof.
  intros (Ht & Hc & Hq & Hf & Hi & Hn & Ho). repeat split; auto.
  intros x. cbn [log trace set_trace]. rewrite frees_app, Hf. simpl. lia.
Qed.

Lemma stamp_only_abort (item : Z) (w w1 : world) :
  stamp_only item w w1 -> stamp_only item w (log Ev_abort w1).
Proof.
  intros (Ht & Hc & Hq & Hf & Hi & Hn & Ho). repeat split; auto.
  intros x. cbn [log trace set_trace]. rewrite frees_app, Hf. simpl. lia.
Qed.

Lemma stamp_only_pop (item : Z) (w w1 : world) :
  stamp_only item w w1 -> stamp_only item w (pop_tape w1).
Proof. intros Hs. exact Hs. Qed.

Lemma stamp_only_next_ID (item : Z) (w w1 : world) (n : Z) :
  stamp_only item w w1 -> stamp_only item w (set_next_ID n w1).
Proof. intros Hs. exact Hs. Qed.

Lemma stamp_only_stamp (item : Z) (w w1 : world) (it1 : sexp_item content) (s : string) :
  stamp_only item w w1 -> heap w1 !! item = Some it1 ->
  stamp_only item w (set_heap (<[item := mk_item (body it1) s]> (heap w1)) w1).
Proof.
  intros (Ht & Hc & Hq & Hf & Hi & Hn & Ho) Hit1. repeat split; auto.
  - intros it Hit. destruct (Hi it Hit) as (s1 & Hs1).
    exists s. cbn [heap set_heap]. rewrite lookup_insert_eq.
    rewrite Hit1 in Hs1. now inversion Hs1.
  - intros Hnone. specialize (Hn Hnone). congruence.
  - intros x Hx. cbn [heap set_heap]. rewrite lookup_insert_ne by auto. auto.
Qed.

Create HintDb stamping.
Hint Resolve stamp_only_call stamp_only_abort stamp_only_pop
  stamp_only_next_ID stamp_only_stamp : stamping.

(** The stamping routine touches nothing but the stamp of its item, the
    counter, the trace and the tape; it releases nothing. *)
Lemma setID_frame (item item_ID : Z) (w w1 : world) :
  stamp_only item w w1 ->
  wp (probe_icache_item_setID item item_ID)
     (fun _ w' => stamp_only item w w') (stamp_only item w) w1.
Proof.
  intros Hs. unfold probe_icache_item_setID, mint_local_id.
  wp_go; auto 10 with stamping.
  all: destruct (uniq_id _ _);
    [apply wp_replace_id; intros; auto 10 with stamping
    | wp_go; auto 10 with stamping].
Qed.

(** C7 (as amended).  When the insert of a newly created bucket into
    the tree fails on a true miss, the worker releases the array of the
    bucket and the bucket itself and calls [abort()]; the incoming item,
    which has been stamped by then, is not released and stays live. *)
Theorem index_insert_failure_aborts (entry : iqpair) (w w1 : world)
    (it : sexp_item content) (a : answer) (rest : list answer) :
  cobj entry <> NULL ->
  heap w !! p_item (p entry) = Some it ->
  tree w !! SEXP_ID_v it = None ->
  probe_icache_item_setID (p_item (p entry)) (SEXP_ID_v it) w = Done tt w1 ->
  tape w1 = a :: rest ->
  rc a <> 0 ->
  exists w',
    worker_handle entry w = Aborted w'
    /\ trace w' = trace w1 ++ [Ev_call (rbt_i64_add (SEXP_ID_v it)) (rc a);
                               Ev_oscap_free_items [p_item (p entry)];
                               Ev_oscap_free_citem;
                               Ev_abort]
    /\ frees (p_item (p entry)) (trace w') = frees (p_item (p entry)) (trace w)
    /\ (exists s, heap w' !! p_item (p entry) = Some (mk_item (body it) s))
    /\ tree w' = tree w /\ cobjs w' = cobjs w.
Proof.
  intros Hcobj Hit Htree Hset Htape Hrc.
  pose proof (setID_frame (p_item (p entry)) (SEXP_ID_v it) w w
                (stamp_only_refl _ w)) as Hframe.
  unfold wp in Hframe. rewrite Hset in Hframe.
  destruct Hframe as (Ht & Hc & Hq & Hf & Hi & _ & _).
  destruct (Hi it Hit) as (s & Hs).
  apply Z.eqb_neq in Hcobj. apply Z.eqb_neq in Hrc.
  unfold worker_handle. rewrite Hcobj.
  unfold bind, get. rewrite Hit, Htree, Hset.
  unfold rbt_add, bind, get. rewrite Ht, Htree.
  unfold syscall, next_answer. rewrite Htape. cbn [hd]. rewrite Hrc.
  unfold ret. rewrite Hrc. cbn [negb]. unfold emit, modify, abort.
  eexists. split; [reflexivity|].
  unfold log, pop_tape. cbn [trace set_trace set_tape heap tree cobjs].
  repeat split; eauto.
  - now rewrite <- !app_assoc.
  - rewrite !frees_app, Hf. simpl. lia.
Qed.

End Worker.

(** C7: a failed insert (error 12) on a true miss.  The worker aborts;
    item 101 is stamped, still live and was never released. *)
Lemma index_insert_failure_keeps_item :
  let C := pair_collaborators in
  let P := small_platform true true 4 in
  exists w',
    worker_handle {| cobj := 50; p := P_item 101 |}
      (new_world three_items [failure 12]) = Aborted w'
    /\ heap w' !! 101 = Some (mk_item (7, 1) "1000420")
    /\ frees 101 (trace w') = 0%nat.
Proof. eexists. vm_compute. repeat split; reflexivity. Qed.

Lemma index_insert_failure_aborts_witness :
  let C := pair_collaborators in
  let P := small_platform true true 4 in
  let w := new_world three_items [failure 12] in
  let e := {| cobj := 50; p := P_item 101 |} in
  (cobj e <> NULL /\ heap w !! 101 = Some (fresh_item 7 1)
   /\ tree w !! 7 = None /\ 12 <> 0)
  /\ exists w',
       worker_handle e w = Aborted w'
       /\ frees 101 (trace w') = frees 101 (trace w)
       /\ (exists s, heap w' !! 101 = Some (mk_item (7, 1) s)).
Proof.
  intros C P w e.
  assert (H1 : cobj e <> NULL) by (unfold NULL; simpl; lia).
  assert (H2 : heap w !! p_item (p e) = Some (fresh_item 7 1)) by reflexivity.
  assert (H3 : tree w !! SEXP_ID_v (fresh_item 7 1) = None) by reflexivity.
  assert (H4 : rc (failure 12) <> 0) by (simpl; lia).
  assert (H5 : probe_icache_item_setID (p_item (p e)) (SEXP_ID_v (fresh_item 7 1)) w
               = Done tt (final (probe_icache_item_setID 101 7 w)))
    by (vm_compute; reflexivity).
  assert (H6 : tape (final (probe_icache_item_setID 101 7 w)) = [failure 12])
    by (vm_compute; reflexivity).
  split; [repeat split; auto; lia|].
  destruct (@index_insert_failure_aborts C P e w
              (final (probe_icache_item_setID 101 7 w)) (fresh_item 7 1)
              (failure 12) [] H1 H2 H3 H5 H6 H4)
    as (w' & Hrun & _ & Hfrees & Hlive & _).
  exists w'. auto.
Defined.

(** ** The tags of the queue entries *)

Lemma well_tagged_cases (e : iqpair) :
  well_tagged e <->
  match p e with
  | P_item i => cobj e <> NULL /\ i <> NULL
  | P_cond c => cobj e = NULL /\ c <> NULL
  end.
Proof.
  unfold well_tagged. destruct e as [d [i|c]]; cbn [p cobj]; split.
  - intros [H1 H2]. destruct (Z.eq_dec d NULL) as [Hd|Hd].
    + apply H1 in Hd. destruct Hd as (c & Hc & _). discriminate.
    + split; [exact Hd|]. apply H2 in Hd. destruct Hd as (i' & [= <-] & Hi). exact Hi.
  - intros [Hd Hi]. split; split.
    + intros Hn. contradiction.
    + intros (c & Hc & _). discriminate.
    + intros _. eauto.
    + auto.
  - intros [H1 H2]. destruct (Z.eq_dec d NULL) as [Hd|Hd].
    + split; [exact Hd|]. apply H1 in Hd. destruct Hd as (c' & [= <-] & Hc). exact Hc.
    + apply H2 in Hd. destruct Hd as (i & Hi & _). discriminate.
  - intros [Hd Hc]. split; split.
    + eauto.
    + auto.
    + intros Hn. contradiction.
    + intros (i & Hi & _). discriminate.
Qed.

Lemma queue_tagged_store (q : iqueue) (dest item cond : Z) :
  queue_tagged q ->
  (item <> NULL /\ dest <> NULL) \/ (item = NULL /\ dest = NULL /\ cond <> NULL) ->
  queue_tagged (queue_store q dest item cond).
Proof.
  intros Hq Hargs i e. unfold queue_store; cbn [queue].
  destruct (decide (i = Z.to_nat (queue_end q))) as [->|Hne].
  - intros Hlook. apply list_lookup_insert_Some in Hlook.
    destruct Hlook as [(_ & Heq & _) | (Hne & _)]; [|contradiction].
    injection Heq as <-. apply well_tagged_cases. cbn [p cobj].
    destruct Hargs as [(Hi & Hd) | (-> & -> & Hc)].
    + replace (item =? NULL) with false by (symmetry; now apply Z.eqb_neq). auto.
    + rewrite Z.eqb_refl. auto.
  - rewrite list_lookup_insert_ne by auto. apply Hq.
Qed.

Lemma queue_tagged_set_slot (q : iqueue) (i : Z) (e : iqpair) :
  queue_tagged q -> well_tagged e -> queue_tagged (queue_set_slot q i e).
Proof.
  intros Hq He j e'. unfold queue_set_slot; cbn [queue].
  destruct (decide (j = Z.to_nat i)) as [->|Hne].
  - intros Hlook. apply list_lookup_insert_Some in Hlook.
    destruct Hlook as [(_ & Heq & _) | (Hne & _)]; [|contradiction].
    now injection Heq as <-.
  - rewrite list_lookup_insert_ne by auto. apply Hq.
Qed.

Lemma queue_tagged_slot (q : iqueue) (i : Z) (e : iqpair) :
  queue_tagged q -> queue_slot q i = Some e -> well_tagged e.
Proof.
  intros Hq. unfold queue_slot.
  destruct (queue q !! Z.to_nat i) as [[e'|]|] eqn:Hlook; cbn; try discriminate.
  intros [= <-]. exact (Hq _ _ Hlook).
Qed.

Lemma queue_tagged_interfere (q : iqueue) (o : other) :
  queue_tagged q -> queue_tagged (interfere q o).
Proof.
  intros Hq. destruct o as [dest item | cond |]; cbn [interfere].
  - destruct ((dest =? NULL) || (item =? NULL)) eqn:Hnull; [exact Hq|].
    apply orb_false_iff in Hnull. destruct Hnull as [Hd Hi].
    apply Z.eqb_neq in Hd. apply Z.eqb_neq in Hi.
    destruct (queue_has_room q); [|exact Hq].
    apply queue_tagged_store; auto.
  - destruct (cond =? NULL) eqn:Hc; [exact Hq|]. apply Z.eqb_neq in Hc.
    destruct (queue_has_room q); [|exact Hq].
    apply queue_tagged_store; auto.
  - destruct (0 <? queue_cnt q); exact Hq.
Qed.

Lemma queue_tagged_interferes (q : iqueue) (os : list other) :
  queue_tagged q -> queue_tagged (foldl interfere q os).
Proof.
  revert q. induction os as [|o os IH]; intros q Hq; [exact Hq|].
  cbn [foldl]. apply IH, queue_tagged_interfere, Hq.
Qed.

Lemma queue_tagged_new (capacity : Z) : queue_tagged (new_queue capacity).
Proof.
  intros i e Hlook. unfold new_queue in Hlook; cbn [queue] in Hlook.
  apply lookup_replicate in Hlook. destruct Hlook as [Hnone _]. discriminate.
Qed.

Ltac wp_case :=
  lazymatch goal with
  | |- wp (bind _ _) _ _ _ => apply wp_bind
  | |- wp (ret _) _ _ _ => apply wp_ret
  | |- wp get _ _ _ => apply wp_get
  | |- wp (modify _) _ _ _ => apply wp_modify
  | |- wp (emit _) _ _ _ => apply wp_emit
  | |- wp (syscall _) _ _ _ => apply wp_syscall
  | |- wp lock_queue_mutex _ _ _ => apply wp_lock; cbv zeta
  | |- wp unlock_queue_mutex _ _ _ => apply wp_unlock; cbv zeta
  | |- wp abort _ _ _ => apply wp_abort
  | |- wp undefined _ _ _ => apply wp_undefined
  | |- wp blocked _ _ _ => apply wp_blocked
  | |- wp (cond_wait _) _ _ _ => apply wp_cond_wait; [intros ? | intros ? ? ?]
  | |- wp (if ?c then _ else _) _ _ _ => destruct c eqn:?
  | |- wp (match ?x with _ => _ end) _ _ _ => destruct x eqn:?
  end; cbv beta.

Ltac wp_cases := repeat wp_case.

Section Tags.
Context `{Collaborators} `{Platform}.

Lemma tagged_ext (w w' : world) :
  iq w' = iq w -> tree w' = tree w -> tagged w -> tagged w'.
Proof. intros Hq Ht [H1 H2]. unfold tagged. rewrite Hq, Ht. auto. Qed.

Lemma tagged_log (w : world) (e : event) : tagged w -> tagged (log e w).
Proof. now apply tagged_ext. Qed.

Lemma tagged_pop (w : world) : tagged w -> tagged (pop_tape w).
Proof. now apply tagged_ext. Qed.

Lemma tagged_holds (w : world) (b : bool) : tagged w -> tagged (set_holds b w).
Proof. now apply tagged_ext. Qed.

Lemma tagged_tape (w : world) (t : list answer) : tagged w -> tagged (set_tape t w).
Proof. now apply tagged_ext. Qed.

Lemma tagged_heap (w : world) h : tagged w -> tagged (set_heap h w).
Proof. now apply tagged_ext. Qed.

Lemma tagged_cobjs (w : world) c : tagged w -> tagged (set_cobjs c w).
Proof. now apply tagged_ext. Qed.

Lemma tagged_yield (w : world) (a : answer) : tagged w -> tagged (yield a w).
Proof.
  intros [Hq Ht]. split; [|exact Ht].
  cbn [yield iq set_iq]. now apply queue_tagged_interferes.
Qed.

Lemma tagged_store (w : world) (dest item cond : Z) :
  tagged w ->
  (item <> NULL /\ dest <> NULL) \/ (item = NULL /\ dest = NULL /\ cond <> NULL) ->
  tagged (set_iq (queue_store (iq w) dest item cond) w).
Proof.
  intros [Hq Ht] Hargs. split; [|exact Ht].
  cbn [iq set_iq]. now apply queue_tagged_store.
Qed.

Lemma tagged_extract (w : world) :
  tagged w -> tagged (set_iq (snd (queue_extract (iq w))) w).
Proof. intros [Hq Ht]. split; [exact Hq | exact Ht]. Qed.

Lemma tagged_set_slot (w : world) (i : Z) (e : iqpair) :
  tagged w -> well_tagged e -> tagged (set_iq (queue_set_slot (iq w) i e) w).
Proof.
  intros [Hq Ht] He. split; [|exact Ht].
  cbn [iq set_iq]. now apply queue_tagged_set_slot.
Qed.

Lemma tagged_tree_insert (w : world) (k : Z) (b : list Z) :
  tagged w -> (forall x, x ∈ b -> x <> NULL) ->
  tagged (set_tree (<[k := b]> (tree w)) w).
Proof.
  intros [Hq Ht] Hb. split; [exact Hq|].
  intros k' b' x. cbn [tree set_tree]. rewrite lookup_insert.
  case_decide.
  - intros [= <-]. apply Hb.
  - apply Ht.
Qed.

Lemma tagged_stamp_only (item : Z) (w w' : world) :
  stamp_only item w w' -> tagged w -> tagged w'.
Proof. intros (Ht & _ & Hq & _). now apply tagged_ext. Qed.

Create HintDb tags.
Hint Resolve tagged_log tagged_pop tagged_holds tagged_tape tagged_heap
  tagged_cobjs tagged_yield tagged_extract : tags.

Lemma add_nolock_retry_tagged (fuel : nat) (dest item cond : Z) (w : world) :
  (item <> NULL /\ dest <> NULL) \/ (item = NULL /\ dest = NULL /\ cond <> NULL) ->
  tagged w ->
  wp (add_nolock_retry fuel dest item cond) (fun _ w' => tagged w') tagged w.
Proof.
  intros Hargs. revert w.
  induction fuel as [|fuel IH]; intros w Hw; cbn [add_nolock_retry];
    wp_cases; auto 6 using tagged_store with tags.
Qed.

Lemma add_nolock_tagged (dest item cond : Z) (w : world) :
  (item <> NULL /\ dest <> NULL) \/ (item = NULL /\ dest = NULL /\ cond <> NULL) ->
  tagged w ->
  wp (__probe_icache_add_nolock dest item cond) (fun _ w' => tagged w') tagged w.
Proof.
  intros Hargs Hw. unfold __probe_icache_add_nolock. wp_cases; auto.
  now apply add_nolock_retry_tagged.
Qed.

Lemma probe_icache_add_tagged (cache dest item : Z) (w : world) :
  tagged w ->
  wp (probe_icache_add cache dest item) (fun _ w' => tagged w') tagged w.
Proof.
  intros Hw. unfold probe_icache_add. wp_cases; auto 6 with tags.
  apply orb_false_iff in Heqb. destruct Heqb as [Heqb Hi].
  apply orb_false_iff in Heqb. destruct Heqb as [_ Hd].
  apply Z.eqb_neq in Hi. apply Z.eqb_neq in Hd.
  eapply wp_mono; [apply add_nolock_tagged; auto 6 with tags | | auto].
  intros r w1 Hw1. cbv beta. wp_cases; auto 6 with tags.
Qed.

Lemma probe_icache_nop_tagged (cache cond : Z) (w : world) :
  cond <> NULL ->
  tagged w ->
  wp (probe_icache_nop cache cond) (fun _ w' => tagged w') tagged w.
Proof.
  intros Hc Hw. unfold probe_icache_nop. wp_cases; auto 6 with tags.
  eapply wp_mono; [apply add_nolock_tagged; auto 6 with tags | | auto].
  intros r w1 Hw1. cbv beta. wp_cases; auto 8 with tags.
Qed.

Lemma probe_item_collect_tagged (ctx : probe_ctx) (item : Z) (w : world) :
  tagged w ->
  wp (probe_item_collect ctx item) (fun _ w' => tagged w') tagged w.
Proof.
  intros Hw. unfold probe_item_collect, SEXP_free.
  wp_cases; auto 6 with tags.
  all: eapply wp_mono; [apply probe_icache_add_tagged; auto | | auto].
  all: intros r w1 Hw1; cbv beta; wp_cases; auto 6 with tags.
Qed.

Lemma well_tagged_insert (e : iqpair) :
  well_tagged e -> (cobj e =? NULL) = false -> p_item (p e) <> NULL.
Proof.
  intros He Hc. apply Z.eqb_neq in Hc. apply well_tagged_cases in He.
  destruct (p e); cbn [p_item]; tauto.
Qed.

Lemma well_tagged_substitute (e : iqpair) (canonical : Z) :
  (cobj e =? NULL) = false -> canonical <> NULL ->
  well_tagged {| cobj := cobj e; p := P_item canonical |}.
Proof.
  intros Hc Hn. apply Z.eqb_neq in Hc. apply well_tagged_cases. cbn. auto.
Qed.

Lemma cobj_add_item_tagged (dest item : Z) (w : world) :
  tagged w -> wp (cobj_add_item dest item) (fun _ w' => tagged w') tagged w.
Proof. intros Hw. unfold cobj_add_item. wp_cases; auto 6 with tags. Qed.

Lemma setID_tagged (item item_ID : Z) (w : world) :
  tagged w ->
  wp (probe_icache_item_setID item item_ID) (fun _ w' => tagged w') tagged w.
Proof.
  intros Hw.
  eapply wp_mono; [apply (setID_frame item item_ID w w), stamp_only_refl | |];
    cbv beta; eauto using tagged_stamp_only.
Qed.

(** The worker leaves the tags in order, and so is the entry it leaves
    in the slot. *)
Lemma worker_handle_tagged (entry : iqpair) (w : world) :
  tagged w -> well_tagged entry ->
  wp (worker_handle entry)
     (fun r w' => tagged w' /\ well_tagged (snd r)) tagged w.
Proof.
  intros Hw He. unfold worker_handle.
  destruct (cobj entry =? NULL) eqn:Hc.
  { wp_cases; auto with tags. }
  pose proof (well_tagged_insert entry He Hc) as Hitem.
  apply wp_bind, wp_get.
  destruct (heap w !! p_item (p entry)) as [it|]; [|now apply wp_undefined].
  apply wp_bind.
  assert (Hrest : forall e' w1, tagged w1 -> well_tagged e' ->
            wp (r <~ cobj_add_item (cobj e') (p_item (p e')) ;;
                if negb (r =? 0) then ret (W_return, e') else ret (W_continue, e'))
               (fun r w' => tagged w' /\ well_tagged (snd r)) tagged w1).
  { intros e' w1 Hw1 He'. apply wp_bind.
    eapply wp_mono; [apply cobj_add_item_tagged; exact Hw1 | | auto].
    intros r w2 Hw2. cbv beta. wp_cases; auto. }
  destruct (tree w !! SEXP_ID_v it) as [cached|] eqn:Htree.
  - destruct (bucket_scan (heap w) it cached 0) as [i|]; [|now apply wp_undefined].
    destruct (i =? Z.of_nat (length cached)).
    + destruct (wrap16 (Z.of_nat (length cached) + 1) =? 0); [now apply wp_undefined|].
      apply wp_bind, wp_modify, wp_bind.
      eapply wp_mono; [apply setID_tagged | | auto].
      * apply tagged_tree_insert; [exact Hw|].
        intros x Hx. apply elem_of_app in Hx. destruct Hx as [Hx|Hx].
        -- destruct Hw as [_ Ht]. exact (Ht _ _ _ Htree Hx).
        -- apply list_elem_of_singleton in Hx. now subst x.
      * intros ? w1 Hw1. cbv beta. apply wp_ret. now apply Hrest.
    + destruct (cached !! Z.to_nat i) as [canonical|] eqn:Hcanon;
        [|now apply wp_undefined].
      unfold SEXP_free. apply wp_bind, wp_modify, wp_ret. apply Hrest.
      * auto with tags.
      * apply well_tagged_substitute; [exact Hc|].
        destruct Hw as [_ Ht]. apply (Ht _ _ _ Htree).
        apply list_elem_of_lookup. eauto.
  - apply wp_bind.
    eapply wp_mono; [apply setID_tagged; exact Hw | | auto].
    intros ? w1 Hw1. cbv beta. unfold rbt_add.
    apply wp_bind, wp_bind, wp_get.
    destruct (tree w1 !! SEXP_ID_v it).
    + apply wp_ret. cbn [Z.eqb negb]. wp_cases. auto 6 with tags.
    + apply wp_bind, wp_syscall.
      destruct (rc (next_answer w1) =? 0) eqn:Hrc.
      * apply wp_bind, wp_modify, wp_ret. cbn [Z.eqb negb]. apply wp_ret.
        apply Hrest; [|exact He].
        apply tagged_tree_insert; [auto with tags|].
        intros x Hx. apply list_elem_of_singleton in Hx. now subst x.
      * apply wp_ret. rewrite Hrc. cbn [negb]. wp_cases. auto 6 with tags.
Qed.

Lemma reachable_tagged (w : world) : reachable w -> tagged w.
Proof.
  induction 1 as [items answers | w answers _ IH | w cache dest item _ IH
                 | w ctx item _ IH | w cache cond _ IH Hc].
  - split; [apply queue_tagged_new|]. intros k b x Hk.
    cbn [new_world tree] in Hk. now rewrite lookup_empty in Hk.
  - now apply tagged_tape.
  - apply wp_final. now apply probe_icache_add_tagged.
  - apply wp_final. now apply probe_item_collect_tagged.
  - apply wp_final. now apply probe_icache_nop_tagged.
Qed.

(** X13.  The producers store well-tagged entries only: in every state
    that submits, collects and barriers reach from a new cache, whatever
    the answers of the environment, every entry in the queue has a null
    [cobj] exactly when it is a barrier with a non-null condition and a
    non-null [cobj] exactly when it is an insert with a non-null item.
    (What the worker writes through its pointer is not covered.) *)
Theorem producers_store_well_tagged_entries (w : world) (i : nat) (e : iqpair) :
  reachable w ->
  queue (iq w) !! i = Some (Some e) ->
  (cobj e = NULL <-> exists c, p e = P_cond c /\ c <> NULL)
  /\ (cobj e <> NULL <-> exists x, p e = P_item x /\ x <> NULL).
Proof.
  intros Hreach Hslot.
  destruct (reachable_tagged w Hreach) as [Hq _].
  exact (Hq i e Hslot).
Qed.

End Tags.

(** ** The deduplicating insert *)

Section Insert.
Context `{Collaborators} `{Platform}.

Lemma calls_succeed_popped (w : world) (e : event) :
  calls_succeed w -> calls_succeed (log e (pop_tape w)).
Proof. intros Hok. exact (calls_succeed_tl w Hok). Qed.

Lemma wp_syscall_ok (c : call) (Q : Z -> world -> Prop) (E : world -> Prop) (w : world) :
  calls_succeed w ->
  Q 0 (log (Ev_call c 0) (pop_tape w)) ->
  wp (syscall c) Q E w.
Proof.
  intros Hok HQ. apply wp_syscall. now rewrite (calls_succeed_next w Hok).
Qed.

(** The loop of lines 169-172 stops at the first stored item that
    compares equal, or at [count] when there is none. *)
Lemma bucket_scan_spec (h : gmap Z (sexp_item content)) (it : sexp_item content)
    (l : list Z) (i0 : Z) :
  (forall c, c ∈ l -> is_Some (h !! c)) ->
  exists i : nat,
    bucket_scan h it l i0 = Some (i0 + Z.of_nat i)
    /\ (i <= length l)%nat
    /\ (forall j c stored, (j < i)%nat -> l !! j = Some c -> h !! c = Some stored ->
          SEXP_deepcmp it stored = false)
    /\ ((i < length l)%nat ->
        exists c stored, l !! i = Some c /\ h !! c = Some stored
                         /\ SEXP_deepcmp it stored = true).
Proof.
  revert i0. induction l as [|c l IH]; intros i0 Hlive.
  - exists 0%nat. cbn. rewrite Z.add_0_r. repeat split; auto; lia.
  - destruct (Hlive c) as [stored Hc]; [left|].
    cbn [bucket_scan]. rewrite Hc.
    destruct (SEXP_deepcmp it stored) eqn:Hcmp.
    + exists 0%nat. rewrite Z.add_0_r. repeat split; cbn; auto; try lia.
      intros _. eauto.
    + destruct (IH (i0 + 1)) as (i & Hscan & Hle & Hbefore & Hat).
      { intros c' Hc'. apply Hlive. now right. }
      exists (S i). split; [rewrite Hscan; f_equal; lia|].
      split; [cbn; lia|]. split.
      * intros [|j] c' stored' Hj Hl Hh; cbn in Hl.
        -- injection Hl as <-. congruence.
        -- apply (Hbefore j c' stored'); auto. lia.
      * intros Hlt. cbn in Hlt. destruct Hat as (c' & stored' & Hl & Hh & Hcmp'); [lia|].
        exists c', stored'. auto.
Qed.

Lemma cobj_add_item_ok (dest x : Z) (Q : Z -> world -> Prop) (E : world -> Prop)
    (w : world) :
  calls_succeed w ->
  (forall w',
     cobjs w' = <[dest := default [] (cobjs w !! dest) ++ [x]]> (cobjs w) ->
     heap w' = heap w -> tree w' = tree w -> next_ID w' = next_ID w ->
     iq w' = iq w -> (forall y, frees y (trace w') = frees y (trace w)) ->
     calls_succeed w' -> Q 0 w') ->
  wp (cobj_add_item dest x) Q E w.
Proof.
  intros Hok HQ. unfold cobj_add_item.
  apply wp_bind, wp_syscall_ok; [exact Hok|]. cbn [Z.eqb].
  apply wp_bind, wp_modify, wp_ret. apply HQ; try reflexivity.
  - intros y. cbn [trace set_cobjs log set_trace pop_tape set_tape].
    rewrite frees_app. simpl. lia.
  - exact (calls_succeed_tl w Hok).
Qed.

(** A hit: the scan stopped at a stored item. *)
Lemma handle_hit (entry : iqpair) (w : world) (it : sexp_item content)
    (cached : list Z) (i : nat) (canonical : Z) :
  calls_succeed w ->
  cobj entry <> NULL ->
  heap w !! p_item (p entry) = Some it ->
  tree w !! SEXP_ID_v it = Some cached ->
  bucket_scan (heap w) it cached 0 = Some (Z.of_nat i) ->
  cached !! i = Some canonical ->
  exists w',
    worker_handle entry w
    = Done (W_continue, {| cobj := cobj entry; p := P_item canonical |}) w'
    /\ hit_effect (cobj entry) (p_item (p entry)) canonical w w'.
Proof.
  intros Hok Hc Hit Htree Hscan Hcanon.
  apply Z.eqb_neq in Hc.
  assert (Hlt : (i < length cached)%nat) by (apply lookup_lt_Some in Hcanon; exact Hcanon).
  assert (Hwp : wp (worker_handle entry)
            (fun r w' => r = (W_continue, {| cobj := cobj entry; p := P_item canonical |})
                         /\ hit_effect (cobj entry) (p_item (p entry)) canonical w w')
            (fun _ => False) w).
  { unfold worker_handle. rewrite Hc.
    apply wp_bind, wp_get. rewrite Hit. cbv zeta. rewrite Htree, Hscan.
    replace (Z.of_nat i =? Z.of_nat (length cached)) with false
      by (symmetry; apply Z.eqb_neq; lia).
    rewrite Nat2Z.id, Hcanon.
    apply wp_bind, wp_bind. unfold SEXP_free. apply wp_modify, wp_ret.
    cbn [cobj p p_item].
    apply wp_bind, cobj_add_item_ok.
    { exact Hok. }
    intros w' Hcobjs Hheap Htree' Hnext Hiq Hfrees Hok'.
    cbn [Z.eqb negb]. apply wp_ret. split; [reflexivity|].
    unfold hit_effect. cbn [cobjs heap tree next_ID iq trace log set_trace set_heap]
      in Hcobjs, Hheap, Htree', Hnext, Hiq, Hfrees.
    repeat split; auto.
    rewrite Hfrees, frees_app. cbn [frees]. rewrite Z.eqb_refl. lia. }
  apply wp_done in Hwp. destruct Hwp as (r & w' & Hrun & -> & Heff). eauto.
Qed.

(** A miss: the fingerprint is new, or no stored item of its bucket
    compares equal. *)
Lemma handle_miss (entry : iqpair) (w : world) (it : sexp_item content) :
  calls_succeed w ->
  cobj entry <> NULL ->
  p_item (p entry) <> NULL ->
  heap w !! p_item (p entry) = Some it ->
  0 <= next_ID w < 2 ^ 32 ->
  0 <= getpid < 2 ^ 32 ->
  (tree w !! SEXP_ID_v it = None
   \/ exists cached, tree w !! SEXP_ID_v it = Some cached
        /\ bucket_scan (heap w) it cached 0 = Some (Z.of_nat (length cached))
        /\ Z.of_nat (length cached) + 1 < 2 ^ 16) ->
  exists w',
    worker_handle entry w = Done (W_continue, entry) w'
    /\ miss_effect (cobj entry) (p_item (p entry)) it w w'.
Proof.
  intros Hok Hc Hitem Hit Hid Hpid Hmiss.
  apply Z.eqb_neq in Hc.
  assert (Hwp : wp (worker_handle entry)
            (fun r w' => r = (W_continue, entry)
                         /\ miss_effect (cobj entry) (p_item (p entry)) it w w')
            (fun _ => False) w).
  { unfold worker_handle. rewrite Hc.
    apply wp_bind, wp_get. rewrite Hit. cbv zeta.
    apply wp_bind.
    destruct Hmiss as [Hnone | (cached & Hsome & Hscan & Hlen)].
    - rewrite Hnone. apply wp_bind.
      eapply wp_mono; [apply (setID_wp w _ _ it Hitem Hit Hid Hpid) | | ].
      2: { intros w1 [Hno _]. now apply Hno. }
      intros ? w1 (Hheap & Hnext & Htree1 & Hcobjs & Hiq & Hok1 & Hfrees).
      cbv beta. unfold rbt_add.
      apply wp_bind, wp_bind, wp_get. rewrite Htree1, Hnone.
      apply wp_bind, wp_syscall_ok; [auto|]. cbn [Z.eqb].
      apply wp_bind, wp_modify, wp_ret. cbn [Z.eqb negb]. apply wp_ret.
      apply wp_bind, cobj_add_item_ok.
      { apply calls_succeed_popped. auto. }
      intros w' Hcobjs' Hheap' Htree' Hnext' Hiq' Hfrees' Hok'.
      cbn [Z.eqb negb]. apply wp_ret. split; [reflexivity|].
      unfold miss_effect.
      cbn [cobjs heap tree next_ID iq trace log set_trace set_tree pop_tape set_tape]
        in Hcobjs', Hheap', Htree', Hnext', Hiq', Hfrees'.
      rewrite Hnone. change (default [] None ++ [p_item (p entry)])
        with [p_item (p entry)].
      repeat split; try congruence.
      intros x. rewrite Hfrees', frees_app, Hfrees. simpl. lia.
    - rewrite Hsome, Hscan, Z.eqb_refl.
      replace (wrap16 (Z.of_nat (length cached) + 1) =? 0) with false
        by (symmetry; apply Z.eqb_neq; rewrite wrap16_small; lia).
      apply wp_bind, wp_modify, wp_bind.
      eapply wp_mono; [apply (setID_wp _ _ _ it Hitem); [exact Hit | exact Hid | exact Hpid] | | ].
      2: { intros w1 [Hno _]. now apply Hno. }
      intros ? w1 (Hheap & Hnext & Htree1 & Hcobjs & Hiq & Hok1 & Hfrees).
      cbv beta. apply wp_ret.
      apply wp_bind, cobj_add_item_ok.
      { auto. }
      intros w' Hcobjs' Hheap' Htree' Hnext' Hiq' Hfrees' Hok'.
      cbn [Z.eqb negb]. apply wp_ret. split; [reflexivity|].
      unfold miss_effect.
      cbn [cobjs heap tree next_ID iq trace log set_trace set_tree pop_tape set_tape]
        in *.
      rewrite Hsome. change (default [] (Some cached)) with cached.
      repeat split; congruence. }
  apply wp_done in Hwp. destruct Hwp as (r & w' & Hrun & -> & Heff). eauto.
Qed.

End Insert.

(** ** The state of the cache along a run of the worker *)

Section Dedup.
Context `{Collaborators} `{Platform}.
Context (Hlaw : lawful).

Lemma count_fp_app (f : Z) (l1 l2 : list (Z * sexp_item content)) :
  count_fp f (l1 ++ l2) = (count_fp f l1 + count_fp f l2)%nat.
Proof.
  induction l1 as [|x l1 IH]; [reflexivity|]. cbn [app count_fp]. rewrite IH. lia.
Qed.

Lemma deepcmp_stamped (a b : sexp_item content) (s : string) :
  SEXP_deepcmp a (mk_item (body b) s) = SEXP_deepcmp a b.
Proof. now apply deepcmp_body. Qed.

Lemma ID_stamped (a : sexp_item content) (s : string) :
  SEXP_ID_v (mk_item (body a) s) = SEXP_ID_v a.
Proof. now apply ID_body. Qed.

(** A hit keeps the invariant; the appended item is the stored one. *)
Lemma dedup_inv_hit (w w' : world) (done : list (Z * sexp_item content))
    (reps : list Z) (dest item canonical : Z) (it stored : sexp_item content)
    (cached : list Z) :
  dedup_inv w done reps ->
  item ∉ map fst done ->
  tree w !! SEXP_ID_v it = Some cached ->
  canonical ∈ cached ->
  heap w !! canonical = Some stored ->
  SEXP_deepcmp it stored = true ->
  hit_effect dest item canonical w w' ->
  dedup_inv w' (done ++ [(item, it)]) (reps ++ [canonical]).
Proof.
  intros Hinv Hfresh Htree Hin Hstored Hcmp (Hheap & _ & Htree' & Hnext & _).
  assert (Hkeep : forall f b c, tree w !! f = Some b -> c ∈ b ->
                   heap w' !! c = heap w !! c).
  { intros f b c Hb Hc. rewrite Hheap. apply lookup_delete_ne.
    intros ->. apply Hfresh. exact (inv_origin _ _ _ Hinv f b c Hb Hc). }
  constructor.
  - rewrite !length_app. cbn. now rewrite (inv_len _ _ _ Hinv).
  - rewrite Hnext. exact (inv_range _ _ _ Hinv).
  - intros f b c Hb Hc. rewrite Htree' in Hb.
    rewrite (Hkeep f b c Hb Hc). exact (inv_live _ _ _ Hinv f b c Hb Hc).
  - intros f b i j ci cj iti itj Hb Hi Hj Hci Hcj. rewrite Htree' in Hb.
    rewrite (Hkeep f b ci Hb) in Hci by (apply list_elem_of_lookup; eauto).
    rewrite (Hkeep f b cj Hb) in Hcj by (apply list_elem_of_lookup; eauto).
    exact (inv_distinct _ _ _ Hinv f b i j ci cj iti itj Hb Hi Hj Hci Hcj).
  - intros f b Hb. rewrite Htree' in Hb. rewrite count_fp_app.
    pose proof (inv_count _ _ _ Hinv f b Hb). lia.
  - intros k pit r Hk Hr. rewrite Htree'.
    destruct (decide (k < length done)%nat) as [Hlt|Hge].
    + rewrite lookup_app_l in Hk by exact Hlt.
      rewrite lookup_app_l in Hr by (rewrite (inv_len _ _ _ Hinv); exact Hlt).
      destruct (inv_reps _ _ _ Hinv k pit r Hk Hr) as (b & itr & Hb & Hrb & Hhr & Hc).
      exists b, itr. rewrite (Hkeep _ b r Hb Hrb). auto.
    + assert (k = length done).
      { apply lookup_lt_Some in Hk. rewrite length_app in Hk. cbn in Hk. lia. }
      subst k. rewrite list_lookup_middle in Hk by reflexivity.
      rewrite list_lookup_middle in Hr by (now rewrite (inv_len _ _ _ Hinv)).
      injection Hk as <-. injection Hr as <-. cbn [snd].
      exists cached, stored. rewrite (Hkeep _ cached canonical Htree Hin). auto.
  - intros f b c Hb Hc. rewrite Htree' in Hb. rewrite map_app.
    apply elem_of_app. left. exact (inv_origin _ _ _ Hinv f b c Hb Hc).
Qed.

Lemma lookup_snoc_cases {A} (l : list A) (x : A) (i : nat) (y : A) :
  (l ++ [x]) !! i = Some y ->
  (l !! i = Some y /\ (i < length l)%nat) \/ (i = length l /\ y = x).
Proof.
  intros Hl. destruct (decide (i < length l)%nat) as [Hlt|Hge].
  - rewrite lookup_app_l in Hl by exact Hlt. auto.
  - assert (i = length l).
    { apply lookup_lt_Some in Hl. rewrite length_app in Hl. cbn in Hl. lia. }
    subst i. rewrite list_lookup_middle in Hl by reflexivity.
    injection Hl as <-. auto.
Qed.

Lemma default_bucket (t : gmap Z (list Z)) (f c : Z) :
  c ∈ default [] (t !! f) -> exists b, t !! f = Some b /\ c ∈ b.
Proof.
  destruct (t !! f) as [b|]; cbn; [eauto|]. intros Hc. inversion Hc.
Qed.

(** A miss keeps the invariant; the appended item is the submitted one. *)
Lemma dedup_inv_miss (w w' : world) (done : list (Z * sexp_item content))
    (reps : list Z) (dest item : Z) (it : sexp_item content) :
  dedup_inv w done reps ->
  item ∉ map fst done ->
  (forall cached c stored,
     tree w !! SEXP_ID_v it = Some cached -> c ∈ cached ->
     heap w !! c = Some stored -> SEXP_deepcmp it stored = false) ->
  miss_effect dest item it w w' ->
  dedup_inv w' (done ++ [(item, it)]) (reps ++ [item]).
Proof.
  intros Hinv Hfresh Hnomatch (Hheap & _ & Htree' & Hnext & _).
  set (f0 := SEXP_ID_v it) in *.
  set (bucket := default [] (tree w !! f0)) in *.
  set (stamped := mk_item (body it)
         (stamp_spec getpid (fst (mint HAVE_ATOMIC_FUNCTIONS (next_ID w))))) in *.
  assert (Hold : forall f b c, tree w !! f = Some b -> c ∈ b -> c <> item).
  { intros f b c Hb Hc Heq. apply Hfresh. rewrite <- Heq.
    exact (inv_origin _ _ _ Hinv f b c Hb Hc). }
  assert (Hkeep : forall c, c <> item -> heap w' !! c = heap w !! c).
  { intros c Hc. rewrite Hheap. now apply lookup_insert_ne. }
  assert (Hnew : heap w' !! item = Some stamped).
  { rewrite Hheap. apply lookup_insert_eq. }
  assert (Hbucket : forall c, c ∈ bucket -> tree w !! f0 = Some bucket /\ c <> item).
  { intros c Hc. destruct (default_bucket _ _ _ Hc) as (b & Hb & Hcb).
    assert (bucket = b) by (unfold bucket; now rewrite Hb). subst b.
    split; [exact Hb | exact (Hold _ _ _ Hb Hcb)]. }
  assert (Hsplit : forall f b, tree w' !! f = Some b ->
            (f = f0 /\ b = bucket ++ [item]) \/ (f <> f0 /\ tree w !! f = Some b)).
  { intros f b. rewrite Htree', lookup_insert. case_decide.
    - intros [= <-]. left. auto.
    - intros Hb. right. auto. }
  constructor.
  - rewrite !length_app. cbn. now rewrite (inv_len _ _ _ Hinv).
  - rewrite Hnext. apply mint_next_range.
  - intros f b c Hb Hc. destruct (Hsplit f b Hb) as [[-> ->] | [Hne Hb']].
    + apply elem_of_app in Hc. destruct Hc as [Hc|Hc].
      * destruct (Hbucket c Hc) as [Hb0 Hci]. rewrite (Hkeep c Hci).
        exact (inv_live _ _ _ Hinv f0 bucket c Hb0 Hc).
      * apply list_elem_of_singleton in Hc. subst c.
        exists stamped. split; [exact Hnew | apply ID_stamped].
    + rewrite (Hkeep c (Hold _ _ _ Hb' Hc)).
      exact (inv_live _ _ _ Hinv f b c Hb' Hc).
  - intros f b i j ci cj iti itj Hb Hi Hj Hci Hcj Hcmp.
    destruct (Hsplit f b Hb) as [[-> ->] | [Hne Hb']].
    + destruct (lookup_snoc_cases _ _ _ _ Hi) as [[Hi' Hil] | [-> ->]];
      destruct (lookup_snoc_cases _ _ _ _ Hj) as [[Hj' Hjl] | [-> ->]].
      * assert (Hcib : ci ∈ bucket) by (apply list_elem_of_lookup; eauto).
        assert (Hcjb : cj ∈ bucket) by (apply list_elem_of_lookup; eauto).
        destruct (Hbucket ci Hcib) as [Hb0 Hnci].
        destruct (Hbucket cj Hcjb) as [_ Hncj].
        rewrite (Hkeep ci Hnci) in Hci. rewrite (Hkeep cj Hncj) in Hcj.
        exact (inv_distinct _ _ _ Hinv f0 bucket i j ci cj iti itj
                 Hb0 Hi' Hj' Hci Hcj Hcmp).
      * assert (Hcib : ci ∈ bucket) by (apply list_elem_of_lookup; eauto).
        destruct (Hbucket ci Hcib) as [Hb0 Hnci].
        rewrite (Hkeep ci Hnci) in Hci. rewrite Hnew in Hcj. injection Hcj as <-.
        unfold stamped in Hcmp. rewrite deepcmp_stamped in Hcmp.
        rewrite (deepcmp_sym Hlaw) in Hcmp.
        rewrite (Hnomatch bucket ci iti Hb0 Hcib Hci) in Hcmp. discriminate.
      * assert (Hcjb : cj ∈ bucket) by (apply list_elem_of_lookup; eauto).
        destruct (Hbucket cj Hcjb) as [Hb0 Hncj].
        rewrite (Hkeep cj Hncj) in Hcj. rewrite Hnew in Hci. injection Hci as <-.
        unfold stamped in Hcmp. rewrite (deepcmp_sym Hlaw), deepcmp_stamped in Hcmp.
        rewrite (deepcmp_sym Hlaw) in Hcmp.
        rewrite (Hnomatch bucket cj itj Hb0 Hcjb Hcj) in Hcmp. discriminate.
      * reflexivity.
    + rewrite (Hkeep ci) in Hci
        by (apply (Hold _ _ _ Hb'), list_elem_of_lookup; eauto).
      rewrite (Hkeep cj) in Hcj
        by (apply (Hold _ _ _ Hb'), list_elem_of_lookup; eauto).
      exact (inv_distinct _ _ _ Hinv f b i j ci cj iti itj Hb' Hi Hj Hci Hcj Hcmp).
  - intros f b Hb. rewrite count_fp_app. cbn [count_fp snd].
    destruct (Hsplit f b Hb) as [[-> ->] | [Hne Hb']].
    + fold f0. rewrite Z.eqb_refl, length_app. cbn [length].
      assert (length bucket <= count_fp f0 done)%nat; [|lia].
      unfold bucket. destruct (tree w !! f0) as [b|] eqn:Hb0; cbn; [|lia].
      exact (inv_count _ _ _ Hinv f0 b Hb0).
    + pose proof (inv_count _ _ _ Hinv f b Hb'). lia.
  - intros k pit r Hk Hr.
    destruct (lookup_snoc_cases _ _ _ _ Hk) as [[Hk' Hkl] | [-> ->]].
    + rewrite lookup_app_l in Hr by (rewrite (inv_len _ _ _ Hinv); exact Hkl).
      destruct (inv_reps _ _ _ Hinv k pit r Hk' Hr) as (b & itr & Hb & Hrb & Hhr & Hc).
      pose proof (Hold _ _ _ Hb Hrb) as Hnr.
      destruct (decide (SEXP_ID_v (snd pit) = f0)) as [Hf|Hf].
      * exists (bucket ++ [item]), itr. rewrite Htree', Hf, lookup_insert_eq.
        rewrite (Hkeep r Hnr). repeat split; auto.
        apply elem_of_app. left.
        unfold bucket. rewrite <- Hf, Hb. exact Hrb.
      * exists b, itr. rewrite Htree', lookup_insert_ne by auto.
        rewrite (Hkeep r Hnr). auto.
    + rewrite list_lookup_middle in Hr by (now rewrite (inv_len _ _ _ Hinv)).
      injection Hr as <-. cbn [snd]. fold f0.
      exists (bucket ++ [item]), stamped. rewrite Htree', lookup_insert_eq.
      repeat split; auto.
      * apply elem_of_app. right. now apply list_elem_of_singleton.
      * unfold stamped. rewrite deepcmp_stamped. apply (deepcmp_refl Hlaw).
  - intros f b c Hb Hc. rewrite map_app. apply elem_of_app.
    destruct (Hsplit f b Hb) as [[-> ->] | [Hne Hb']].
    + apply elem_of_app in Hc. destruct Hc as [Hc|Hc].
      * left. destruct (Hbucket c Hc) as [Hb0 _].
        exact (inv_origin _ _ _ Hinv f0 bucket c Hb0 Hc).
      * right. apply list_elem_of_singleton in Hc. subst c. cbn. left.
    + left. exact (inv_origin _ _ _ Hinv f b c Hb' Hc).
Qed.

Lemma stamp_inv_hit (n0 : nat) (w w' : world) (done : list (Z * sexp_item content))
    (canon : list Z) (dest item canonical : Z) (it : sexp_item content) :
  stamp_inv n0 w done canon ->
  item ∉ map fst done ->
  hit_effect dest item canonical w w' ->
  stamp_inv n0 w' (done ++ [(item, it)]) canon.
Proof.
  intros Hinv Hfresh (Hheap & _ & Htree' & Hnext & _).
  constructor.
  - rewrite Hnext. exact (canon_next _ _ _ _ Hinv).
  - rewrite length_app. pose proof (canon_len _ _ _ _ Hinv). lia.
  - intros f b c Hb Hc. rewrite Htree' in Hb. exact (canon_in _ _ _ _ Hinv f b c Hb Hc).
  - intros c Hc. rewrite map_app. apply elem_of_app. left.
    exact (canon_origin _ _ _ _ Hinv c Hc).
  - intros j c Hj. rewrite Hheap, lookup_delete_ne.
    + exact (canon_stamp _ _ _ _ Hinv j c Hj).
    + intros Heq. apply Hfresh. rewrite Heq.
      apply (canon_origin _ _ _ _ Hinv), list_elem_of_lookup. eauto.
Qed.

Lemma mint_of_call (n : nat) :
  Z.of_nat n + 1 < 2 ^ 32 ->
  fst (mint HAVE_ATOMIC_FUNCTIONS (Z.of_nat n))
  = local_id_of_call HAVE_ATOMIC_FUNCTIONS n
  /\ snd (mint HAVE_ATOMIC_FUNCTIONS (Z.of_nat n)) = Z.of_nat (S n).
Proof.
  intros Hn. unfold mint, local_id_of_call.
  destruct HAVE_ATOMIC_FUNCTIONS; cbn [fst snd]; rewrite ?Z.add_0_r;
    rewrite ?wrap32_small by lia; split; lia.
Qed.

Lemma stamp_inv_miss (n0 : nat) (w w' : world) (done : list (Z * sexp_item content))
    (canon : list Z) (dest item : Z) (it : sexp_item content) :
  stamp_inv n0 w done canon ->
  item ∉ map fst done ->
  Z.of_nat (n0 + length canon) + 1 < 2 ^ 32 ->
  miss_effect dest item it w w' ->
  stamp_inv n0 w' (done ++ [(item, it)]) (canon ++ [item]).
Proof.
  intros Hinv Hfresh Hroom (Hheap & _ & Htree' & Hnext & _).
  rewrite (canon_next _ _ _ _ Hinv) in Hheap, Hnext.
  destruct (mint_of_call (n0 + length canon) Hroom) as [Hid Hnx].
  rewrite Hid in Hheap. rewrite Hnx in Hnext.
  constructor.
  - rewrite Hnext, length_app. cbn [length]. f_equal. lia.
  - rewrite !length_app. cbn [length]. pose proof (canon_len _ _ _ _ Hinv). lia.
  - intros f b c Hb Hc. rewrite Htree', lookup_insert in Hb.
    apply elem_of_app. case_decide.
    + injection Hb as <-. apply elem_of_app in Hc. destruct Hc as [Hc|Hc].
      * left. destruct (default_bucket _ _ _ Hc) as (b & Hb & Hcb).
        exact (canon_in _ _ _ _ Hinv _ b c Hb Hcb).
      * now right.
    + left. exact (canon_in _ _ _ _ Hinv f b c Hb Hc).
  - intros c Hc. rewrite map_app. apply elem_of_app.
    apply elem_of_app in Hc. destruct Hc as [Hc|Hc].
    + left. exact (canon_origin _ _ _ _ Hinv c Hc).
    + right. apply list_elem_of_singleton in Hc. subst c. cbn. left.
  - intros j c Hj. destruct (lookup_snoc_cases _ _ _ _ Hj) as [[Hj' Hjl] | [-> ->]].
    + rewrite Hheap, lookup_insert_ne.
      * exact (canon_stamp _ _ _ _ Hinv j c Hj').
      * intros Heq. apply Hfresh. rewrite Heq.
        apply (canon_origin _ _ _ _ Hinv), list_elem_of_lookup. eauto.
    + rewrite Hheap, lookup_insert_eq. eexists. split; [reflexivity|]. reflexivity.
Qed.

(** One insert handled by the worker, from a state of the run. *)
Lemma handle_step (w : world) (done : list (Z * sexp_item content))
    (reps : list Z) (dest q : Z) (it : sexp_item content) :
  dedup_inv w done reps ->
  calls_succeed w ->
  dest <> NULL -> q <> NULL ->
  0 <= getpid < 2 ^ 32 ->
  q ∉ map fst done ->
  heap w !! q = Some it ->
  Z.of_nat (count_fp (SEXP_ID_v it) (done ++ [(q, it)])) < 65535 ->
  exists w1 rep,
    worker_handle {| cobj := dest; p := P_item q |} w
    = Done (W_continue, {| cobj := dest; p := P_item rep |}) w1
    /\ dedup_inv w1 (done ++ [(q, it)]) (reps ++ [rep])
    /\ calls_succeed w1
    /\ cobjs w1 = <[dest := default [] (cobjs w !! dest) ++ [rep]]> (cobjs w)
    /\ (forall x, x <> q -> heap w1 !! x = heap w !! x)
    /\ (forall n0 canon, stamp_inv n0 w done canon ->
          Z.of_nat (n0 + length done) + 1 < 2 ^ 32 ->
          exists canon', stamp_inv n0 w1 (done ++ [(q, it)]) canon').
Proof.
  intros Hinv Hok Hdest Hq Hpid Hfresh Hit Hcount.
  set (e := {| cobj := dest; p := P_item q |}).
  assert (Hmiss : forall w1, miss_effect dest q it w w1 ->
            (forall cached c stored,
               tree w !! SEXP_ID_v it = Some cached -> c ∈ cached ->
               heap w !! c = Some stored -> SEXP_deepcmp it stored = false) ->
            worker_handle e w = Done (W_continue, e) w1 ->
            exists w1 rep,
              worker_handle e w = Done (W_continue, {| cobj := dest; p := P_item rep |}) w1
              /\ dedup_inv w1 (done ++ [(q, it)]) (reps ++ [rep])
              /\ calls_succeed w1
              /\ cobjs w1 = <[dest := default [] (cobjs w !! dest) ++ [rep]]> (cobjs w)
              /\ (forall x, x <> q -> heap w1 !! x = heap w !! x)
              /\ (forall n0 canon, stamp_inv n0 w done canon ->
                    Z.of_nat (n0 + length done) + 1 < 2 ^ 32 ->
                    exists canon', stamp_inv n0 w1 (done ++ [(q, it)]) canon')).
  { intros w1 Heff Hnomatch Hrun. exists w1, q. split; [exact Hrun|].
    split; [exact (dedup_inv_miss _ _ _ _ _ _ _ Hinv Hfresh Hnomatch Heff)|].
    pose proof Heff as (Hheap & _ & _ & _ & Hcobjs & _ & Hok1).
    repeat split; auto.
    - intros x Hx. rewrite Hheap. now apply lookup_insert_ne.
    - intros n0 canon Hst Hroom. exists (canon ++ [q]).
      pose proof (canon_len _ _ _ _ Hst).
      eapply stamp_inv_miss; [exact Hst | exact Hfresh | lia | exact Heff]. }
  destruct (tree w !! SEXP_ID_v it) as [cached|] eqn:Htree.
  - destruct (bucket_scan_spec (heap w) it cached 0) as (i & Hscan & Hle & Hbefore & Hat).
    { intros c Hc. destruct (inv_live _ _ _ Hinv _ _ c Htree Hc) as (itc & Hitc & _).
      eauto. }
    rewrite Z.add_0_l in Hscan.
    destruct (decide (i < length cached)%nat) as [Hlt|Hge].
    + destruct (Hat Hlt) as (c & stored & Hc & Hstored & Hcmp).
      destruct (handle_hit e w it cached i c Hok Hdest Hit Htree Hscan Hc)
        as (w1 & Hrun & Heff).
      assert (Hin : c ∈ cached) by (apply list_elem_of_lookup; eauto).
      exists w1, c. split; [exact Hrun|].
      split; [exact (dedup_inv_hit _ _ _ _ _ _ _ _ _ _ Hinv Hfresh Htree Hin Hstored Hcmp Heff)|].
      pose proof Heff as (Hheap & _ & _ & _ & Hcobjs & _ & Hok1).
      repeat split; auto.
      * intros x Hx. rewrite Hheap. now apply lookup_delete_ne.
      * intros n0 canon Hst _. exists canon.
        exact (stamp_inv_hit _ _ _ _ _ _ _ _ it Hst Hfresh Heff).
    + assert (i = length cached) by lia. subst i.
      assert (Hlen : Z.of_nat (length cached) + 1 < 2 ^ 16).
      { pose proof (inv_count _ _ _ Hinv _ _ Htree) as Hc.
        rewrite count_fp_app in Hcount. cbn [count_fp snd] in Hcount.
        rewrite Z.eqb_refl in Hcount. lia. }
      destruct (handle_miss e w it Hok Hdest Hq Hit (inv_range _ _ _ Hinv) Hpid)
        as (w1 & Hrun & Heff).
      { right. exists cached. auto. }
      apply (Hmiss w1 Heff); [|exact Hrun].
      intros cached' c stored [= <-] Hc Hstored.
      apply list_elem_of_lookup in Hc. destruct Hc as [j Hj].
      apply (Hbefore j c stored); auto. apply lookup_lt_Some in Hj. exact Hj.
  - destruct (handle_miss e w it Hok Hdest Hq Hit (inv_range _ _ _ Hinv) Hpid)
      as (w1 & Hrun & Heff).
    { left. exact Htree. }
    apply (Hmiss w1 Heff); [|exact Hrun].
    intros cached c stored Hcached. discriminate.
Qed.

Lemma count_fp_prefix (f : Z) (l1 l2 : list (Z * sexp_item content)) :
  (count_fp f l1 <= count_fp f (l1 ++ l2))%nat.
Proof. rewrite count_fp_app. lia. Qed.


End Dedup.

(** ** Canonical items and their stamps *)

Lemma decimal_inj (a b : Z) : 0 <= a -> 0 <= b -> decimal a = decimal b -> a = b.
Proof.
  intros Ha Hb Heq. unfold decimal in Heq.
  assert (Hnn : forall n, N.to_uint n <> Decimal.Nil).
  { intros [|q]; [discriminate|]. apply DecimalPos.Unsigned.to_uint_nonnil. }
  assert (Hu : Some (N.to_uint (Z.to_N a)) = Some (N.to_uint (Z.to_N b))).
  { rewrite <- (NilZero.usu _ (Hnn (Z.to_N a))), <- (NilZero.usu _ (Hnn (Z.to_N b))).
    now rewrite Heq. }
  injection Hu as Hu. apply DecimalN.Unsigned.to_uint_inj in Hu. lia.
Qed.


Section Canonical.
Context `{Collaborators} `{Platform}.
Context (Hlaw : lawful).

Lemma dedup_inv_empty (w : world) :
  tree w = ∅ -> 0 <= next_ID w < 2 ^ 32 -> dedup_inv w [] [].
Proof.
  intros Ht Hn. constructor; auto.
  all: try (intros f b; rewrite Ht, lookup_empty; discriminate).
  all: intros k pit r Hk; discriminate.
Qed.




End Canonical.

Section Handler_runs.
Context `{Collaborators} `{Platform}.



End Handler_runs.

(** ** The concrete instance *)

Lemma pair_collaborators_lawful : @lawful pair_collaborators.
Proof.
  constructor; cbn.
  - intros a. now rewrite !Z.eqb_refl.
  - intros a b. now rewrite (Z.eqb_sym (fst (body a))), (Z.eqb_sym (snd (body a))).
  - intros a b c Hab Hbc.
    apply andb_true_iff in Hab. destruct Hab as [H1 H2].
    apply andb_true_iff in Hbc. destruct Hbc as [H3 H4].
    apply Z.eqb_eq in H1, H2, H3, H4. apply andb_true_iff.
    split; apply Z.eqb_eq; congruence.
  - intros a a' b b' Ha Hb. now rewrite Ha, Hb.
  - intros a a' Ha. now rewrite Ha.
  - intros a b Hab. apply andb_true_iff in Hab. destruct Hab as [H1 _].
    now apply Z.eqb_eq in H1.
Qed.

Lemma count_fp_le_length `{Collaborators} (f : Z) (l : list (Z * sexp_item content)) :
  (count_fp f l <= length l)%nat.
Proof.
  induction l as [|x l IH]; [reflexivity|]. cbn [count_fp length].
  destruct (SEXP_ID_v (snd x) =? f); lia.
Qed.

(** Scenario: A, B and A again are submitted, A and B colliding on the
    fingerprint.  The destination holds three references, the first and
    the third to the same stored item; B has a stamp of its own. *)
Example collision_scenario :
  let C := pair_collaborators in
  let P := small_platform true true 4 in
  let w' := final (worker_handle_all (inserts 50 [101; 102; 103])
                     (new_world three_items [])) in
  cobjs w' !! 50 = Some [101; 102; 101]
  /\ heap w' !! 101 = Some (mk_item (7, 1) "1000420")
  /\ heap w' !! 102 = Some (mk_item (7, 2) "1000421")
  /\ heap w' !! 103 = None
  /\ tree w' !! 7 = Some [101; 102].
Proof. vm_compute. repeat split; reflexivity. Qed.

Lemma three_items_submitted :
  let C := pair_collaborators in
  let P := small_platform true true 4 in
  let items := [(101, fresh_item 7 1); (102, fresh_item 7 2); (103, fresh_item 7 1)] in
  let w := new_world three_items [] in
  50 <> NULL /\ calls_succeed w /\ tree w = ∅ /\ next_ID w = Z.of_nat 0
  /\ NoDup (map fst items)
  /\ (forall pit, pit ∈ items ->
        fst pit <> NULL /\ heap w !! fst pit = Some (snd pit))
  /\ (forall f, Z.of_nat (count_fp f items) < 65535).
Proof.
  intros C P items w. repeat split.
  - unfold NULL. lia.
  - constructor.
  - cbn [map fst items].
    repeat (apply NoDup_cons; split;
            [rewrite ?elem_of_cons, elem_of_nil; lia|]).
    apply NoDup_nil_2.
  - repeat (apply elem_of_cons in H; destruct H as [->|H]);
      try (unfold NULL; cbn; lia). inversion H.
  - repeat (apply elem_of_cons in H; destruct H as [->|H]);
      try reflexivity. inversion H.
  - intros f. pose proof (count_fp_le_length f items) as Hle.
    cbn [length items] in Hle. lia.
Qed.



(** X13, on a cache that holds a submitted item and a barrier whose
    producer is waiting. *)
Lemma producers_store_well_tagged_entries_witness :
  let C := pair_collaborators in
  let P := small_platform true true 4 in
  let w := final (probe_icache_nop 1 900
                    (final (probe_icache_add 1 50 101 (new_world three_items [])))) in
  let e := {| cobj := NULL; p := P_cond 900 |} in
  (reachable w /\ queue (iq w) !! 1%nat = Some (Some e))
  /\ (cobj e = NULL <-> exists c, p e = P_cond c /\ c <> NULL)
  /\ (cobj e <> NULL <-> exists x, p e = P_item x /\ x <> NULL).
Proof.
  intros C P w e.
  assert (Hreach : reachable w).
  { apply reach_nop; [|unfold NULL; lia]. apply reach_add. apply reach_new. }
  assert (Hslot : queue (iq w) !! 1%nat = Some (Some e)) by reflexivity.
  split; [auto|].
  exact (@producers_store_well_tagged_entries C P w 1%nat e Hreach Hslot).
Defined.

(** ** More of the ring queue *)

Lemma queue_in_bounds_new (capacity : Z) :
  1 <= capacity -> queue_in_bounds (new_queue capacity).
Proof.
  intros Hc. unfold queue_in_bounds, new_queue; cbn.
  rewrite length_replicate. lia.
Qed.

Lemma queue_in_bounds_store (q : iqueue) (dest item cond : Z) :
  queue_max q < 2 ^ 16 - 1 ->
  queue_in_bounds q -> queue_has_room q = true ->
  queue_in_bounds (queue_store q dest item cond).
Proof.
  intros Hmax (Hlen & Hbeg & Hend & Hcnt) Hroom.
  unfold queue_has_room in Hroom. apply Z.leb_le in Hroom.
  unfold queue_in_bounds, queue_store; cbn.
  rewrite length_insert. rewrite (wrap16_small (queue_cnt q + 1)) by lia.
  repeat split; try lia.
  - destruct (queue_end q + 1 =? queue_max q); [lia|]. apply wrap16_range.
  - destruct (queue_end q + 1 =? queue_max q) eqn:He; [lia|].
    apply Z.eqb_neq in He. rewrite wrap16_small; lia.
Qed.

Lemma queue_in_bounds_extract (q : iqueue) :
  queue_max q < 2 ^ 16 - 1 ->
  queue_in_bounds q -> 0 < queue_cnt q ->
  queue_in_bounds (snd (queue_extract q)).
Proof.
  intros Hmax (Hlen & Hbeg & Hend & Hcnt) Hpos.
  unfold queue_in_bounds, queue_extract; cbn.
  rewrite (wrap16_small (queue_cnt q - 1)) by lia.
  rewrite (wrap16_small (queue_beg q + 1)) by lia.
  repeat split; try lia.
  - destruct (queue_end q =? queue_beg q); [lia|].
    destruct (queue_beg q + 1 =? queue_max q); lia.
  - destruct (queue_end q =? queue_beg q); [lia|].
    destruct (queue_beg q + 1 =? queue_max q) eqn:He; [lia|].
    apply Z.eqb_neq in He. lia.
Qed.

Lemma interfere_max (q : iqueue) (o : other) :
  queue_max (interfere q o) = queue_max q.
Proof.
  destruct o as [d i | c |]; cbn [interfere].
  - destruct ((d =? NULL) || (i =? NULL)); [reflexivity|].
    now destruct (queue_has_room q).
  - destruct (c =? NULL); [reflexivity|]. now destruct (queue_has_room q).
  - now destruct (0 <? queue_cnt q).
Qed.

Lemma queue_in_bounds_interfere (q : iqueue) (o : other) :
  queue_max q < 2 ^ 16 - 1 ->
  queue_in_bounds q -> queue_in_bounds (interfere q o).
Proof.
  intros Hmax Hq. destruct o as [d i | c |]; cbn [interfere].
  - destruct ((d =? NULL) || (i =? NULL)); [exact Hq|].
    destruct (queue_has_room q) eqn:Hr; [|exact Hq].
    now apply queue_in_bounds_store.
  - destruct (c =? NULL); [exact Hq|].
    destruct (queue_has_room q) eqn:Hr; [|exact Hq].
    now apply queue_in_bounds_store.
  - destruct (0 <? queue_cnt q) eqn:Hp; [|exact Hq].
    apply Z.ltb_lt in Hp. now apply queue_in_bounds_extract.
Qed.

(** X1.  Whatever the producers and the worker do to a new queue, each
    passing the test that guards its step, the head and the tail stay
    inside the array of slots and the count stays between 0 and the
    capacity plus one. *)
Theorem queue_stays_in_bounds (capacity : Z) (steps : list other) :
  1 <= capacity < 2 ^ 16 - 1 ->
  let q := foldl interfere (new_queue capacity) steps in
  queue_max q = capacity
  /\ length (queue q) = Z.to_nat capacity
  /\ 0 <= queue_beg q < capacity
  /\ 0 <= queue_end q < capacity
  /\ 0 <= queue_cnt q <= capacity + 1.
Proof.
  intros Hcap.
  assert (Hgen : forall q, queue_max q = capacity -> queue_in_bounds q ->
            queue_max (foldl interfere q steps) = capacity
            /\ queue_in_bounds (foldl interfere q steps)).
  { induction steps as [|o steps IH]; intros q Hm Hq; [auto|].
    cbn [foldl]. apply IH.
    - now rewrite interfere_max.
    - apply queue_in_bounds_interfere; [lia | exact Hq]. }
  destruct (Hgen (new_queue capacity) eq_refl) as [Hm (H1 & H2 & H3 & H4)].
  { apply queue_in_bounds_new. lia. }
  cbv zeta. rewrite Hm in H1, H2, H3, H4. auto.
Qed.

Lemma queue_stays_in_bounds_witness :
  let steps := [Other_submit 50 101; Other_submit 50 102; Other_extract;
                Other_nop 900; Other_submit 50 103; Other_submit 50 104;
                Other_submit 50 105; Other_submit 50 106] in
  let q := foldl interfere (new_queue 4) steps in
  1 <= 4 < 2 ^ 16 - 1
  /\ queue_max q = 4
  /\ length (queue q) = Z.to_nat 4
  /\ 0 <= queue_beg q < 4
  /\ 0 <= queue_end q < 4
  /\ 0 <= queue_cnt q <= 4 + 1.
Proof.
  intros steps q.
  assert (H : 1 <= 4 < 2 ^ 16 - 1) by lia.
  split; [exact H|]. exact (queue_stays_in_bounds 4 steps H).
Defined.

Lemma ring_offsets_differ (b m : Z) (j k : nat) :
  0 < m -> (j < k)%nat -> Z.of_nat k < m ->
  (b + Z.of_nat j) mod m <> (b + Z.of_nat k) mod m.
Proof.
  intros Hm Hjk Hk Heq.
  assert (Hd : ((b + Z.of_nat k) - (b + Z.of_nat j)) mod m = 0).
  { rewrite Zminus_mod, Heq, Z.sub_diag. now apply Z.mod_0_l, Z.neq_sym, Z.lt_neq. }
  replace (b + Z.of_nat k - (b + Z.of_nat j)) with (Z.of_nat k - Z.of_nat j) in Hd by lia.
  rewrite Z.mod_small in Hd; lia.
Qed.

Lemma ring_store (q : iqueue) (live : list iqpair) (dest item cond : Z) :
  ring q live ->
  Z.of_nat (length live) + 1 < queue_max q ->
  ring (queue_store q dest item cond)
       (live ++ [{| cobj := dest;
                    p := if item =? NULL then P_cond cond else P_item item |}]).
Proof.
  intros (Hlen & Hmax & Hbeg & Hcnt & Hlt & Hend & Hslots) Hroom.
  assert (Hendr : 0 <= queue_end q < queue_max q)
    by (rewrite Hend; apply Z.mod_pos_bound; lia).
  unfold ring, queue_store; cbn [queue queue_beg queue_end queue_cnt queue_max].
  rewrite length_insert, length_app. cbn [length].
  rewrite (wrap16_small (queue_cnt q + 1)) by lia.
  split; [exact Hlen|]. split; [exact Hmax|]. split; [exact Hbeg|].
  split; [lia|]. split; [lia|]. split.
  - rewrite Z.add_assoc, <- Zplus_mod_idemp_l, <- Hend.
    destruct (queue_end q + 1 =? queue_max q) eqn:He.
    + apply Z.eqb_eq in He. rewrite He. now rewrite Z_mod_same_full.
    + apply Z.eqb_neq in He. rewrite wrap16_small by lia.
      symmetry. apply Z.mod_small. lia.
  - intros j e Hj. destruct (lookup_snoc_cases _ _ _ _ Hj) as [[Hj' Hjl] | [-> ->]].
    + rewrite list_lookup_insert_ne; [now apply Hslots|].
      rewrite Hend, Hcnt. intros Heq. apply Z2Nat.inj in Heq.
      * symmetry in Heq. revert Heq. apply ring_offsets_differ; lia.
      * apply Z.mod_pos_bound. lia.
      * apply Z.mod_pos_bound. lia.
    + rewrite <- Hcnt, <- Hend. apply list_lookup_insert_eq. lia.
Qed.

Lemma ring_store_all (dest : Z) (items : list Z) :
  Forall (fun i => i <> NULL) items ->
  forall (q : iqueue) (live : list iqpair),
  ring q live ->
  Z.of_nat (length live) + Z.of_nat (length items) < queue_max q ->
  ring (store_all q dest items) (live ++ inserts dest items)
  /\ queue_max (store_all q dest items) = queue_max q.
Proof.
  induction 1 as [|i items Hi _ IH]; intros q live Hring Hroom.
  - cbn. rewrite app_nil_r. auto.
  - cbn [store_all inserts map]. cbn [length] in Hroom.
    pose proof (ring_store q live dest i NULL Hring) as Hs.
    replace (i =? NULL) with false in Hs by (symmetry; now apply Z.eqb_neq).
    destruct (IH (queue_store q dest i NULL)
                (live ++ [{| cobj := dest; p := P_item i |}])) as [Hr Hm].
    + apply Hs. lia.
    + rewrite length_app. cbn [length queue_store queue_max]. lia.
    + rewrite <- app_assoc in Hr. cbn [app] in Hr. auto.
Qed.

Lemma ring_extract (q : iqueue) (e : iqpair) (live : list iqpair) :
  ring q (e :: live) ->
  queue_slot q (fst (queue_extract q)) = Some e
  /\ ring (snd (queue_extract q)) live.
Proof.
  intros (Hlen & Hmax & Hbeg & Hcnt & Hlt & Hend & Hslots).
  cbn [length] in Hcnt, Hlt.
  assert (Hne : queue_end q <> queue_beg q).
  { rewrite Hend, Hcnt. rewrite <- (Z.mod_small (queue_beg q) (queue_max q)) at 2 by lia.
    replace (queue_beg q) with (queue_beg q + Z.of_nat 0) at 2 by lia.
    apply not_eq_sym, ring_offsets_differ; lia. }
  split.
  - unfold queue_slot, queue_extract; cbn [fst].
    specialize (Hslots 0%nat e eq_refl).
    rewrite Z.add_0_r, Z.mod_small in Hslots by lia. now rewrite Hslots.
  - unfold ring, queue_extract; cbn [snd queue queue_beg queue_end queue_cnt queue_max].
    apply Z.eqb_neq in Hne. rewrite Hne.
    rewrite (wrap16_small (queue_cnt q - 1)) by lia.
    rewrite (wrap16_small (queue_beg q + 1)) by lia.
    assert (Hbeg' : (if queue_beg q + 1 =? queue_max q then 0 else queue_beg q + 1)
                    = (queue_beg q + 1) mod queue_max q).
    { destruct (queue_beg q + 1 =? queue_max q) eqn:Hw.
      - apply Z.eqb_eq in Hw. rewrite Hw. now rewrite Z_mod_same_full.
      - apply Z.eqb_neq in Hw. symmetry. apply Z.mod_small. lia. }
    rewrite Hbeg'.
    split; [exact Hlen|]. split; [exact Hmax|].
    split; [apply Z.mod_pos_bound; lia|]. split; [lia|]. split; [lia|]. split.
    + rewrite Zplus_mod_idemp_l, Hend. f_equal. lia.
    + intros j e' Hj. rewrite Zplus_mod_idemp_l.
      specialize (Hslots (S j) e' Hj).
      replace (queue_beg q + 1 + Z.of_nat j) with (queue_beg q + Z.of_nat (S j)) by lia.
      exact Hslots.
Qed.

Lemma ring_extract_all (live : list iqpair) :
  forall q, ring q live ->
  fst (extract_all (length live) q) = map Some live
  /\ ring (snd (extract_all (length live) q)) [].
Proof.
  induction live as [|e live IH]; intros q Hring; [cbn; auto|].
  destruct (ring_extract q e live Hring) as [Hslot Hring'].
  destruct (IH _ Hring') as [Hes Hr].
  cbn [length extract_all fst snd map]. rewrite Hslot, Hes. auto.
Qed.

(** X2.  The queue is first-in, first-out as long as it does not get
    full: when it holds the entries [live] and producers store further
    items without filling it, the worker's extractions return the older
    entries and then the new ones, each once and in the order of their
    stores, and leave the queue empty. *)
Theorem queue_is_fifo (q : iqueue) (live : list iqpair) (dest : Z) (items : list Z) :
  ring q live ->
  Forall (fun i => i <> NULL) items ->
  Z.of_nat (length live) + Z.of_nat (length items) < queue_max q ->
  let r := extract_all (length live + length items) (store_all q dest items) in
  fst r = map Some (live ++ inserts dest items)
  /\ queue_cnt (snd r) = 0
  /\ queue_end (snd r) = queue_beg (snd r).
Proof.
  intros Hring Hitems Hroom.
  destruct (ring_store_all dest items Hitems q live Hring Hroom) as [Hr _].
  destruct (ring_extract_all _ _ Hr) as [Hes (_ & _ & Hbeg & Hcnt & _ & Hend & _)].
  assert (Hn : (length live + length items)%nat
               = length (live ++ inserts dest items)).
  { rewrite length_app. unfold inserts. now rewrite length_map. }
  cbv zeta. rewrite Hn. cbn [length] in Hcnt.
  split; [exact Hes|]. split; [exact Hcnt|].
  rewrite Hend, Hcnt, Z.add_0_r. apply Z.mod_small. exact Hbeg.
Qed.

Lemma ring_new_queue (capacity : Z) :
  1 <= capacity < 2 ^ 16 -> ring (new_queue capacity) [].
Proof.
  intros Hc. unfold ring, new_queue; cbn.
  rewrite length_replicate. repeat split; try lia.
  intros j e Hj. discriminate.
Qed.

Lemma queue_is_fifo_witness :
  let q := new_queue 4 in
  let r := extract_all (0 + 3) (store_all q 50 [101; 102; 103]) in
  (ring q [] /\ Forall (fun i => i <> NULL) [101; 102; 103]
   /\ Z.of_nat 0 + Z.of_nat 3 < queue_max q)
  /\ fst r = map Some ([] ++ inserts 50 [101; 102; 103])
  /\ queue_cnt (snd r) = 0
  /\ queue_end (snd r) = queue_beg (snd r).
Proof.
  intros q r.
  assert (H1 : ring q []) by (apply ring_new_queue; lia).
  assert (H2 : Forall (fun i => i <> NULL) [101; 102; 103])
    by (repeat constructor; unfold NULL; lia).
  assert (H3 : Z.of_nat (length (@nil iqpair)) + Z.of_nat (length [101; 102; 103])
               < queue_max q) by (cbn; lia).
  refine (conj (conj H1 (conj H2 _)) _); [cbn; lia|].
  exact (queue_is_fifo q [] 50 [101; 102; 103] H1 H2 H3).
Defined.

(** ** The enqueue helper and the submit *)

Section Enqueue.
Context `{Collaborators} `{Platform}.

Lemma add_nolock_retry_result (dest item cond : Z) (w0 : world) :
  forall (fuel : nat) (w : world) (woken : list answer),
  tape w0 = woken ++ tape w ->
  iq w = foldl interfere (iq w0) (concat (map others woken)) ->
  Forall (fun a => rc a = 0) woken ->
  (length (tape w) <= fuel)%nat ->
  match add_nolock_retry fuel dest item cond w with
  | Done r w' =>
      exists woken',
        tape w0 = woken' ++ tape w'
        /\ ((r = 0 /\ Forall (fun a => rc a = 0) woken'
             /\ queue_has_room
                  (foldl interfere (iq w0) (concat (map others woken'))) = true
             /\ iq w' = queue_store
                          (foldl interfere (iq w0) (concat (map others woken')))
                          dest item cond)
            \/ (r = -1
                /\ iq w' = foldl interfere (iq w0) (concat (map others woken'))))
  | Blocked w' =>
      tape w' = []
      /\ Forall (fun a => rc a = 0) (tape w0)
      /\ queue_has_room
           (foldl interfere (iq w0) (concat (map others (tape w0)))) = false
      /\ iq w' = foldl interfere (iq w0) (concat (map others (tape w0)))
  | Aborted _ => False
  | Undefined _ => False
  end.
Proof.
  induction fuel as [|fuel IH]; intros w woken Htape0 Hq Hok Hfuel.
  - destruct (tape w) as [|a t] eqn:Htape; [|cbn in Hfuel; lia].
    rewrite app_nil_r in Htape0. subst woken.
    cbn [add_nolock_retry]. unfold bind, get.
    destruct (queue_has_room (iq w)) eqn:Hroom.
    + unfold modify, ret. exists (tape w0). cbn [tape iq set_iq].
      rewrite Htape, app_nil_r. split; [reflexivity|]. left.
      rewrite <- Hq. auto.
    + unfold cond_wait. rewrite Htape. rewrite <- Hq. auto.
  - cbn [add_nolock_retry]. unfold bind at 1. unfold get at 1.
    destruct (queue_has_room (iq w)) eqn:Hroom.
    + unfold bind, modify, ret. exists woken. cbn [tape iq set_iq].
      split; [exact Htape0|]. left. rewrite <- Hq. auto.
    + unfold bind at 1. unfold cond_wait.
      destruct (tape w) as [|a t] eqn:Htape.
      * rewrite app_nil_r in Htape0. subst woken. rewrite <- Hq. auto.
      * assert (Htape' : tape w0 = (woken ++ [a]) ++ t).
        { now rewrite <- app_assoc. }
        assert (Hq' : iq (log (Ev_call (pthread_cond_wait CV_notfull) (rc a))
                            (yield a (pop_tape w)))
                      = foldl interfere (iq w0)
                          (concat (map others (woken ++ [a])))).
        { cbn [iq log set_trace yield set_iq pop_tape set_tape].
          rewrite map_app, concat_app, foldl_app, Hq. cbn [map concat].
          now rewrite app_nil_r. }
        destruct (rc a =? 0) eqn:Hrc.
        -- apply (IH _ (woken ++ [a])).
           ++ cbn [tape log set_trace yield set_iq pop_tape set_tape].
              rewrite Htape. exact Htape'.
           ++ exact Hq'.
           ++ apply Forall_app. split; [exact Hok|].
              constructor; [now apply Z.eqb_eq | constructor].
           ++ cbn [tape log set_trace yield set_iq pop_tape set_tape].
              rewrite Htape. cbn in Hfuel |- *. lia.
        -- unfold ret. exists (woken ++ [a]). split.
           ++ cbn [tape log set_trace yield set_iq pop_tape set_tape].
              rewrite Htape. exact Htape'.
           ++ right. split; [reflexivity | exact Hq'].
Qed.

(** X3.  [__probe_icache_add_nolock] never aborts.  Let the wake-ups be
    the answers it took from the environment, and the queue the others
    left be the queue of the call after what the other threads did
    during those wake-ups.  When it returns 0, every wake-up had
    returned 0, the queue the others left passed the test of line 288,
    and the queue is that queue with the entry stored once at its tail.
    When it returns -1 the queue is exactly the queue the others left:
    nothing of its own was stored.  It stays blocked only when the
    environment has no further wake-up and the queue the others left
    has no room. *)
Theorem add_nolock_stores_once_or_not_at_all (dest item cond : Z) (w : world) :
  match __probe_icache_add_nolock dest item cond w with
  | Done r w' =>
      exists woken : list answer,
        tape w = woken ++ tape w'
        /\ ((r = 0 /\ Forall (fun a => rc a = 0) woken
             /\ queue_has_room
                  (foldl interfere (iq w) (concat (map others woken))) = true
             /\ iq w' = queue_store
                          (foldl interfere (iq w) (concat (map others woken)))
                          dest item cond)
            \/ (r = -1
                /\ iq w' = foldl interfere (iq w) (concat (map others woken))))
  | Blocked w' =>
      tape w' = []
      /\ Forall (fun a => rc a = 0) (tape w)
      /\ queue_has_room
           (foldl interfere (iq w) (concat (map others (tape w)))) = false
      /\ iq w' = foldl interfere (iq w) (concat (map others (tape w)))
  | Aborted _ => False
  | Undefined _ => False
  end.
Proof.
  unfold __probe_icache_add_nolock.
  destruct (assume_d_enabled && negb (xorb (cond =? NULL) (item =? NULL))).
  - exists []. split; [reflexivity|]. right. split; reflexivity.
  - unfold bind, get.
    apply (add_nolock_retry_result dest item cond w _ w []);
      [reflexivity | reflexivity | constructor | lia].
Qed.

(** X4.  When [pthread_cond_signal] on the [notempty] condition fails,
    [probe_icache_add] returns -1 although its entry has been stored;
    [probe_item_collect] then releases the item, so the queue is left
    with an entry that refers to a released item. *)
Theorem collect_releases_queued_item_on_signal_failure
    (ctx : probe_ctx) (item : Z) (w : world) (a1 a2 a3 : answer)
    (rest : list answer) :
  filters ctx = NULL ->
  icache ctx <> NULL -> probe_out ctx <> NULL -> item <> NULL ->
  tape w = a1 :: a2 :: a3 :: rest ->
  rc a1 = 0 -> rc a2 = 0 -> rc a3 <> 0 ->
  queue_has_room (foldl interfere (iq w) (others a1)) = true ->
  (Z.to_nat (queue_end (foldl interfere (iq w) (others a1)))
   < length (queue (foldl interfere (iq w) (others a1))))%nat ->
  exists w',
    probe_item_collect ctx item w = Done (-1) w'
    /\ heap w' !! item = None
    /\ frees item (trace w') = S (frees item (trace w))
    /\ queue_slot (iq w') (queue_end (foldl interfere (iq w) (others a1)))
       = Some {| cobj := probe_out ctx; p := P_item item |}.
Proof.
  intros Hf Hc Hd Hi Htape H1 H2 H3 Hroom Hslot.
  apply Z.eqb_neq in Hc, Hd, Hi, H3.
  set (q := foldl interfere (iq w) (others a1)) in *.
  assert (Hwp : wp (probe_item_collect ctx item)
            (fun r w' => r = -1 /\ heap w' !! item = None
               /\ frees item (trace w') = S (frees item (trace w))
               /\ queue_slot (iq w') (queue_end q)
                  = Some {| cobj := probe_out ctx; p := P_item item |})
            (fun _ => False) w).
  { unfold probe_item_collect. rewrite Hf. cbn [NULL Z.eqb].
    wp_run. wp_run. unfold probe_icache_add. rewrite Hc, Hd, Hi. cbn [orb].
    wp_run. wp_run. wp_run. rewrite Htape. world_simpl. rewrite H1. cbn [Z.eqb negb].
    wp_run. unfold __probe_icache_add_nolock. rewrite Hi.
    cbn [NULL Z.eqb xorb negb]. rewrite andb_false_r.
    wp_run. wp_run. cbn [length add_nolock_retry].
    wp_run. wp_run. fold q. rewrite Hroom.
    wp_run. wp_run. wp_run.
    wp_run. wp_run. rewrite H2. cbn [Z.eqb negb].
    wp_run. wp_run. rewrite H3. cbn [negb]. wp_run. cbn [Z.eqb negb].
    unfold SEXP_free. wp_run. wp_run. wp_run.
    split; [reflexivity|]. split; [apply lookup_delete_eq|]. split.
    - rewrite !frees_app. cbn [frees]. rewrite Z.eqb_refl. lia.
    - unfold queue_slot, queue_store. cbn [queue].
      rewrite list_lookup_insert_eq by exact Hslot.
      rewrite Hi. reflexivity. }
  apply wp_done in Hwp. destruct Hwp as (r & w' & Hrun & -> & Hrest). eauto.
Qed.

End Enqueue.

Lemma collect_releases_queued_item_on_signal_failure_witness :
  let C := pair_collaborators in
  let P := small_platform true true 4 in
  let ctx := {| filters := NULL; icache := 1; probe_out := 50 |} in
  let w := new_world three_items [ok; ok; failure 11] in
  (filters ctx = NULL /\ 101 <> NULL /\ tape w = [ok; ok; failure 11])
  /\ exists w',
       probe_item_collect ctx 101 w = Done (-1) w'
       /\ heap w' !! 101 = None
       /\ frees 101 (trace w') = S (frees 101 (trace w))
       /\ queue_slot (iq w') (queue_end (foldl interfere (iq w) (others ok)))
          = Some {| cobj := probe_out ctx; p := P_item 101 |}.
Proof.
  intros C P ctx w.
  assert (Hn : forall z, z <> 0 -> z <> NULL) by (unfold NULL; auto).
  assert (H4 : 101 <> NULL) by (apply Hn; lia).
  refine (conj (conj eq_refl (conj H4 eq_refl)) _).
  assert (H8 : rc (failure 11) <> 0) by (cbn; lia).
  assert (H10 : (Z.to_nat (queue_end (foldl interfere (iq w) (others ok)))
                 < length (queue (foldl interfere (iq w) (others ok))))%nat)
    by (vm_compute; lia).
  exact (@collect_releases_queued_item_on_signal_failure C P ctx 101 w
           ok ok (failure 11) [] eq_refl (Hn 1 ltac:(lia)) (Hn 50 ltac:(lia)) H4
           eq_refl eq_refl eq_refl H8 eq_refl H10).
Defined.

(** ** What the worker leaves alone *)

Section Frame.
Context `{Collaborators} `{Platform}.

Lemma item_kept_refl (x : Z) (w : world) : item_kept x w w.
Proof. split; reflexivity. Qed.

Lemma item_kept_step (x : Z) (w w1 w2 : world) :
  item_kept x w w1 -> item_kept x w1 w2 -> item_kept x w w2.
Proof. intros [H1 H2] [H3 H4]. split; congruence. Qed.

Lemma item_kept_log (x : Z) (w w1 : world) (e : event) :
  (forall y, e <> Ev_SEXP_free y) ->
  item_kept x w w1 -> item_kept x w (log e w1).
Proof.
  intros He [Hh Hf]. split; [exact Hh|].
  cbn [log trace set_trace]. rewrite frees_app, Hf.
  destruct e; cbn [frees]; try lia. now destruct (He item).
Qed.

Lemma item_kept_free (x item : Z) (w w1 : world) :
  x <> item -> item_kept x w w1 ->
  item_kept x w (log (Ev_SEXP_free item) (set_heap (delete item (heap w1)) w1)).
Proof.
  intros Hx [Hh Hf]. split.
  - cbn [log heap set_trace set_heap]. now rewrite lookup_delete_ne.
  - cbn [log trace set_trace set_heap]. rewrite frees_app, Hf. cbn [frees].
    destruct (item =? x) eqn:He; [apply Z.eqb_eq in He; congruence | lia].
Qed.

Lemma item_kept_same (x : Z) (w w1 w2 : world) :
  heap w2 = heap w1 -> trace w2 = trace w1 ->
  item_kept x w w1 -> item_kept x w w2.
Proof. intros Hh Ht [H1 H2]. split; congruence. Qed.

Lemma item_kept_stamp_only (x item : Z) (w w1 w2 : world) :
  x <> item -> item_kept x w w1 -> stamp_only item w1 w2 -> item_kept x w w2.
Proof.
  intros Hx [H1 H2] (_ & _ & _ & Hf & _ & _ & Ho).
  split; [rewrite (Ho x Hx); exact H1 | rewrite Hf; exact H2].
Qed.

Lemma setID_item_kept (x item item_ID : Z) (w w1 : world) :
  x <> item -> item_kept x w w1 ->
  wp (probe_icache_item_setID item item_ID)
     (fun _ w' => item_kept x w w') (item_kept x w) w1.
Proof.
  intros Hx Hk.
  eapply wp_mono; [apply (setID_frame item item_ID w1 w1), stamp_only_refl | |];
    cbv beta; eauto using item_kept_stamp_only.
Qed.

Lemma worker_handle_item_kept (entry : iqpair) (x : Z) (w0 w : world) :
  x <> p_item (p entry) ->
  item_kept x w0 w ->
  wp (worker_handle entry) (fun _ w' => item_kept x w0 w') (item_kept x w0) w.
Proof.
  intros Hx Hk.
  assert (Hcall : forall w1 c r, item_kept x w0 w1 ->
            item_kept x w0 (log (Ev_call c r) (pop_tape w1))).
  { intros w1 c r Hk1. apply item_kept_log; [discriminate|]. exact Hk1. }
  assert (Hrest : forall e' w1, item_kept x w0 w1 ->
            wp (r <~ cobj_add_item (cobj e') (p_item (p e')) ;;
                if negb (r =? 0) then ret (W_return, e') else ret (W_continue, e'))
               (fun _ w' => item_kept x w0 w') (item_kept x w0) w1).
  { intros e' w1 Hk1. unfold cobj_add_item. wp_cases; auto.
    all: eapply item_kept_same; [| |apply Hcall; exact Hk1]; reflexivity. }
  unfold worker_handle.
  destruct (cobj entry =? NULL).
  { wp_cases; auto. apply item_kept_log; [discriminate|]. auto. }
  apply wp_bind, wp_get.
  destruct (heap w !! p_item (p entry)) as [it|]; [|now apply wp_undefined].
  apply wp_bind.
  destruct (tree w !! SEXP_ID_v it) as [cached|].
  - destruct (bucket_scan (heap w) it cached 0) as [i|]; [|now apply wp_undefined].
    destruct (i =? Z.of_nat (length cached)).
    + destruct (wrap16 (Z.of_nat (length cached) + 1) =? 0); [now apply wp_undefined|].
      apply wp_bind, wp_modify, wp_bind.
      eapply wp_mono; [apply (setID_item_kept x _ _ w0); [exact Hx|] | | auto].
      * eapply item_kept_same; [| |exact Hk]; reflexivity.
      * intros ? w1 Hk1. cbv beta. apply wp_ret. now apply Hrest.
    + destruct (cached !! Z.to_nat i) as [canonical|]; [|now apply wp_undefined].
      unfold SEXP_free. apply wp_bind, wp_modify, wp_ret. apply Hrest.
      now apply item_kept_free.
  - apply wp_bind.
    eapply wp_mono; [apply (setID_item_kept x _ _ w0); [exact Hx | exact Hk] | | auto].
    intros ? w1 Hk1. cbv beta. unfold rbt_add.
    apply wp_bind, wp_bind, wp_get.
    destruct (tree w1 !! SEXP_ID_v it).
    + apply wp_ret. cbn [Z.eqb negb]. wp_cases.
      repeat (apply item_kept_log; [discriminate|]). exact Hk1.
    + apply wp_bind, wp_syscall.
      destruct (rc (next_answer w1) =? 0) eqn:Hrc.
      * apply wp_bind, wp_modify, wp_ret. cbn [Z.eqb negb]. apply wp_ret.
        apply Hrest.
        eapply item_kept_same; [| |apply Hcall; exact Hk1]; reflexivity.
      * apply wp_ret. rewrite Hrc. cbn [negb]. wp_cases.
        repeat (apply item_kept_log; [discriminate|]). exact Hk1.
Qed.


End Frame.


(** ** Destroying the cache *)

Lemma occurs_app (x : Z) (l1 l2 : list Z) :
  occurs x (l1 ++ l2) = (occurs x l1 + occurs x l2)%nat.
Proof.
  induction l1 as [|y l1 IH]; [reflexivity|]. cbn [app occurs]. rewrite IH. lia.
Qed.

Lemma occurs_not_in (x : Z) (l : list Z) : x ∉ l -> occurs x l = 0%nat.
Proof.
  induction l as [|y l IH]; [reflexivity|]. intros Hx.
  apply not_elem_of_cons in Hx. destruct Hx as [Hne Hx]. cbn [occurs].
  rewrite (IH Hx). destruct (y =? x) eqn:He; [apply Z.eqb_eq in He; congruence | lia].
Qed.

Lemma occurs_once (x : Z) (l : list Z) : NoDup l -> x ∈ l -> occurs x l = 1%nat.
Proof.
  induction 1 as [|y l Hy Hnd IH]; intros Hx; [inversion Hx|].
  cbn [occurs]. apply elem_of_cons in Hx. destruct Hx as [->|Hx].
  - rewrite Z.eqb_refl, (occurs_not_in _ _ Hy). lia.
  - rewrite (IH Hx). destruct (y =? x) eqn:He; [|lia].
    apply Z.eqb_eq in He. subst y. contradiction.
Qed.

Section Release.
Context `{Collaborators}.

Lemma released_nil (w : world) : released [] w w.
Proof.
  split; [intros x; cbn [occurs]; lia|].
  split; [intros x Hx; inversion Hx|]. split; [reflexivity | reflexivity].
Qed.

Lemma released_app (l1 l2 : list Z) (w w1 w2 : world) :
  released l1 w w1 -> released l2 w1 w2 -> released (l1 ++ l2) w w2.
Proof.
  intros (Hf1 & Hin1 & Hout1 & Ht1) (Hf2 & Hin2 & Hout2 & Ht2).
  repeat split.
  - intros x. rewrite Hf2, Hf1, occurs_app. lia.
  - intros x Hx. destruct (decide (x ∈ l2)) as [H2|H2]; [now apply Hin2|].
    rewrite (Hout2 x H2). apply Hin1. apply elem_of_app in Hx. tauto.
  - intros x Hx. apply not_elem_of_app in Hx. destruct Hx as [H1 H2].
    now rewrite (Hout2 x H2), (Hout1 x H1).
  - congruence.
Qed.

Lemma released_one (x : Z) (w : world) : released [x] w (freed x w).
Proof.
  unfold freed. repeat split.
  - intros y. cbn [log trace set_trace set_heap]. rewrite frees_app.
    cbn [frees occurs]. lia.
  - intros y Hy. apply list_elem_of_singleton in Hy. subst y.
    cbn [log heap set_trace set_heap]. apply lookup_delete_eq.
  - intros y Hy. apply not_elem_of_cons in Hy. destruct Hy as [Hy _].
    cbn [log heap set_trace set_heap]. now apply lookup_delete_ne.
Qed.

Lemma released_log (l : list Z) (w w1 : world) (e : event) :
  (forall y, e <> Ev_SEXP_free y) ->
  released l w w1 -> released l w (log e w1).
Proof.
  intros He (Hf & Hin & Hout & Ht). repeat split; auto.
  intros x. cbn [log trace set_trace]. rewrite frees_app, Hf.
  destruct e; cbn [frees]; try lia. now destruct (He item).
Qed.

Lemma released_occurs (l l' : list Z) (w w' : world) :
  (forall x, occurs x l = occurs x l') ->
  released l w w' -> released l' w w'.
Proof.
  intros Hocc (Hf & Hin & Hout & Ht).
  assert (Hmem : forall x, x ∈ l <-> x ∈ l').
  { intros x. split; intros Hx.
    - destruct (decide (x ∈ l')) as [|Hn]; [assumption|].
      pose proof (occurs_not_in x l' Hn) as H0. rewrite <- Hocc in H0.
      clear - Hx H0. induction l as [|y l IH]; [inversion Hx|].
      cbn [occurs] in H0. apply elem_of_cons in Hx. destruct Hx as [->|Hx].
      + rewrite Z.eqb_refl in H0. lia.
      + apply IH; [exact Hx|]. destruct (y =? x); lia.
    - destruct (decide (x ∈ l)) as [|Hn]; [assumption|].
      pose proof (occurs_not_in x l Hn) as H0. rewrite Hocc in H0.
      clear - Hx H0. induction l' as [|y l' IH]; [inversion Hx|].
      cbn [occurs] in H0. apply elem_of_cons in Hx. destruct Hx as [->|Hx].
      + rewrite Z.eqb_refl in H0. lia.
      + apply IH; [exact Hx|]. destruct (y =? x); lia. }
  repeat split; auto.
  - intros x. now rewrite Hf, Hocc.
  - intros x Hx. apply Hin, Hmem, Hx.
  - intros x Hx. apply Hout. intros Hl. apply Hx, Hmem, Hl.
Qed.

(** The loop of [probe_icache_free_node] releases the first [count]
    items of the bucket. *)
Lemma free_items_down_released (items : list Z) (count : nat) (w : world) :
  (count <= length items)%nat ->
  exists w', free_items_down items count w = Done tt w'
             /\ released (take count items) w w'.
Proof.
  revert w. induction count as [|c IH]; intros w Hc.
  - exists w. split; [reflexivity|]. rewrite take_0. apply released_nil.
  - destruct (lookup_lt_is_Some_2 items c) as [x Hx]; [lia|].
    cbn [free_items_down]. rewrite Hx. unfold bind, SEXP_free, modify.
    destruct (IH (freed x w)) as (w' & Hrun & Hrel); [lia|].
    exists w'. split; [exact Hrun|].
    rewrite (take_S_r _ _ _ Hx).
    apply (released_occurs ([x] ++ take c items)).
    + intros y. rewrite !occurs_app. lia.
    + eapply released_app; [apply released_one | exact Hrel].
Qed.

Lemma free_node_released (items : list Z) (w : world) :
  exists w', probe_icache_free_node items w = Done tt w'
             /\ released items w w'.
Proof.
  destruct (free_items_down_released items (length items) w) as (w1 & Hrun & Hrel);
    [lia|].
  rewrite firstn_all in Hrel.
  exists (log (Ev_oscap_free_items items) w1). split.
  - unfold probe_icache_free_node, bind. now rewrite Hrun.
  - apply released_log; [discriminate | exact Hrel].
Qed.

Lemma visit_nodes_released (nodes : list (Z * list Z)) (w : world) :
  exists w', visit_nodes probe_icache_free_node nodes w = Done tt w'
             /\ released (concat (map snd nodes)) w w'.
Proof.
  revert w. induction nodes as [|n nodes IH]; intros w.
  - exists w. split; [reflexivity | apply released_nil].
  - destruct (free_node_released (snd n) w) as (w1 & Hrun1 & Hrel1).
    destruct (IH w1) as (w' & Hrun & Hrel).
    exists w'. split.
    + cbn [visit_nodes]. unfold bind. now rewrite Hrun1.
    + cbn [map concat]. eapply released_app; eauto.
Qed.

(** [probe_icache_free] releases every stored item of the tree, as often
    as it is stored, and leaves no tree. *)
Lemma probe_icache_free_released (w : world) :
  exists w' calls,
    probe_icache_free w = Done calls w'
    /\ tree w' = ∅
    /\ (forall x, frees x (trace w')
                  = (frees x (trace w) + occurs x (stored_items w))%nat)
    /\ (forall x, x ∈ stored_items w -> heap w' !! x = None)
    /\ (forall x, x ∉ stored_items w -> heap w' !! x = heap w !! x).
Proof.
  destruct (visit_nodes_released (map_to_list (tree w)) w)
    as (w1 & Hrun & Hf & Hin & Hout & Ht).
  eexists (set_tree ∅ w1), _. split.
  - unfold probe_icache_free, rbt_free_cb, bind, get. rewrite Hrun.
    unfold modify, ret. reflexivity.
  - repeat split; auto.
Qed.

End Release.

(** ** No item is released twice *)

Lemma elem_of_concat_nodes (x : Z) (nodes : list (Z * list Z)) :
  x ∈ concat (map snd nodes) <-> exists n, n ∈ nodes /\ x ∈ snd n.
Proof.
  induction nodes as [|n nodes IH]; cbn [map concat].
  - split; [intros Hx; inversion Hx | intros (n & Hn & _); inversion Hn].
  - rewrite elem_of_app, IH. split.
    + intros [Hx | (n' & Hn' & Hx)]; [exists n | exists n']; split; auto.
      * left.
      * now right.
    + intros (n' & Hn' & Hx). apply elem_of_cons in Hn'.
      destruct Hn' as [->|Hn']; [now left | right; eauto].
Qed.

Lemma NoDup_concat_nodes (nodes : list (Z * list Z)) :
  NoDup (map fst nodes) ->
  (forall n, n ∈ nodes -> NoDup (snd n)) ->
  (forall n n' x, n ∈ nodes -> n' ∈ nodes -> x ∈ snd n -> x ∈ snd n' ->
     fst n = fst n') ->
  NoDup (concat (map snd nodes)).
Proof.
  induction nodes as [|n nodes IH]; intros Hkeys Hbuckets Hdisj; cbn [map concat].
  - apply NoDup_nil_2.
  - cbn [map] in Hkeys. apply NoDup_cons in Hkeys. destruct Hkeys as [Hn Hkeys].
    apply NoDup_app. split; [apply Hbuckets; left|]. split.
    + intros x Hx Hrest. apply elem_of_concat_nodes in Hrest.
      destruct Hrest as (n' & Hn' & Hx').
      apply Hn. rewrite (Hdisj n n' x); auto.
      * apply list_elem_of_fmap. eauto.
      * left.
      * now right.
    + apply IH; auto.
      * intros n' Hn'. apply Hbuckets. now right.
      * intros n1 n2 x H1 H2. apply Hdisj; now right.
Qed.

Section Release_once.
Context `{Collaborators} `{Platform}.
Context (Hlaw : lawful).

Lemma stored_items_stored (x : Z) (w : world) :
  x ∈ stored_items w <-> stored x w.
Proof.
  unfold stored_items, stored. rewrite elem_of_concat_nodes. split.
  - intros ([f b] & Hn & Hx). apply elem_of_map_to_list in Hn. eauto.
  - intros (f & b & Hb & Hx). exists (f, b). split; [|exact Hx].
    now apply elem_of_map_to_list.
Qed.

(** Under the invariant of the worker no item is stored twice. *)
Lemma stored_items_NoDup (w : world) (done : list (Z * sexp_item content))
    (reps : list Z) :
  dedup_inv w done reps -> NoDup (stored_items w).
Proof.
  intros Hinv. apply NoDup_concat_nodes.
  - apply NoDup_fst_map_to_list.
  - intros [f b] Hn. apply elem_of_map_to_list in Hn. cbn [snd].
    apply NoDup_alt. intros i j c Hi Hj.
    destruct (inv_live _ _ _ Hinv f b c Hn) as (itc & Hitc & _).
    { apply list_elem_of_lookup. eauto. }
    apply (inv_distinct _ _ _ Hinv f b i j c c itc itc); auto.
    apply (deepcmp_refl Hlaw).
  - intros [f b] [f' b'] x Hn Hn' Hx Hx'. cbn [fst snd] in *.
    apply elem_of_map_to_list in Hn, Hn'.
    destruct (inv_live _ _ _ Hinv f b x Hn Hx) as (it1 & H1 & <-).
    destruct (inv_live _ _ _ Hinv f' b' x Hn' Hx') as (it2 & H2 & <-).
    congruence.
Qed.

Lemma release_inv_refl (w : world) : release_inv w w [].
Proof.
  constructor; [intros x Hx; inversion Hx | reflexivity].
Qed.

(** One insert keeps the account of the releases. *)
Lemma handle_step_release (w0 w w1 : world) (done : list (Z * sexp_item content))
    (reps : list Z) (dest q : Z) (it : sexp_item content)
    (r : worker_status * iqpair) :
  dedup_inv w done reps ->
  release_inv w0 w (map fst done) ->
  calls_succeed w ->
  dest <> NULL -> q <> NULL ->
  0 <= getpid < 2 ^ 32 ->
  q ∉ map fst done ->
  heap w !! q = Some it ->
  Z.of_nat (count_fp (SEXP_ID_v it) (done ++ [(q, it)])) < 65535 ->
  worker_handle {| cobj := dest; p := P_item q |} w = Done r w1 ->
  release_inv w0 w1 (map fst (done ++ [(q, it)])).
Proof.
  intros Hinv Hrel Hok Hdest Hq Hpid Hfresh Hit Hcount Hrun.
  set (e := {| cobj := dest; p := P_item q |}) in *.
  assert (Hkept : forall x, x <> q -> item_kept x w w1).
  { intros x Hx.
    pose proof (worker_handle_item_kept e x w w Hx (item_kept_refl x w)) as Hwp.
    unfold wp in Hwp. rewrite Hrun in Hwp. exact Hwp. }
  assert (Hqnew : ~ stored q w).
  { intros (f & b & Hb & Hx). apply Hfresh.
    exact (inv_origin _ _ _ Hinv f b q Hb Hx). }
  rewrite map_app. cbn [map fst].
  (* what is left to show once it is known how the tree changed *)
  assert (Hfinish :
    (forall x, x <> q -> (stored x w1 <-> stored x w)) ->
    ((stored q w1 /\ frees q (trace w1) = frees q (trace w))
     \/ (~ stored q w1 /\ heap w1 !! q = None
         /\ frees q (trace w1) = S (frees q (trace w)))) ->
    release_inv w0 w1 (map fst done ++ [q])).
  { intros Hsame Hcase. constructor.
    - intros x Hx. apply elem_of_app in Hx. destruct Hx as [Hx | Hx].
      + assert (Hne : x <> q) by (intros ->; contradiction).
        destruct (Hkept x Hne) as [Hh Hf]. rewrite Hh, Hf, (Hsame x Hne).
        exact (rel_done _ _ _ Hrel x Hx).
      + apply list_elem_of_singleton in Hx. subst x.
        rewrite <- (rel_other _ _ _ Hrel q Hfresh). exact Hcase.
    - intros x Hx. apply not_elem_of_app in Hx. destruct Hx as [Hx Hne].
      assert (Hne' : x <> q).
      { intros ->. apply Hne. now apply list_elem_of_singleton. }
      destruct (Hkept x Hne') as [_ Hf]. rewrite Hf.
      exact (rel_other _ _ _ Hrel x Hx). }
  assert (Hmiss : forall w', miss_effect dest q it w w' ->
            worker_handle e w = Done (W_continue, e) w' ->
            release_inv w0 w1 (map fst done ++ [q])).
  { intros w' (Hheap & Hfrees & Htree & _) Hrun'.
    rewrite Hrun in Hrun'. injection Hrun' as _ <-.
    apply Hfinish.
    - intros x Hx. unfold stored. rewrite Htree. split.
      + intros (f & b & Hb & Hin).
        destruct (decide (f = SEXP_ID_v it)) as [->|Hf].
        * rewrite lookup_insert_eq in Hb. injection Hb as <-.
          apply elem_of_app in Hin. destruct Hin as [Hin|Hin].
          -- destruct (tree w !! SEXP_ID_v it) as [b0|] eqn:Hb0;
               [eauto | inversion Hin].
          -- apply list_elem_of_singleton in Hin. contradiction.
        * rewrite lookup_insert_ne in Hb by congruence. eauto.
      + intros (f & b & Hb & Hin).
        destruct (decide (f = SEXP_ID_v it)) as [->|Hf].
        * exists (SEXP_ID_v it), (b ++ [q]). rewrite lookup_insert_eq, Hb.
          split; [reflexivity|]. apply elem_of_app. now left.
        * exists f, b. rewrite lookup_insert_ne by congruence. auto.
    - left. split; [|apply Hfrees].
      exists (SEXP_ID_v it), (default [] (tree w !! SEXP_ID_v it) ++ [q]).
      rewrite Htree, lookup_insert_eq. split; [reflexivity|].
      apply elem_of_app. right. now apply list_elem_of_singleton. }
  destruct (tree w !! SEXP_ID_v it) as [cached|] eqn:Htree.
  - destruct (bucket_scan_spec (heap w) it cached 0) as (i & Hscan & Hle & Hbefore & Hat).
    { intros c Hc. destruct (inv_live _ _ _ Hinv _ _ c Htree Hc) as (itc & Hitc & _).
      eauto. }
    rewrite Z.add_0_l in Hscan.
    destruct (decide (i < length cached)%nat) as [Hlt|Hge].
    + destruct (Hat Hlt) as (c & st & Hc & Hst & Hcmp).
      destruct (handle_hit e w it cached i c Hok Hdest Hit Htree Hscan Hc)
        as (w' & Hrun' & Hheap & Hfrees & Htree' & _).
      rewrite Hrun in Hrun'. injection Hrun' as _ <-.
      cbn [e cobj p p_item] in Hheap, Hfrees.
      apply Hfinish.
      * intros x Hx. unfold stored. now rewrite Htree'.
      * right. split; [|split].
        -- unfold stored. rewrite Htree'. exact Hqnew.
        -- rewrite Hheap. apply lookup_delete_eq.
        -- exact Hfrees.
    + assert (i = length cached) by lia. subst i.
      assert (Hlen : Z.of_nat (length cached) + 1 < 2 ^ 16).
      { pose proof (inv_count _ _ _ Hinv _ _ Htree) as Hc.
        rewrite count_fp_app in Hcount. cbn [count_fp snd] in Hcount.
        rewrite Z.eqb_refl in Hcount. lia. }
      destruct (handle_miss e w it Hok Hdest Hq Hit (inv_range _ _ _ Hinv) Hpid)
        as (w' & Hrun' & Heff).
      { right. exists cached. auto. }
      exact (Hmiss w' Heff Hrun').
  - destruct (handle_miss e w it Hok Hdest Hq Hit (inv_range _ _ _ Hinv) Hpid)
      as (w' & Hrun' & Heff).
    { left. exact Htree. }
    exact (Hmiss w' Heff Hrun').
Qed.

(** The account holds after the worker has handled all submitted items. *)
Lemma handle_all_release (dest : Z) (items : list (Z * sexp_item content))
    (w0 : world) :
  dest <> NULL ->
  0 <= getpid < 2 ^ 32 ->
  forall (w : world) (done : list (Z * sexp_item content)) (reps : list Z),
  dedup_inv w done reps ->
  release_inv w0 w (map fst done) ->
  calls_succeed w ->
  NoDup (map fst (done ++ items)) ->
  (forall pit, pit ∈ items -> fst pit <> NULL /\ heap w !! fst pit = Some (snd pit)) ->
  (forall f, Z.of_nat (count_fp f (done ++ items)) < 65535) ->
  exists w' reps',
    worker_handle_all (inserts dest (map fst items)) w = Done (inserts dest reps') w'
    /\ dedup_inv w' (done ++ items) (reps ++ reps')
    /\ release_inv w0 w' (map fst (done ++ items)).
Proof.
  intros Hdest Hpid. induction items as [|[q it] rest IH];
    intros w done reps Hinv Hrel Hok Hnodup Hlive Hcount.
  - exists w, []. rewrite !app_nil_r. split; [reflexivity|]. split; assumption.
  - destruct (Hlive (q, it)) as [Hq Hit]; [left|]. cbn [fst snd] in Hq, Hit.
    assert (Hfresh : q ∉ map fst done).
    { rewrite map_app in Hnodup. apply NoDup_app in Hnodup.
      destruct Hnodup as (_ & Hdisj & _). intros Hin.
      apply (Hdisj q Hin). cbn. left. }
    assert (Hcount1 : Z.of_nat (count_fp (SEXP_ID_v it) (done ++ [(q, it)])) < 65535).
    { specialize (Hcount (SEXP_ID_v it)).
      pose proof (count_fp_prefix (SEXP_ID_v it) (done ++ [(q, it)]) rest) as Hle.
      rewrite <- app_assoc in Hle. cbn [app] in Hle. lia. }
    destruct (handle_step Hlaw w done reps dest q it Hinv Hok Hdest Hq Hpid Hfresh Hit
                Hcount1)
      as (w1 & rep & Hrun & Hinv1 & Hok1 & _ & Hheap & _).
    pose proof (handle_step_release w0 w w1 done reps dest q it _ Hinv Hrel Hok
                  Hdest Hq Hpid Hfresh Hit Hcount1 Hrun) as Hrel1.
    destruct (IH w1 (done ++ [(q, it)]) (reps ++ [rep]) Hinv1 Hrel1 Hok1)
      as (w' & reps' & Hrun' & Hinv' & Hrel').
    { rewrite <- app_assoc. exact Hnodup. }
    { intros pit Hpit. destruct (Hlive pit) as [Hp Hh]; [now right|].
      split; [exact Hp|]. rewrite Hheap; [exact Hh|].
      intros Heq. rewrite map_app in Hnodup. apply NoDup_app in Hnodup.
      destruct Hnodup as (_ & _ & Hnd). cbn [map fst] in Hnd.
      apply NoDup_cons in Hnd. destruct Hnd as [Hnotin _].
      apply Hnotin. rewrite <- Heq. apply list_elem_of_fmap. exists pit. auto. }
    { intros f. rewrite <- app_assoc. apply Hcount. }
    rewrite <- !app_assoc in Hinv'. rewrite <- !app_assoc in Hrel'.
    cbn [app] in Hinv', Hrel'.
    exists w', (rep :: reps'). split; [|split; assumption].
    cbn [map inserts fst worker_handle_all]. unfold bind.
    fold (inserts dest (map fst rest)).
    rewrite Hrun. cbn [fst snd]. rewrite Hrun'. reflexivity.
Qed.

(** X6.  A cache that starts with an empty tree, handles a batch of
    distinct live items without a failing call and is then destroyed by
    [probe_icache_free] has released every submitted item exactly once
    (the duplicates when they were handled, the stored items when the
    tree was freed), so none is leaked and none is released twice; no
    item that was not submitted is released. *)
Theorem submitted_items_released_exactly_once (dest : Z)
    (items : list (Z * sexp_item content)) (w : world) :
  0 <= getpid < 2 ^ 32 ->
  dest <> NULL ->
  calls_succeed w ->
  tree w = ∅ ->
  0 <= next_ID w < 2 ^ 32 ->
  NoDup (map fst items) ->
  (forall pit, pit ∈ items -> fst pit <> NULL /\ heap w !! fst pit = Some (snd pit)) ->
  (forall f, Z.of_nat (count_fp f items) < 65535) ->
  exists w1 reps w2 calls,
    worker_handle_all (inserts dest (map fst items)) w = Done (inserts dest reps) w1
    /\ probe_icache_free w1 = Done calls w2
    /\ tree w2 = ∅
    /\ (forall x, x ∈ map fst items ->
          frees x (trace w2) = S (frees x (trace w)) /\ heap w2 !! x = None)
    /\ (forall x, x ∉ map fst items -> frees x (trace w2) = frees x (trace w)).
Proof.
  intros Hpid Hdest Hok Htree Hnext Hnodup Hlive Hcount.
  destruct (handle_all_release dest items w Hdest Hpid w [] []
              (dedup_inv_empty w Htree Hnext) (release_inv_refl w) Hok Hnodup Hlive
              Hcount)
    as (w1 & reps & Hrun & Hinv & Hrel).
  cbn [app] in Hinv, Hrel.
  destruct (probe_icache_free_released w1)
    as (w2 & calls & Hfree & Hempty & Hfrees & Hin & Hout).
  pose proof (stored_items_NoDup w1 _ _ Hinv) as Hnd.
  exists w1, reps, w2, calls.
  split; [exact Hrun|]. split; [exact Hfree|]. split; [exact Hempty|]. split.
  - intros x Hx. rewrite Hfrees.
    destruct (rel_done _ _ _ Hrel x Hx) as [[Hst Hf] | (Hst & Hh & Hf)].
    + apply stored_items_stored in Hst.
      rewrite (occurs_once x _ Hnd Hst), Hf. split; [lia | now apply Hin].
    + assert (Hns : x ∉ stored_items w1) by (now rewrite stored_items_stored).
      rewrite (occurs_not_in x _ Hns), Hf. split; [lia|].
      now rewrite (Hout x Hns).
  - intros x Hx. rewrite Hfrees, (rel_other _ _ _ Hrel x Hx).
    assert (Hns : x ∉ stored_items w1).
    { rewrite stored_items_stored. intros (f & b & Hb & Hc).
      apply Hx. exact (inv_origin _ _ _ Hinv f b x Hb Hc). }
    rewrite (occurs_not_in x _ Hns). lia.
Qed.

End Release_once.

(** X6, on the three items of the collision scenario. *)
Lemma submitted_items_released_exactly_once_witness :
  let C := pair_collaborators in
  let P := small_platform true true 4 in
  let items := [(101, fresh_item 7 1); (102, fresh_item 7 2); (103, fresh_item 7 1)] in
  let w := new_world three_items [] in
  (lawful /\ 0 <= getpid < 2 ^ 32 /\ 50 <> NULL /\ calls_succeed w /\ tree w = ∅
   /\ NoDup (map fst items))
  /\ exists w1 reps w2 calls,
       worker_handle_all (inserts 50 (map fst items)) w = Done (inserts 50 reps) w1
       /\ probe_icache_free w1 = Done calls w2
       /\ tree w2 = ∅
       /\ (forall x, x ∈ map fst items ->
             frees x (trace w2) = S (frees x (trace w)) /\ heap w2 !! x = None)
       /\ (forall x, x ∉ map fst items -> frees x (trace w2) = frees x (trace w)).
Proof.
  intros C P items w.
  destruct three_items_submitted as (H1 & H2 & H3 & H4 & H5 & H6 & H7).
  assert (Hpid : 0 <= @getpid P < 2 ^ 32) by (cbn; lia).
  assert (Hnext : 0 <= next_ID w < 2 ^ 32) by (cbn; lia).
  refine (conj (conj pair_collaborators_lawful
                  (conj Hpid (conj H1 (conj H2 (conj H3 H5))))) _).
  exact (@submitted_items_released_exactly_once C P pair_collaborators_lawful
           50 items w Hpid H1 H2 H3 Hnext H5 H6 H7).
Defined.

(** ** Stamps across processes *)

Lemma pid_fields_ok_all : pid_fields_ok (Z.to_nat 100000) 0 = true.
Proof. vm_compute. reflexivity. Qed.

Lemma pid_fields_ok_each (n : nat) (first pid : Z) :
  pid_fields_ok n first = true -> first <= pid < first + Z.of_nat n ->
  pid_field_ok pid = true.
Proof.
  revert first. induction n as [|n IH]; intros first Hall Hpid; [lia|].
  cbn [pid_fields_ok] in Hall. apply andb_true_iff in Hall.
  destruct Hall as [Hfirst Hrest].
  destruct (decide (pid = first)) as [->|Hne]; [exact Hfirst|].
  apply (IH (first + 1) Hrest). lia.
Qed.

Lemma pid_field_padded (pid : Z) :
  0 <= pid < 100000 -> pid_field (pad_left "0"%char 5 (decimal pid)) = Some pid.
Proof.
  intros Hpid.
  pose proof (pid_fields_ok_each _ 0 pid pid_fields_ok_all) as Hok.
  rewrite Z2Nat.id in Hok by lia. specialize (Hok ltac:(lia)).
  unfold pid_field_ok in Hok.
  destruct (pid_field (pad_left "0"%char 5 (decimal pid))) as [v|];
    [|discriminate].
  f_equal. now apply Z.eqb_eq.
Qed.

Lemma pid_field_split (s1 s2 t1 t2 : string) (p1 p2 : Z) :
  pid_field s1 = Some p1 -> pid_field s2 = Some p2 ->
  String.append s1 t1 = String.append s2 t2 -> p1 = p2 /\ t1 = t2.
Proof.
  intros H1 H2 Heq.
  destruct s1 as [|a1 [|b1 [|c1 [|d1 [|e1 [|? ?]]]]]]; try discriminate.
  destruct s2 as [|a2 [|b2 [|c2 [|d2 [|e2 [|? ?]]]]]]; try discriminate.
  cbv [String.append] in Heq. injection Heq as -> -> -> -> -> ->.
  split; [congruence | reflexivity].
Qed.

(** X7.  The stamp identifies the process and the counter value as long
    as the process identifier has at most five digits: two stamps minted
    with identifiers below 100000 are equal only when both the
    identifier and the counter are.  The width of the field is a minimum
    and not a maximum, so that with a sixth digit two different pairs
    give one stamp: process 123456 at counter 7 and process 12345 at
    counter 67 both get [11234567]. *)
Theorem stamp_identifies_process_and_counter :
  (forall pid1 pid2 c1 c2 : Z,
     0 <= pid1 < 100000 -> 0 <= pid2 < 100000 ->
     0 <= c1 < 2 ^ 32 -> 0 <= c2 < 2 ^ 32 ->
     uniq_id pid1 c1 = uniq_id pid2 c2 ->
     pid1 = pid2 /\ c1 = c2)
  /\ uniq_id 123456 7 = uniq_id 12345 67
  /\ uniq_id 12345 67 = Some "11234567"%string.
Proof.
  split; [|split; vm_compute; reflexivity].
  intros pid1 pid2 c1 c2 Hp1 Hp2 Hc1 Hc2 Heq.
  rewrite !uniq_id_spec in Heq.
  rewrite !wrap32_small in Heq by lia.
  injection Heq as Heq. unfold stamp_spec in Heq.
  apply (inj (String.append _)) in Heq.
  destruct (pid_field_split _ _ _ _ pid1 pid2
              (pid_field_padded pid1 Hp1) (pid_field_padded pid2 Hp2) Heq)
    as [Hpid Hdec].
  split; [exact Hpid|]. apply decimal_inj; [lia | lia | exact Hdec].
Qed.

Lemma stamp_identifies_process_and_counter_witness :
  (0 <= 4242 < 100000 /\ 0 <= 17 < 2 ^ 32 /\ uniq_id 4242 17 = uniq_id 4242 17)
  /\ 4242 = 4242 /\ 17 = 17.
Proof.
  assert (Hp : 0 <= 4242 < 100000) by lia.
  assert (Hc : 0 <= 17 < 2 ^ 32) by lia.
  refine (conj (conj Hp (conj Hc eq_refl)) _).
  exact (proj1 stamp_identifies_process_and_counter 4242 4242 17 17 Hp Hp Hc Hc eq_refl).
Defined.

(** ** The callback that frees a node *)

Section Teardown.
Context `{Collaborators}.

Lemma free_items_down_trace (items : list Z) (count : nat) (w w' : world) :
  free_items_down items count w = Done tt w' ->
  trace w' = trace w ++ map Ev_SEXP_free (rev (take count items)).
Proof.
  revert w. induction count as [|c IH]; intros w Hrun.
  - cbn in Hrun. injection Hrun as <-. rewrite take_0. cbn. now rewrite app_nil_r.
  - cbn [free_items_down] in Hrun.
    destruct (items !! c) as [x|] eqn:Hx; [|discriminate].
    unfold bind, SEXP_free, modify in Hrun.
    rewrite (IH _ Hrun), (take_S_r _ _ _ Hx), rev_app_distr.
    cbn [rev app map log trace set_trace set_heap].
    now rewrite <- app_assoc.
Qed.

(** X8.  [probe_icache_free_node] always returns; it releases the items
    of the bucket from the last to the first, each once, then frees the
    array of the bucket and nothing else: the record of the bucket is
    not freed by it, the tree and the other items are left alone. *)
Theorem free_node_releases_last_to_first (items : list Z) (w : world) :
  exists w',
    probe_icache_free_node items w = Done tt w'
    /\ trace w' = trace w ++ map Ev_SEXP_free (rev items)
                          ++ [Ev_oscap_free_items items]
    /\ (forall x, x ∈ items -> heap w' !! x = None)
    /\ (forall x, x ∉ items -> heap w' !! x = heap w !! x)
    /\ tree w' = tree w /\ cobjs w' = cobjs w /\ iq w' = iq w.
Proof.
  destruct (free_items_down_released items (length items) w) as (w1 & Hrun & Hrel);
    [lia|].
  rewrite firstn_all in Hrel. destruct Hrel as (_ & Hin & Hout & Htree).
  pose proof (free_items_down_trace _ _ _ _ Hrun) as Htrace.
  rewrite firstn_all in Htrace.
  assert (Hframe : forall c w0 w2, free_items_down items c w0 = Done tt w2 ->
            cobjs w2 = cobjs w0 /\ iq w2 = iq w0).
  { induction c as [|c IH]; intros w0 w2 Hc.
    - cbn in Hc. injection Hc as <-. auto.
    - cbn [free_items_down] in Hc.
      destruct (items !! c) as [x|]; [|discriminate].
      unfold bind, SEXP_free, modify in Hc. apply IH in Hc. exact Hc. }
  destruct (Hframe _ _ _ Hrun) as [Hcobjs Hiq].
  exists (log (Ev_oscap_free_items items) w1). split.
  - unfold probe_icache_free_node, bind. now rewrite Hrun.
  - cbn [log trace set_trace heap tree cobjs iq]. rewrite Htrace, <- app_assoc.
    repeat split; auto.
Qed.

End Teardown.

(** ** Creating the cache *)

Section Creation.
Context `{Platform}.

Ltac lifecycle_member :=
  repeat match goal with
  | |- _ /\ _ => split
  | |- _ ∉ _ => rewrite ?elem_of_cons, elem_of_nil; intuition discriminate
  | |- _ ∈ _ => rewrite ?elem_of_cons; intuition congruence
  end.

(** X9.  [probe_icache_new] returns a cache exactly when the mutex, the
    two condition variables and the worker thread could be set up; the
    result of [rbt_i64_new] is not examined, so that the cache is
    returned with a null tree as well.  The queue of a new cache is
    empty with [PROBE_IQUEUE_CAPACITY] slots.  Every failure path
    destroys the mutex and the [notempty] condition and frees the
    record, and none destroys the [notfull] condition: when the mutex
    could not be set up the [notempty] condition is destroyed without
    having been initialised, and when the thread could not be started
    the initialised [notfull] condition is left behind. *)
Theorem new_cache_failure_paths (answers : list Z) :
  let tree_addr := nth 0 answers 0 in
  let mutex_rc := nth 1 answers 0 in
  let notempty_rc := nth 2 answers 0 in
  let notfull_rc := nth 3 answers 0 in
  let thread_rc := nth 4 answers 0 in
  let result := fst (probe_icache_new answers) in
  let calls := snd (probe_icache_new answers) in
  (result = Some (new_queue PROBE_IQUEUE_CAPACITY, negb (tree_addr =? NULL))
   <-> mutex_rc = 0 /\ notempty_rc = 0 /\ notfull_rc = 0 /\ thread_rc = 0)
  /\ (result = None
      <-> ~ (mutex_rc = 0 /\ notempty_rc = 0 /\ notfull_rc = 0 /\ thread_rc = 0))
  /\ (result = None ->
      (L_mutex_destroy ∈ calls) /\ (L_cond_destroy CV_notempty ∈ calls)
      /\ (L_oscap_free_cache ∈ calls)
      /\ (L_cond_destroy CV_notfull ∉ calls)
      /\ (L_rbt_i64_free ∈ calls <-> tree_addr <> NULL))
  /\ (mutex_rc <> 0 ->
      (L_cond_init CV_notempty ∉ calls) /\ (L_cond_destroy CV_notempty ∈ calls))
  /\ (mutex_rc = 0 -> notempty_rc = 0 -> notfull_rc = 0 -> thread_rc <> 0 ->
      (L_cond_init CV_notfull ∈ calls) /\ (L_cond_destroy CV_notfull ∉ calls)).
Proof.
  cbv zeta. unfold probe_icache_new.
  destruct (Z.eqb_spec (nth 1 answers 0) 0) as [H1|H1];
  destruct (Z.eqb_spec (nth 2 answers 0) 0) as [H2|H2];
  destruct (Z.eqb_spec (nth 3 answers 0) 0) as [H3|H3];
  destruct (Z.eqb_spec (nth 4 answers 0) 0) as [H4|H4];
  destruct (Z.eqb_spec (nth 0 answers 0) NULL) as [H0|H0];
  cbn [negb fst snd app].
  all: repeat match goal with
       | |- _ /\ _ => split
       | |- _ <-> _ => split
       | |- _ -> _ => intro
       end.
  all: try discriminate; try tauto; try congruence; try reflexivity.
  all: lifecycle_member.
  all: match goal with
       | Hin : _ ∈ _ |- _ =>
           exfalso; revert Hin; rewrite ?elem_of_cons, elem_of_nil;
           intuition discriminate
       end.
Qed.

End Creation.

(** ** The barrier after its entry is queued *)

Section Barrier_failures.
Context `{Collaborators} `{Platform}.

(** X10.  Once the barrier entry is in the queue, a failure of
    [probe_icache_nop] leaves the cache in a broken state.  When the
    signal on the [notempty] condition fails, the function destroys its
    condition variable and returns -1 with the queue mutex still owned
    and with the entry that points at the destroyed condition variable
    still in the queue.  When the wait on its condition variable fails,
    it returns -1 with the queue mutex still owned and without
    destroying the condition variable. *)
Theorem nop_failure_after_enqueue (cache cond : Z) (w : world) :
  cache <> NULL -> cond <> NULL ->
  holds_queue_mutex w = false ->
  (forall a1 a2 a3 rest,
     tape w = a1 :: a2 :: a3 :: rest ->
     rc a1 = 0 -> rc a2 = 0 -> rc a3 <> 0 ->
     queue_has_room (foldl interfere (iq w) (others a1)) = true ->
     (Z.to_nat (queue_end (foldl interfere (iq w) (others a1)))
      < length (queue (foldl interfere (iq w) (others a1))))%nat ->
     exists w',
       probe_icache_nop cache cond w = Done (-1) w'
       /\ holds_queue_mutex w' = true
       /\ queue_slot (iq w') (queue_end (foldl interfere (iq w) (others a1)))
          = Some {| cobj := NULL; p := P_cond cond |}
       /\ trace w' = trace w ++ [Ev_call (pthread_mutex_lock MX_queue) 0;
                                 Ev_call (pthread_cond_init cond) 0;
                                 Ev_call (pthread_cond_signal CV_notempty) (rc a3);
                                 Ev_call (pthread_cond_destroy cond)
                                   (rc (hd ok rest))])
  /\ (forall a1 a2 a3 a4 rest,
        tape w = a1 :: a2 :: a3 :: a4 :: rest ->
        rc a1 = 0 -> rc a2 = 0 -> rc a3 = 0 -> rc a4 <> 0 ->
        queue_has_room (foldl interfere (iq w) (others a1)) = true ->
        exists w',
          probe_icache_nop cache cond w = Done (-1) w'
          /\ holds_queue_mutex w' = true
          /\ trace w' = trace w ++ [Ev_call (pthread_mutex_lock MX_queue) 0;
                                    Ev_call (pthread_cond_init cond) 0;
                                    Ev_call (pthread_cond_signal CV_notempty) 0;
                                    Ev_call (pthread_cond_wait (CV_at cond)) (rc a4)]).
Proof.
  intros Hcache Hcond Hfree.
  assert (Hc : (cache =? NULL) = false) by now apply Z.eqb_neq.
  apply Z.eqb_neq in Hcond.
  split.
  - intros a1 a2 a3 rest Htape H1 H2 H3 Hroom Hslot.
    apply Z.eqb_neq in H3.
    set (q := foldl interfere (iq w) (others a1)) in *.
    assert (Hwp : wp (probe_icache_nop cache cond)
              (fun r w' => r = -1 /\ holds_queue_mutex w' = true
                 /\ queue_slot (iq w') (queue_end q)
                    = Some {| cobj := NULL; p := P_cond cond |}
                 /\ trace w' = trace w ++ [Ev_call (pthread_mutex_lock MX_queue) 0;
                                 Ev_call (pthread_cond_init cond) 0;
                                 Ev_call (pthread_cond_signal CV_notempty) (rc a3);
                                 Ev_call (pthread_cond_destroy cond)
                                   (rc (hd ok rest))])
              (fun _ => False) w).
    { unfold probe_icache_nop. rewrite Hc.
      wp_run. wp_run. rewrite Htape. world_simpl. rewrite H1. cbn [Z.eqb negb].
      wp_run. wp_run. rewrite H2. cbn [Z.eqb negb].
      wp_run. unfold __probe_icache_add_nolock. rewrite Hcond.
      cbn [NULL Z.eqb xorb negb]. rewrite andb_false_r.
      wp_run. wp_run. cbn [length add_nolock_retry].
      wp_run. wp_run. fold q. rewrite Hroom.
      wp_run. wp_run. wp_run. cbn [Z.eqb negb].
      wp_run. wp_run. rewrite H3. cbn [negb].
      wp_run. wp_run. wp_run.
      split; [reflexivity|]. split; [reflexivity|]. split.
      - unfold queue_slot, queue_store. cbn [queue].
        rewrite list_lookup_insert_eq by exact Hslot. reflexivity.
      - now rewrite <- !app_assoc. }
    apply wp_done in Hwp. destruct Hwp as (r & w' & Hrun & -> & Hrest). eauto.
  - intros a1 a2 a3 a4 rest Htape H1 H2 H3 H4 Hroom.
    apply Z.eqb_neq in H4.
    set (q := foldl interfere (iq w) (others a1)) in *.
    assert (Hwp : wp (probe_icache_nop cache cond)
              (fun r w' => r = -1 /\ holds_queue_mutex w' = true
                 /\ trace w' = trace w ++ [Ev_call (pthread_mutex_lock MX_queue) 0;
                                    Ev_call (pthread_cond_init cond) 0;
                                    Ev_call (pthread_cond_signal CV_notempty) 0;
                                    Ev_call (pthread_cond_wait (CV_at cond)) (rc a4)])
              (fun _ => False) w).
    { unfold probe_icache_nop. rewrite Hc.
      wp_run. wp_run. rewrite Htape. world_simpl. rewrite H1. cbn [Z.eqb negb].
      wp_run. wp_run. rewrite H2. cbn [Z.eqb negb].
      wp_run. unfold __probe_icache_add_nolock. rewrite Hcond.
      cbn [NULL Z.eqb xorb negb]. rewrite andb_false_r.
      wp_run. wp_run. cbn [length add_nolock_retry].
      wp_run. wp_run. fold q. rewrite Hroom.
      wp_run. wp_run. wp_run. cbn [Z.eqb negb].
      wp_run. wp_run. rewrite H3. cbn [Z.eqb negb].
      wp_run. apply wp_cond_wait; world_simpl; [discriminate|].
      intros a t [= <- <-]. rewrite H4. cbn [negb]. wp_run.
      split; [reflexivity|]. split; [reflexivity|].
      now rewrite <- !app_assoc. }
    apply wp_done in Hwp. destruct Hwp as (r & w' & Hrun & -> & Hrest). eauto.
Qed.

End Barrier_failures.

(** X10, on a new cache: the signal fails with error 11, the wait with
    error 22. *)
Lemma nop_failure_after_enqueue_witness :
  let C := pair_collaborators in
  let P := small_platform true true 4 in
  let w := new_world three_items [ok; ok; failure 11] in
  let w2 := new_world three_items [ok; ok; ok; failure 22] in
  (1 <> NULL /\ 900 <> NULL /\ holds_queue_mutex w = false
   /\ rc (failure 11) <> 0 /\ rc (failure 22) <> 0
   /\ queue_has_room (foldl interfere (iq w) (others ok)) = true)
  /\ (exists w',
        probe_icache_nop 1 900 w = Done (-1) w'
        /\ holds_queue_mutex w' = true
        /\ queue_slot (iq w') (queue_end (foldl interfere (iq w) (others ok)))
           = Some {| cobj := NULL; p := P_cond 900 |}
        /\ trace w' = trace w ++ [Ev_call (pthread_mutex_lock MX_queue) 0;
                                  Ev_call (pthread_cond_init 900) 0;
                                  Ev_call (pthread_cond_signal CV_notempty) 11;
                                  Ev_call (pthread_cond_destroy 900) 0])
  /\ (exists w',
        probe_icache_nop 1 900 w2 = Done (-1) w'
        /\ holds_queue_mutex w' = true
        /\ trace w' = trace w2 ++ [Ev_call (pthread_mutex_lock MX_queue) 0;
                                   Ev_call (pthread_cond_init 900) 0;
                                   Ev_call (pthread_cond_signal CV_notempty) 0;
                                   Ev_call (pthread_cond_wait (CV_at 900)) 22]).
Proof.
  intros C P w w2.
  assert (Hn : forall z, z <> 0 -> z <> NULL) by (unfold NULL; auto).
  assert (H1 : 1 <> NULL) by (apply Hn; lia).
  assert (H2 : 900 <> NULL) by (apply Hn; lia).
  assert (H3 : rc (failure 11) <> 0) by (cbn; lia).
  assert (H4 : rc (failure 22) <> 0) by (cbn; lia).
  assert (H5 : (Z.to_nat (queue_end (foldl interfere (iq w) (others ok)))
                < length (queue (foldl interfere (iq w) (others ok))))%nat)
    by (vm_compute; lia).
  refine (conj (conj H1 (conj H2 (conj eq_refl (conj H3 (conj H4 eq_refl))))) _).
  split.
  - exact (proj1 (@nop_failure_after_enqueue C P 1 900 w H1 H2 eq_refl)
             ok ok (failure 11) [] eq_refl eq_refl eq_refl H3 eq_refl H5).
  - exact (proj2 (@nop_failure_after_enqueue C P 1 900 w2 H1 H2 eq_refl)
             ok ok ok (failure 22) [] eq_refl eq_refl eq_refl eq_refl H4 eq_refl).
Defined.

(** ** The cache as a whole on a small queue

    The submits, the worker's loop and the barrier together, on a cache
    of capacity 2.  The producers' calls and the worker's passes are run
    one after the other; [set_holds false] starts a producer, which does
    not own the queue mutex, and [set_tape] gives the answers of the
    environment to the thread that runs next. *)

(** C1.  Equal items are not merged when the queue gets full: with the
    equal items 101 and 103 submitted to a cache of capacity 2 before the
    worker wakes up, the worker takes the entry of 101 twice (the head is
    not advanced on a full queue).  The first time 101 becomes the
    stored item; the second time the incoming item is the stored item
    itself, which is released.  The entry of 103 is never taken.  After
    the barrier has been queued and served, the destination holds 101
    twice, 101 is released and 103 is neither released nor
    represented. *)
Theorem equal_items_on_full_queue :
  let C := pair_collaborators in
  let P := small_platform true true 2 in
  let w0 := new_world three_items [] in
  let w2 := final (submit_all 1 50 [101; 103] w0) in
  let w3 := final (probe_icache_worker 4 (set_tape [ok; ok] w2)) in
  let w4 := final (probe_icache_nop 1 900 (set_holds false (set_tape [ok; ok; ok] w3))) in
  let w5 := final (worker_loop 4 (set_tape [ok] w4)) in
  (heap w0 !! 101 = Some (fresh_item 7 1) /\ heap w0 !! 103 = Some (fresh_item 7 1)
   /\ SEXP_deepcmp (fresh_item 7 1) (fresh_item 7 1) = true)
  /\ submit_all 1 50 [101; 103] w0 = Done [0; 0] w2
  /\ (queue_cnt (iq w2) = 2 /\ queue_max (iq w2) = 2)
  /\ probe_icache_worker 4 (set_tape [ok; ok] w2) = Blocked w3
  /\ (queue_cnt (iq w3) = 0 /\ tree w3 !! 7 = Some [101]
      /\ queue_slot (iq w3) 1 = Some {| cobj := 50; p := P_item 103 |})
  /\ probe_icache_nop 1 900 (set_holds false (set_tape [ok; ok; ok] w3)) = Blocked w4
  /\ worker_loop 4 (set_tape [ok] w4) = Blocked w5
  /\ In (Ev_call (pthread_cond_signal (CV_at 900)) 0) (trace w5)
  /\ queue_cnt (iq w5) = 0
  /\ cobjs w5 !! 50 = Some [101; 101]
  /\ (heap w5 !! 101 = None /\ frees 101 (trace w5) = 1%nat)
  /\ (heap w5 !! 103 = Some (fresh_item 7 1) /\ frees 103 (trace w5) = 0%nat).
Proof.
  vm_compute.
  repeat match goal with
         | |- _ /\ _ => split
         | |- _ = _ => reflexivity
         | |- _ \/ _ => first [left; reflexivity | right]
         end.
Qed.

(** C3.  A colliding item is not handled when the queue gets full: with
    the items 101 and 102 (one fingerprint, different content)
    submitted to a cache of capacity 2 before the worker wakes up, the
    worker takes the entry of 101 twice and never the entry of 102.
    After the barrier has been queued and served, the bucket of the
    fingerprint holds 101 alone, 102 has no stamp and is not in the
    destination, and 101, the only stamped item, is released. *)
Theorem colliding_items_on_full_queue :
  let C := pair_collaborators in
  let P := small_platform true true 2 in
  let w0 := new_world three_items [] in
  let w2 := final (submit_all 1 50 [101; 102] w0) in
  let w3 := final (probe_icache_worker 4 (set_tape [ok; ok] w2)) in
  let w4 := final (probe_icache_nop 1 900 (set_holds false (set_tape [ok; ok; ok] w3))) in
  let w5 := final (worker_loop 4 (set_tape [ok] w4)) in
  (heap w0 !! 101 = Some (fresh_item 7 1) /\ heap w0 !! 102 = Some (fresh_item 7 2)
   /\ SEXP_ID_v (fresh_item 7 1) = SEXP_ID_v (fresh_item 7 2)
   /\ SEXP_deepcmp (fresh_item 7 2) (fresh_item 7 1) = false)
  /\ submit_all 1 50 [101; 102] w0 = Done [0; 0] w2
  /\ (queue_cnt (iq w2) = 2 /\ queue_max (iq w2) = 2)
  /\ probe_icache_worker 4 (set_tape [ok; ok] w2) = Blocked w3
  /\ (queue_cnt (iq w3) = 0
      /\ queue_slot (iq w3) 1 = Some {| cobj := 50; p := P_item 102 |})
  /\ probe_icache_nop 1 900 (set_holds false (set_tape [ok; ok; ok] w3)) = Blocked w4
  /\ worker_loop 4 (set_tape [ok] w4) = Blocked w5
  /\ In (Ev_call (pthread_cond_signal (CV_at 900)) 0) (trace w5)
  /\ queue_cnt (iq w5) = 0
  /\ tree w5 !! 7 = Some [101]
  /\ cobjs w5 !! 50 = Some [101; 101]
  /\ heap w5 !! 102 = Some (fresh_item 7 2)
  /\ (heap w5 !! 101 = None /\ frees 101 (trace w5) = 1%nat).
Proof.
  vm_compute.
  repeat match goal with
         | |- _ /\ _ => split
         | |- _ = _ => reflexivity
         | |- _ \/ _ => first [left; reflexivity | right]
         end.
Qed.

(** C9.  The tags do not hold in every state: the worker goes on using
    its pointer into the queue after it has given the slot back
    (the count is decremented at line 111, the mutex released at line
    121).  On a cache of capacity 2 whose tree stores 101, the worker
    takes the entry of the equal item 103 from slot 1; while it handles
    the hit, a submit of 102 and a barrier are stored, the barrier in
    slot 1; line 191 then writes the stored item into that slot.  The
    queue now holds an entry that is not yet taken, has a null [cobj]
    and carries the item 101; line 217 has passed the null [cobj] to
    [probe_cobj_add_item], and the worker's dispatch takes the entry
    for a barrier and signals the address of the item. *)
Theorem worker_substitution_breaks_tags :
  let C := pair_collaborators in
  let P := small_platform true true 2 in
  let w1 := final (probe_icache_add 1 50 101 (new_world three_items [])) in
  let w2 := final (worker_next w1) in
  let w3 := final (probe_icache_add 1 50 103 (set_holds false w2)) in
  let meanwhile := [[]; []; []; []; [Other_submit 50 102; Other_nop 900]] in
  let w4 := final (worker_next (set_sched meanwhile w3)) in
  let e := {| cobj := NULL; p := P_item 101 |} in
  worker_next w1 = Done W_continue w2
  /\ tree w2 !! 7 = Some [101]
  /\ probe_icache_add 1 50 103 (set_holds false w2) = Done 0 w3
  /\ (queue_beg (iq w3) = 1
      /\ queue_slot (iq w3) 1 = Some {| cobj := 50; p := P_item 103 |})
  /\ worker_next (set_sched meanwhile w3) = Done W_continue w4
  /\ (queue_cnt (iq w4) = 2
      /\ queue_slot (iq w4) 0 = Some {| cobj := 50; p := P_item 102 |}
      /\ queue_slot (iq w4) 1 = Some e)
  /\ ~ (cobj e = NULL <-> exists c, p e = P_cond c /\ c <> NULL)
  /\ ~ (cobj e <> NULL <-> exists x, p e = P_item x /\ x <> NULL)
  /\ last (trace w4) = Some (Ev_call (pthread_mutex_lock MX_queue) 0)
  /\ In (Ev_call (probe_cobj_add_item NULL 101) 0) (trace w4)
  /\ last (trace (final (worker_handle_at 1 w4)))
     = Some (Ev_call (pthread_cond_signal (CV_at 101)) 0).
Proof.
  cbv zeta.
  split; [vm_compute; reflexivity|].
  split; [vm_compute; reflexivity|].
  split; [vm_compute; reflexivity|].
  split; [vm_compute; split; reflexivity|].
  split; [vm_compute; reflexivity|].
  split; [vm_compute; repeat split; reflexivity|].
  split.
  { cbn [cobj p]. intros [Hc _]. destruct (Hc eq_refl) as (c & Hp & _).
    discriminate. }
  split.
  { cbn [cobj p]. intros [_ Hc]. apply Hc; [|reflexivity].
    exists 101. split; [reflexivity|]. unfold NULL. lia. }
  split; [vm_compute; reflexivity|].
  split.
  { vm_compute.
    repeat match goal with
           | |- _ \/ _ => first [left; reflexivity | right]
           end. }
  vm_compute. reflexivity.
Qed.

(** ** The worker when no other thread runs

    With an empty schedule the accesses through the worker's pointer
    all see the entry that was in the slot, and the pass of the worker
    is the handler [worker_handle] on that entry followed by the write
    of the entry it leaves. *)

Lemma bind_assoc `{Collaborators} `{Platform} {A B D} (m : M A) (f : A -> M B)
    (g : B -> M D) (w : world) :
  bind (bind m f) g w = bind m (fun a => bind (f a) g) w.
Proof. unfold bind. destruct (m w); reflexivity. Qed.

Lemma bind_ext `{Collaborators} `{Platform} {A B} (m : M A) (k1 k2 : A -> M B)
    (w : world) :
  (forall a w', m w = Done a w' -> k1 a w' = k2 a w') ->
  bind m k1 w = bind m k2 w.
Proof. intros Hk. unfold bind. destruct (m w); auto. Qed.

Lemma queue_set_slot_same (q : iqueue) (i : Z) (e : iqpair) :
  queue_slot q i = Some e -> queue_set_slot q i e = q.
Proof.
  unfold queue_slot, queue_set_slot. intros Hs.
  destruct (queue q !! Z.to_nat i) as [[e'|]|] eqn:Hl; cbn in Hs; try discriminate.
  injection Hs as ->. rewrite list_insert_id by exact Hl. now destruct q.
Qed.

Lemma queue_slot_set_slot (q : iqueue) (i : Z) (e e' : iqpair) :
  queue_slot q i = Some e -> queue_slot (queue_set_slot q i e') i = Some e'.
Proof.
  unfold queue_slot, queue_set_slot. intros Hs. cbn [queue].
  destruct (queue q !! Z.to_nat i) as [o|] eqn:Hl; [|discriminate].
  rewrite list_lookup_insert_eq; [reflexivity|].
  now apply lookup_lt_Some in Hl.
Qed.

Section Alone.
Context `{Collaborators} `{Platform}.

Ltac same_queue_solve :=
  unfold same_queue in *; world_simpl; cbn [sched iq set_sched] in *; auto.

Lemma setID_same_queue (item item_ID : Z) (w0 w : world) :
  same_queue w0 w ->
  wp (probe_icache_item_setID item item_ID)
     (fun _ w' => same_queue w0 w') (same_queue w0) w.
Proof.
  intros Hs. unfold probe_icache_item_setID, mint_local_id.
  wp_go; try same_queue_solve.
  all: destruct (uniq_id _ _);
    [apply wp_replace_id; intros; same_queue_solve
    | wp_go; same_queue_solve].
Qed.

Lemma rbt_add_same_queue (key : Z) (cached : list Z) (w0 w : world) :
  same_queue w0 w ->
  wp (rbt_add key cached) (fun _ w' => same_queue w0 w') (same_queue w0) w.
Proof.
  intros Hs. unfold rbt_add. wp_cases; same_queue_solve.
Qed.

Lemma set_iq_same (w : world) : set_iq (iq w) w = w.
Proof. now destruct w. Qed.

Lemma preempt_alone (w : world) : sched w = [] -> preempt w = Done tt w.
Proof. intros Hs. unfold preempt. now rewrite Hs. Qed.

Lemma bind_pair_cobj {A} (pair : Z) (e : iqpair) (k : Z -> M A) (w : world) :
  sched w = [] -> queue_slot (iq w) pair = Some e ->
  bind (pair_cobj pair) k w = k (cobj e) w.
Proof.
  intros Hs Hp. unfold pair_cobj, bind, get. now rewrite (preempt_alone w Hs), Hp.
Qed.

Lemma bind_pair_p_item {A} (pair : Z) (e : iqpair) (k : Z -> M A) (w : world) :
  sched w = [] -> queue_slot (iq w) pair = Some e ->
  bind (pair_p_item pair) k w = k (p_item (p e)) w.
Proof.
  intros Hs Hp. unfold pair_p_item, bind, get. now rewrite (preempt_alone w Hs), Hp.
Qed.

Lemma bind_pair_p_cond {A} (pair : Z) (e : iqpair) (k : Z -> M A) (w : world) :
  sched w = [] -> queue_slot (iq w) pair = Some e ->
  bind (pair_p_cond pair) k w = k (p_cond (p e)) w.
Proof.
  intros Hs Hp. unfold pair_p_cond, bind, get. now rewrite (preempt_alone w Hs), Hp.
Qed.

Lemma bind_set_pair_p_item {A} (pair x : Z) (e : iqpair) (k : unit -> M A)
    (w : world) :
  sched w = [] -> queue_slot (iq w) pair = Some e ->
  bind (set_pair_p_item pair x) k w
  = k tt (set_iq (queue_set_slot (iq w) pair {| cobj := cobj e; p := P_item x |}) w).
Proof.
  intros Hs Hp. unfold set_pair_p_item, bind, get, modify.
  now rewrite (preempt_alone w Hs), Hp.
Qed.

Lemma bind_bucket_scan_at {A} (pair : Z) (e : iqpair) (it : sexp_item content)
    (items : list Z) (k : Z -> M A) (w : world) :
  sched w = [] -> queue_slot (iq w) pair = Some e ->
  heap w !! p_item (p e) = Some it ->
  forall i,
  bind (bucket_scan_at pair items i) k w
  = match bucket_scan (heap w) it items i with
    | Some j => k j w
    | None => Undefined w
    end.
Proof.
  intros Hs Hp Hit. induction items as [|c rest IH]; intros i.
  - reflexivity.
  - cbn [bucket_scan_at bucket_scan]. rewrite bind_assoc.
    rewrite (bind_pair_p_item pair e _ w Hs Hp). rewrite bind_assoc.
    unfold bind at 1. unfold get at 1. rewrite Hit.
    destruct (heap w !! c) as [stored|]; [|reflexivity].
    destruct (SEXP_deepcmp it stored); [reflexivity | apply IH].
Qed.

(** What is left to do once the entry [e] is in the slot: lines 217-221
    through the pointer, against the same lines on the entry followed by
    the write of the entry. *)
Lemma finish_alone (pair : Z) (e0 e : iqpair) (w : world) :
  sched w = [] -> queue_slot (iq w) pair = Some e0 ->
  (dest <~ pair_cobj pair ;;
   added <~ pair_p_item pair ;;
   r <~ cobj_add_item dest added ;;
   if negb (r =? 0) then ret W_return else ret W_continue)
    (set_iq (queue_set_slot (iq w) pair e) w)
  = (r <~ (r <~ cobj_add_item (cobj e) (p_item (p e)) ;;
           if negb (r =? 0) then ret (W_return, e) else ret (W_continue, e)) ;;
     modify (fun w' => set_iq (queue_set_slot (iq w') pair (snd r)) w') ;;;
     ret (fst r)) w.
Proof.
  intros Hs Hp.
  set (w1 := set_iq (queue_set_slot (iq w) pair e) w).
  assert (Hs1 : sched w1 = []) by exact Hs.
  assert (Hp1 : queue_slot (iq w1) pair = Some e).
  { cbn [w1 iq set_iq]. exact (queue_slot_set_slot _ _ _ _ Hp). }
  rewrite (bind_pair_cobj pair e _ w1 Hs1 Hp1).
  rewrite (bind_pair_p_item pair e _ w1 Hs1 Hp1). subst w1.
  unfold cobj_add_item, bind, syscall, modify, ret.
  unfold next_answer, pop_tape, log.
  cbn [tape set_iq set_tape set_trace set_cobjs iq cobjs trace].
  destruct (rc (hd ok (tape w)) =? 0) eqn:Hrc; cbn [Z.eqb negb fst snd];
    [|rewrite Hrc; cbn [negb fst snd]]; reflexivity.
Qed.

Lemma finish_same (pair : Z) (e : iqpair) (w : world) :
  sched w = [] -> queue_slot (iq w) pair = Some e ->
  (dest <~ pair_cobj pair ;;
   added <~ pair_p_item pair ;;
   r <~ cobj_add_item dest added ;;
   if negb (r =? 0) then ret W_return else ret W_continue) w
  = (r <~ (r <~ cobj_add_item (cobj e) (p_item (p e)) ;;
           if negb (r =? 0) then ret (W_return, e) else ret (W_continue, e)) ;;
     modify (fun w' => set_iq (queue_set_slot (iq w') pair (snd r)) w') ;;;
     ret (fst r)) w.
Proof.
  intros Hs Hp. rewrite <- (finish_alone pair e e w Hs Hp).
  now rewrite (queue_set_slot_same _ _ _ Hp), set_iq_same.
Qed.

Lemma write_back_same (pair : Z) (e : iqpair) (w w1 : world) :
  queue_slot (iq w) pair = Some e -> iq w1 = iq w ->
  set_iq (queue_set_slot (iq w1) pair e) w1 = w1.
Proof.
  intros Hp Hq. rewrite Hq, (queue_set_slot_same _ _ _ Hp), <- Hq.
  apply set_iq_same.
Qed.

Lemma same_queue_alone (w w1 : world) (pair : Z) (e : iqpair) :
  same_queue w w1 -> sched w = [] -> queue_slot (iq w) pair = Some e ->
  sched w1 = [] /\ queue_slot (iq w1) pair = Some e.
Proof. intros [Hq Hs] Hs0 Hp. now rewrite Hs, Hq. Qed.

Lemma same_queue_refl (w : world) : same_queue w w.
Proof. split; reflexivity. Qed.

Lemma bind_get {A} (k : world -> M A) (w : world) : bind get k w = k w w.
Proof. reflexivity. Qed.

Lemma bind_modify {A} (f : world -> world) (k : unit -> M A) (w : world) :
  bind (modify f) k w = k tt (f w).
Proof. reflexivity. Qed.

Lemma setID_run_same (item item_ID : Z) (w w' : world) (a : unit) :
  probe_icache_item_setID item item_ID w = Done a w' -> same_queue w w'.
Proof.
  intros Hrun.
  pose proof (setID_same_queue item item_ID w w (same_queue_refl w)) as Hwp.
  unfold wp in Hwp. now rewrite Hrun in Hwp.
Qed.

Lemma rbt_add_run_same (key : Z) (cached : list Z) (w w' : world) (r : Z) :
  rbt_add key cached w = Done r w' -> same_queue w w'.
Proof.
  intros Hrun.
  pose proof (rbt_add_same_queue key cached w w (same_queue_refl w)) as Hwp.
  unfold wp in Hwp. now rewrite Hrun in Hwp.
Qed.

(** The handler on the shared slot is the handler on the entry, followed
    by the write of the entry it leaves. *)
Lemma worker_handle_at_alone (pair : Z) (entry : iqpair) (w : world) :
  sched w = [] -> queue_slot (iq w) pair = Some entry ->
  worker_handle_at pair w
  = (r <~ worker_handle entry ;;
     modify (fun w' => set_iq (queue_set_slot (iq w') pair (snd r)) w') ;;;
     ret (fst r)) w.
Proof.
  intros Hs Hp. unfold worker_handle_at, worker_handle.
  rewrite (bind_pair_cobj pair entry _ w Hs Hp).
  destruct (cobj entry =? NULL) eqn:Hc.
  - destruct assume_d_enabled; cbn [andb].
    + rewrite bind_assoc. rewrite (bind_pair_p_cond pair entry _ w Hs Hp).
      unfold bind at 1. unfold ret at 1.
      destruct (p_cond (p entry) =? NULL).
      * unfold bind, ret, modify. cbn [fst snd].
        rewrite (queue_set_slot_same _ _ _ Hp), set_iq_same. reflexivity.
      * rewrite (bind_pair_p_cond pair entry _ w Hs Hp).
        unfold bind, syscall, abort, ret, modify.
        destruct (negb _); [reflexivity|]. cbn [fst snd].
        rewrite (write_back_same pair entry w); [reflexivity | exact Hp | reflexivity].
    + unfold bind at 1. unfold ret at 1.
      rewrite (bind_pair_p_cond pair entry _ w Hs Hp).
      unfold bind, syscall, abort, ret, modify.
      destruct (negb _); [reflexivity|]. cbn [fst snd].
      rewrite (write_back_same pair entry w); [reflexivity | exact Hp | reflexivity].
  - rewrite (bind_pair_p_item pair entry _ w Hs Hp).
    rewrite (bind_assoc get). rewrite !bind_get. cbv beta.
    destruct (heap w !! p_item (p entry)) as [it|] eqn:Hit; [|reflexivity].
    cbv zeta. rewrite bind_assoc.
    destruct (tree w !! SEXP_ID_v it) as [cached|] eqn:Htree.
    + rewrite bind_assoc.
      rewrite (bind_bucket_scan_at pair entry it cached _ w Hs Hp Hit).
      destruct (bucket_scan (heap w) it cached 0) as [i|]; [|reflexivity].
      destruct (i =? Z.of_nat (length cached)).
      * destruct (wrap16 (Z.of_nat (length cached) + 1) =? 0); [reflexivity|].
        rewrite !bind_assoc.
        rewrite (bind_pair_p_item pair entry _ w Hs Hp).
        rewrite !bind_assoc. rewrite !bind_modify.
        set (w1 := set_tree _ w).
        assert (Hs1 : sched w1 = []) by exact Hs.
        assert (Hp1 : queue_slot (iq w1) pair = Some entry) by exact Hp.
        rewrite !bind_assoc.
        rewrite (bind_pair_p_item pair entry _ w1 Hs1 Hp1).
        apply bind_ext. intros [] w2 Hrun.
        destruct (same_queue_alone w1 w2 pair entry
                    (setID_run_same _ _ _ _ _ Hrun) Hs1 Hp1) as [Hs2 Hp2].
        rewrite (finish_same pair entry w2 Hs2 Hp2). reflexivity.
      * destruct (cached !! Z.to_nat i) as [canonical|]; [|reflexivity].
        rewrite !bind_assoc.
        rewrite (bind_pair_p_item pair entry _ w Hs Hp).
        rewrite !bind_assoc. unfold SEXP_free. rewrite !bind_modify.
        set (w1 := log _ _).
        assert (Hs1 : sched w1 = []) by exact Hs.
        assert (Hp1 : queue_slot (iq w1) pair = Some entry) by exact Hp.
        rewrite (bind_set_pair_p_item pair canonical entry _ w1 Hs1 Hp1).
        rewrite (finish_alone pair entry _ w1 Hs1 Hp1). reflexivity.
    + rewrite !bind_assoc.
      rewrite (bind_pair_p_item pair entry _ w Hs Hp).
      rewrite !bind_assoc.
      rewrite (bind_pair_p_item pair entry _ w Hs Hp).
      rewrite !bind_assoc.
      apply bind_ext. intros [] w2 Hrun.
      destruct (same_queue_alone w w2 pair entry
                  (setID_run_same _ _ _ _ _ Hrun) Hs Hp) as [Hs2 Hp2].
      rewrite !bind_assoc.
      apply bind_ext. intros r w3 Hrun3.
      destruct (same_queue_alone w2 w3 pair entry
                  (rbt_add_run_same _ _ _ _ _ Hrun3) Hs2 Hp2) as [Hs3 Hp3].
      destruct (negb (r =? 0)).
      * reflexivity.
      * change (bind (ret ()) ?k w3) with (k () w3). cbv beta.
        rewrite (finish_same pair entry w3 Hs3 Hp3). reflexivity.
Qed.

Lemma bind_run_eq {A B} (m m' : M A) (k : A -> M B) (w : world) :
  m w = m' w -> bind m k w = bind m' k w.
Proof. unfold bind. now intros ->. Qed.

Lemma worker_handle_at_empty (pair : Z) (w : world) :
  sched w = [] -> queue_slot (iq w) pair = None ->
  worker_handle_at pair w = Undefined w.
Proof.
  intros Hs Hp. unfold worker_handle_at. unfold bind at 1.
  unfold pair_cobj, bind, get. rewrite (preempt_alone w Hs). now rewrite Hp.
Qed.

(** X14.  When no other thread works on the queue between the unlock and
    the re-lock of a pass, the pass of the worker through its pointer
    into the queue is the pass on the entry at the head: that entry is
    handled by [worker_handle] and the entry it leaves is written to the
    slot.  What is proved of [worker_handle] therefore holds of the
    worker as long as it runs undisturbed. *)
Theorem worker_pass_alone (w : world) :
  sched w = [] -> worker_next w = worker_next_alone w.
Proof.
  intros Hs. unfold worker_next, worker_next_alone.
  rewrite !bind_get. cbv zeta. rewrite !bind_modify.
  set (pair := fst (queue_extract (iq w))).
  set (w1 := set_iq _ w).
  apply bind_ext. intros u w2 Hu.
  assert (Hw2 : same_queue w1 w2).
  { unfold unlock_queue_mutex in Hu. injection Hu as _ <-. split; reflexivity. }
  destruct (negb (u =? 0)); [reflexivity|].
  apply bind_ext. intros s w3 Hsig.
  assert (Hw3 : same_queue w2 w3).
  { unfold syscall in Hsig. injection Hsig as _ <-. split; reflexivity. }
  destruct (negb (s =? 0)); [reflexivity|].
  destruct Hw2 as [Hq2 Hs2]. destruct Hw3 as [Hq3 Hs3].
  assert (Hs3' : sched w3 = []) by (rewrite Hs3, Hs2; exact Hs).
  assert (Hq3' : forall i, queue_slot (iq w3) i = queue_slot (iq w) i).
  { intros i. rewrite Hq3, Hq2. reflexivity. }
  destruct (queue_slot (iq w) pair) as [entry|] eqn:Hslot.
  - rewrite (bind_run_eq _ _ _ w3
               (worker_handle_at_alone pair entry w3 Hs3'
                  (eq_trans (Hq3' pair) Hslot))).
    rewrite bind_assoc. apply bind_ext. intros [st e'] w4 _.
    rewrite bind_assoc, !bind_modify. destruct st; reflexivity.
  - unfold bind at 1.
    rewrite (worker_handle_at_empty pair w3 Hs3'); [reflexivity|].
    rewrite Hq3'. exact Hslot.
Qed.

End Alone.

(** X14, on a cache that holds one submitted item. *)
Lemma worker_pass_alone_witness :
  let C := pair_collaborators in
  let P := small_platform true true 4 in
  let w := final (probe_icache_add 1 50 101 (new_world three_items [])) in
  sched w = [] /\ worker_next w = worker_next_alone w.
Proof.
  intros C P w.
  assert (Hs : sched w = []) by reflexivity.
  split; [exact Hs|].
  exact (@worker_pass_alone C P w Hs).
Defined.
